(** * RocksDB write path and block layer: a shallow embedding

    The development follows three translation units of the repository:

    - [util/arena.h]      : the bump allocator ([Arena]);
    - [table/block.h]     : the read-amplification bitmap and the block
                            iterators ([BlockReadAmpBitmap], [BlockIter],
                            [IndexBlockIter]);
    - [db/log_format.h]   : the WAL record constants ([log]) and the group
                            commit coordinator ([WriteThread]).

    Machine integers are integers of [Z] with their wrap-around written at
    every operation, pointers are addresses, objects reached through
    pointers live in finite maps, and code that can fail (an assertion, a
    dereference of a pointer that owns nothing, a loop that needs more
    steps than it was given) returns in the [Res] monad. *)

From stdpp Require Import base tactics option list numbers gmap strings.

Open Scope Z_scope.

(** ** Results of fallible code *)

Inductive Fault :=
  | AssertionFailed   (* an [assert] of the source does not hold *)
  | InvalidDeref      (* a pointer that does not designate an object *)
  | OutOfFuel         (* the loop needs more iterations than allowed *)
  | Blocked.          (* the thread waits for an event that has not come *)

Inductive Res (A : Type) :=
  | Ok (a : A)
  | Err (f : Fault).
Arguments Ok {A} a.
Arguments Err {A} f.

#[global] Instance Res_ret : MRet Res := fun A a => Ok a.
#[global] Instance Res_bind : MBind Res := fun A B k m =>
  match m with
  | Ok a => k a
  | Err f => Err f
  end.

(** The sources are compiled either with assertions (debug) or with
    [NDEBUG] (release), where [assert] expands to nothing. *)
Class Build := NDEBUG : bool.
Definition release : Build := true.
Definition debug : Build := false.

Definition assert `{Build} (b : bool) : Res unit :=
  if NDEBUG || b then Ok tt else Err AssertionFailed.

Lemma bind_Ok {A B} (a : A) (k : A → Res B) : (Ok a ≫= k) = k a.
Proof. reflexivity. Qed.

Lemma bind_Err {A B} (f : Fault) (k : A → Res B) : (Err f ≫= k) = Err f.
Proof. reflexivity. Qed.

Lemma assert_true `{Build} : assert true = Ok tt.
Proof. unfold assert. by rewrite orb_true_r. Qed.

(** ** Fixed-width integers *)

Definition uint8_t (z : Z) : Z := z `mod` 2 ^ 8.
Definition uint32_t (z : Z) : Z := z `mod` 2 ^ 32.
Definition size_t (z : Z) : Z := z `mod` 2 ^ 64.
Definition int32_t (z : Z) : Z := (z + 2 ^ 31) `mod` 2 ^ 32 - 2 ^ 31.

Definition is_uint32 (z : Z) : Prop := 0 ≤ z < 2 ^ 32.
Definition is_size_t (z : Z) : Prop := 0 ≤ z < 2 ^ 64.
Definition is_int32 (z : Z) : Prop := - 2 ^ 31 ≤ z < 2 ^ 31.

Lemma uint32_t_id z : is_uint32 z → uint32_t z = z.
Proof. intros Hz. apply Z.mod_small. exact Hz. Qed.

Lemma size_t_id z : is_size_t z → size_t z = z.
Proof. intros Hz. apply Z.mod_small. exact Hz. Qed.

Lemma int32_t_id z : is_int32 z → int32_t z = z.
Proof.
  unfold is_int32, int32_t. intros Hz.
  rewrite Z.mod_small by lia. lia.
Qed.

Lemma uint32_t_range z : is_uint32 (uint32_t z).
Proof. unfold is_uint32, uint32_t. apply Z.mod_pos_bound. lia. Qed.

Lemma size_t_range z : is_size_t (size_t z).
Proof. unfold is_size_t, size_t. apply Z.mod_pos_bound. lia. Qed.

(** ** Status values ([rocksdb::Status], as far as the sources here use it) *)

Inductive Status :=
  | StatusOK
  | Incomplete (msg : string)
  | InvalidArgument (msg : string)
  | Corruption (msg : string)
  | IOError (msg : string).

Definition ok (s : Status) : bool :=
  match s with StatusOK => true | _ => false end.

(** Pointers are addresses; [nullptr] is address 0. *)
Definition char_ptr := Z.

(* ===================================================================== *)
(** * util/arena.h *)
(* ===================================================================== *)

Module Arena.

(** The size of a [char] pointer on the LP64 targets the widths above assume. *)
Definition sizeof_char_ptr : Z := 8.

Definition kInlineSize : Z := 2048.

(** The data members of [class Arena].  [blocks_] is a [std::vector]: its
    elements and its capacity. *)
Record Arena := {
  kBlockSize : Z;
  blocks_ : list char_ptr;
  blocks_capacity : Z;
  huge_blocks_ : list (char_ptr * Z);
  irregular_block_num : Z;
  unaligned_alloc_ptr_ : char_ptr;
  aligned_alloc_ptr_ : char_ptr;
  alloc_bytes_remaining_ : Z;
  blocks_memory_ : Z
}.

Definition ApproximateMemoryUsage (a : Arena) : Z :=
  size_t (size_t (blocks_memory_ a + size_t (blocks_capacity a * sizeof_char_ptr))
          - alloc_bytes_remaining_ a).

Definition MemoryAllocatedBytes (a : Arena) : Z := blocks_memory_ a.
Definition AllocatedAndUnused (a : Arena) : Z := alloc_bytes_remaining_ a.
Definition IrregularBlockNum (a : Arena) : Z := irregular_block_num a.
Definition BlockSize (a : Arena) : Z := kBlockSize a.
Definition IsInInlineBlock (a : Arena) : bool :=
  match blocks_ a with [] => true | _ => false end.

Section Allocate.
Context `{Build}.

(** [Arena::AllocateFallback] is defined in [arena.cc]; [Allocate] only
    calls it, so it is a parameter here. *)
Variable AllocateFallback : Z → bool → Arena → Res (char_ptr * Arena).

Definition Allocate (bytes : Z) (a : Arena) : Res (char_ptr * Arena) :=
  _ ← assert (bool_decide (0 < bytes));
  if bool_decide (bytes ≤ alloc_bytes_remaining_ a) then
    let a' := {|
      kBlockSize := kBlockSize a;
      blocks_ := blocks_ a;
      blocks_capacity := blocks_capacity a;
      huge_blocks_ := huge_blocks_ a;
      irregular_block_num := irregular_block_num a;
      unaligned_alloc_ptr_ := unaligned_alloc_ptr_ a - bytes;
      aligned_alloc_ptr_ := aligned_alloc_ptr_ a;
      alloc_bytes_remaining_ := size_t (alloc_bytes_remaining_ a - bytes);
      blocks_memory_ := blocks_memory_ a |} in
    Ok (unaligned_alloc_ptr_ a', a')
  else AllocateFallback bytes false a.

End Allocate.

(** The sizes of an arena are [size_t] values, and the bytes still free in
    the active block are part of the bytes of the blocks. *)
Record wf (a : Arena) : Prop := {
  wf_remaining : 0 ≤ alloc_bytes_remaining_ a ≤ blocks_memory_ a;
  wf_capacity : 0 ≤ blocks_capacity a;
  wf_total : blocks_memory_ a + blocks_capacity a * sizeof_char_ptr < 2 ^ 64
}.

Lemma ApproximateMemoryUsage_wf a :
  wf a →
  ApproximateMemoryUsage a =
  blocks_memory_ a + blocks_capacity a * sizeof_char_ptr - alloc_bytes_remaining_ a.
Proof.
  intros [Hr Hc Ht]. unfold ApproximateMemoryUsage, sizeof_char_ptr in *.
  rewrite (size_t_id (_ * 8)) by (unfold is_size_t; lia).
  rewrite (size_t_id (_ + _)) by (unfold is_size_t; lia).
  apply size_t_id. unfold is_size_t. lia.
Qed.

(** An arena right after construction ([arena.cc] is not among the
    sources; the header's member initialisers and the inline block give
    this state for [inline_block_] at address [base]). *)
Definition fresh (block_size : Z) (base : char_ptr) : Arena := {|
  kBlockSize := block_size;
  blocks_ := [];
  blocks_capacity := 0;
  huge_blocks_ := [];
  irregular_block_num := 0;
  unaligned_alloc_ptr_ := base + kInlineSize;
  aligned_alloc_ptr_ := base;
  alloc_bytes_remaining_ := kInlineSize;
  blocks_memory_ := kInlineSize |}.

(** C10. [Arena::Allocate] asserts [bytes > 0], so a zero-byte request
    fails the assertion; and every request with
    [0 < bytes <= alloc_bytes_remaining_] is served from the active block,
    in debug and in release builds alike: the result is the unaligned bump
    pointer moved down by [bytes], [alloc_bytes_remaining_] decreases by
    exactly [bytes], no block is allocated ([AllocateFallback] is not
    consulted, [blocks_] and [blocks_memory_] are unchanged), and
    [ApproximateMemoryUsage] grows by exactly [bytes]. *)
Theorem Allocate_within_remaining
    (build : Build) (fallback : Z → bool → Arena → Res (char_ptr * Arena))
    (a : Arena) (bytes : Z) :
  @Allocate debug fallback 0 a = Err AssertionFailed ∧
  (wf a →
   0 < bytes ≤ alloc_bytes_remaining_ a →
   ∃ a',
    @Allocate build fallback bytes a = Ok (unaligned_alloc_ptr_ a - bytes, a') ∧
    unaligned_alloc_ptr_ a' = unaligned_alloc_ptr_ a - bytes ∧
    alloc_bytes_remaining_ a' = alloc_bytes_remaining_ a - bytes ∧
    blocks_ a' = blocks_ a ∧
    blocks_capacity a' = blocks_capacity a ∧
    blocks_memory_ a' = blocks_memory_ a ∧
    irregular_block_num a' = irregular_block_num a ∧
    wf a' ∧
    ApproximateMemoryUsage a' = ApproximateMemoryUsage a + bytes).
Proof.
  split; [reflexivity|]. intros Hwf Hb.
  assert (Hrem : size_t (alloc_bytes_remaining_ a - bytes)
                 = alloc_bytes_remaining_ a - bytes).
  { apply size_t_id. destruct Hwf as [Hr Hc Ht].
    unfold is_size_t, sizeof_char_ptr in *. lia. }
  eexists. split.
  - unfold Allocate, assert.
    rewrite (bool_decide_eq_true_2 (0 < bytes)) by lia.
    rewrite orb_true_r. cbn.
    rewrite bool_decide_eq_true_2 by lia. reflexivity.
  - cbn. rewrite Hrem.
    assert (Hwf' : wf {|
        kBlockSize := kBlockSize a;
        blocks_ := blocks_ a;
        blocks_capacity := blocks_capacity a;
        huge_blocks_ := huge_blocks_ a;
        irregular_block_num := irregular_block_num a;
        unaligned_alloc_ptr_ := unaligned_alloc_ptr_ a - bytes;
        aligned_alloc_ptr_ := aligned_alloc_ptr_ a;
        alloc_bytes_remaining_ := alloc_bytes_remaining_ a - bytes;
        blocks_memory_ := blocks_memory_ a |}).
    { destruct Hwf as [Hr Hc Ht]. split; cbn; lia. }
    split_and!; try reflexivity; try exact Hwf'.
    rewrite !ApproximateMemoryUsage_wf by assumption. cbn. lia.
Qed.

(** The first allocation of a fresh arena is served from the inline block. *)
Lemma Allocate_within_remaining_witness :
  wf (fresh 4096 1000) ∧
  0 < 100 ≤ alloc_bytes_remaining_ (fresh 4096 1000) ∧
  ∃ a', @Allocate release (fun _ _ _ => Err InvalidDeref) 100 (fresh 4096 1000)
        = Ok (2948, a') ∧
        ApproximateMemoryUsage a' = ApproximateMemoryUsage (fresh 4096 1000) + 100.
Proof.
  assert (Hwf : wf (fresh 4096 1000)).
  { split; cbn; unfold kInlineSize, sizeof_char_ptr; lia. }
  assert (Hb : 0 < 100 ≤ alloc_bytes_remaining_ (fresh 4096 1000)).
  { cbn. unfold kInlineSize. lia. }
  split; [exact Hwf|]. split; [exact Hb|].
  destruct (Allocate_within_remaining release (fun _ _ _ => Err InvalidDeref)
              (fresh 4096 1000) 100) as [_ Hfast].
  destruct (Hfast Hwf Hb) as (a' & Ha & _ & _ & _ & _ & _ & _ & _ & Hu).
  exists a'. split; [exact Ha | exact Hu].
Defined.

(** ** Sequences of allocations *)

(** [Allocate] called for each of the sizes in turn; the pointers are
    returned in the order of the calls. *)
Fixpoint Allocate_each `{Build}
    (AllocateFallback : Z → bool → Arena → Res (char_ptr * Arena))
    (sizes : list Z) (a : Arena) : Res (list char_ptr * Arena) :=
  match sizes with
  | [] => Ok ([], a)
  | bytes :: rest =>
      '(p, a1) ← Allocate AllocateFallback bytes a;
      '(ps, a2) ← Allocate_each AllocateFallback rest a1;
      Ok (p :: ps, a2)
  end.

Definition total (sizes : list Z) : Z := foldr Z.add 0 sizes.

(** The pointers handed out from [p] downwards. *)
Fixpoint bumped (p : char_ptr) (sizes : list Z) : list char_ptr :=
  match sizes with
  | [] => []
  | bytes :: rest => (p - bytes) :: bumped (p - bytes) rest
  end.

Lemma total_nonneg sizes : Forall (λ b, 0 < b) sizes → 0 ≤ total sizes.
Proof. induction 1; cbn; [done|fold (total l); lia]. Qed.

Lemma bumped_length p sizes : length (bumped p sizes) = length sizes.
Proof. revert p. induction sizes; intros p; cbn; [done|by f_equal]. Qed.

Lemma bumped_bounds sizes : ∀ p i q b,
  Forall (λ b, 0 < b) sizes →
  bumped p sizes !! i = Some q → sizes !! i = Some b →
  p - total sizes ≤ q ∧ q + b ≤ p.
Proof.
  induction sizes as [|b0 sizes IH]; intros p i q b Hpos Hq Hb; [done|].
  apply Forall_cons in Hpos as [Hb0 Hpos].
  pose proof (total_nonneg sizes Hpos) as Hnn.
  cbn [total foldr]. fold (total sizes).
  destruct i as [|i]; cbn in Hq, Hb.
  - injection Hq as <-. injection Hb as <-. lia.
  - destruct (IH (p - b0) i q b Hpos Hq Hb). lia.
Qed.

Lemma bumped_disjoint sizes : ∀ p i j qi qj bj,
  Forall (λ b, 0 < b) sizes → (i < j)%nat →
  bumped p sizes !! i = Some qi → bumped p sizes !! j = Some qj →
  sizes !! j = Some bj →
  qj + bj ≤ qi.
Proof.
  induction sizes as [|b0 sizes IH]; intros p i j qi qj bj Hpos Hij Hi Hj Hb;
    [done|].
  apply Forall_cons in Hpos as [Hb0 Hpos].
  destruct j as [|j]; [lia|]. cbn in Hj, Hb.
  destruct i as [|i]; cbn in Hi.
  - injection Hi as <-.
    destruct (bumped_bounds sizes (p - b0) j qj bj Hpos Hj Hb). lia.
  - apply (IH (p - b0) i j qi qj bj); [done|lia|done..].
Qed.

Lemma Allocate_fast `{Build} fallback a bytes :
  wf a → 0 < bytes ≤ alloc_bytes_remaining_ a →
  ∃ a', Allocate fallback bytes a = Ok (unaligned_alloc_ptr_ a - bytes, a') ∧
    unaligned_alloc_ptr_ a' = unaligned_alloc_ptr_ a - bytes ∧
    alloc_bytes_remaining_ a' = alloc_bytes_remaining_ a - bytes ∧
    aligned_alloc_ptr_ a' = aligned_alloc_ptr_ a ∧
    blocks_ a' = blocks_ a ∧
    blocks_capacity a' = blocks_capacity a ∧
    blocks_memory_ a' = blocks_memory_ a ∧
    wf a'.
Proof.
  intros Hwf Hb.
  assert (Hrem : size_t (alloc_bytes_remaining_ a - bytes)
                 = alloc_bytes_remaining_ a - bytes).
  { apply size_t_id. destruct Hwf as [Hr Hc Ht].
    unfold is_size_t, sizeof_char_ptr in *. lia. }
  eexists. split.
  - unfold Allocate, assert.
    rewrite (bool_decide_eq_true_2 (0 < bytes)) by lia.
    rewrite orb_true_r. cbn.
    rewrite bool_decide_eq_true_2 by lia. reflexivity.
  - cbn. rewrite Hrem. split_and!; try reflexivity.
    destruct Hwf as [Hr Hc Ht]. split; cbn; lia.
Qed.

Lemma Allocate_each_spec `{Build} fallback sizes : ∀ a,
  wf a → Forall (λ b, 0 < b) sizes → total sizes ≤ alloc_bytes_remaining_ a →
  ∃ a', Allocate_each fallback sizes a
        = Ok (bumped (unaligned_alloc_ptr_ a) sizes, a') ∧
    unaligned_alloc_ptr_ a' = unaligned_alloc_ptr_ a - total sizes ∧
    alloc_bytes_remaining_ a' = alloc_bytes_remaining_ a - total sizes ∧
    aligned_alloc_ptr_ a' = aligned_alloc_ptr_ a ∧
    blocks_ a' = blocks_ a ∧
    blocks_capacity a' = blocks_capacity a ∧
    blocks_memory_ a' = blocks_memory_ a ∧
    wf a'.
Proof.
  induction sizes as [|b sizes IH]; intros a Hwf Hpos Hsum.
  - exists a. cbn. split_and!; try done; lia.
  - apply Forall_cons in Hpos as [Hb Hpos].
    pose proof (total_nonneg sizes Hpos) as Hnn.
    cbn [total foldr] in Hsum. fold (total sizes) in Hsum.
    destruct (Allocate_fast fallback a b Hwf ltac:(lia))
      as (a1 & Hrun1 & Hp1 & Hr1 & Hal1 & Hb1 & Hc1 & Hm1 & Hwf1).
    destruct (IH a1 Hwf1 Hpos ltac:(lia))
      as (a2 & Hrun2 & Hp2 & Hr2 & Hal2 & Hb2 & Hc2 & Hm2 & Hwf2).
    exists a2. split.
    + cbn [Allocate_each]. rewrite Hrun1, bind_Ok. cbv beta iota.
      rewrite Hrun2, bind_Ok. cbv beta iota. rewrite Hp1. reflexivity.
    + cbn [total foldr]. fold (total sizes).
      split_and!; try congruence; try done; lia.
Qed.

(** Allocations served from the active block do not overlap.  When the
    sizes are positive and together at most [alloc_bytes_remaining_], every
    call of [Allocate] is served in place; the regions returned lie in the
    bytes that were free, each one directly below the one before, so no two
    of them share a byte; what remains is the free bytes minus the total,
    and [ApproximateMemoryUsage] grows by the total. *)
Theorem Allocate_each_disjoint
    (build : Build) (fallback : Z → bool → Arena → Res (char_ptr * Arena))
    (sizes : list Z) (a : Arena) :
  wf a →
  Forall (λ b, 0 < b) sizes →
  total sizes ≤ alloc_bytes_remaining_ a →
  ∃ ps a', Allocate_each fallback sizes a = Ok (ps, a') ∧
    length ps = length sizes ∧
    (∀ i p b, ps !! i = Some p → sizes !! i = Some b →
       unaligned_alloc_ptr_ a - alloc_bytes_remaining_ a ≤ p ∧
       p + b ≤ unaligned_alloc_ptr_ a) ∧
    (∀ i j pi pj bj, (i < j)%nat →
       ps !! i = Some pi → ps !! j = Some pj → sizes !! j = Some bj →
       pj + bj ≤ pi) ∧
    alloc_bytes_remaining_ a' = alloc_bytes_remaining_ a - total sizes ∧
    unaligned_alloc_ptr_ a' - alloc_bytes_remaining_ a'
      = unaligned_alloc_ptr_ a - alloc_bytes_remaining_ a ∧
    blocks_ a' = blocks_ a ∧
    ApproximateMemoryUsage a' = ApproximateMemoryUsage a + total sizes.
Proof.
  intros Hwf Hpos Hsum.
  destruct (Allocate_each_spec fallback sizes a Hwf Hpos Hsum)
    as (a' & Hrun & Hp & Hr & _ & Hb & Hc & Hm & Hwf').
  exists (bumped (unaligned_alloc_ptr_ a) sizes), a'.
  split; [exact Hrun|]. split_and!.
  - apply bumped_length.
  - intros i p b Hi Hbi.
    destruct (bumped_bounds sizes _ i p b Hpos Hi Hbi). lia.
  - intros i j pi pj bj. by apply bumped_disjoint.
  - exact Hr.
  - lia.
  - exact Hb.
  - rewrite !ApproximateMemoryUsage_wf by assumption. lia.
Qed.

(** Three allocations from the inline block of a fresh arena. *)
Lemma Allocate_each_disjoint_witness :
  ∃ a', @Allocate_each release (fun _ _ _ => Err InvalidDeref) [100; 48; 1900]
          (fresh 4096 1000) = Ok ([2948; 2900; 1000], a') ∧
        alloc_bytes_remaining_ a' = 0.
Proof.
  assert (Hwf : wf (fresh 4096 1000)).
  { split; cbn; unfold kInlineSize, sizeof_char_ptr; lia. }
  destruct (Allocate_each_disjoint release (fun _ _ _ => Err InvalidDeref)
              [100; 48; 1900] (fresh 4096 1000) Hwf)
    as (ps & a' & Hrun & _ & _ & _ & Hr & _).
  - repeat (apply Forall_cons; split; [lia|]). apply Forall_nil_2.
  - cbn. unfold kInlineSize. lia.
  - exists a'. split; [|exact Hr].
    rewrite Hrun. f_equal. f_equal.
    cbn in Hrun. injection Hrun as <- _. reflexivity.
Defined.

(** A request of zero bytes with assertions compiled out is served in place
    whatever is left, also from an exhausted block: the result is the bump
    pointer as it is, which is the address the allocation before it
    returned, and the arena does not change; the fallback is not consulted. *)
Theorem Allocate_zero_bytes_release
    (fallback : Z → bool → Arena → Res (char_ptr * Arena)) (a : Arena) :
  0 ≤ alloc_bytes_remaining_ a < 2 ^ 64 →
  @Allocate release fallback 0 a = Ok (unaligned_alloc_ptr_ a, a).
Proof.
  intros Hr. unfold Allocate.
  change (assert (bool_decide (0 < 0))) with (Ok tt : Res unit).
  rewrite bind_Ok.
  rewrite bool_decide_eq_true_2 by lia.
  rewrite !Z.sub_0_r, size_t_id by (unfold is_size_t; lia).
  by destruct a.
Qed.

Lemma Allocate_zero_bytes_release_witness :
  ∃ a1, @Allocate release (fun _ _ _ => Err InvalidDeref) 2048 (fresh 4096 1000)
        = Ok (1000, a1) ∧
    @Allocate release (fun _ _ _ => Err InvalidDeref) 0 a1 = Ok (1000, a1).
Proof.
  eexists. split; [reflexivity|].
  apply (Allocate_zero_bytes_release (fun _ _ _ => Err InvalidDeref)).
  vm_compute. split; [discriminate|reflexivity].
Defined.

End Arena.

(* ===================================================================== *)
(** * table/block.h: the block iterators *)
(* ===================================================================== *)

Module BlockIter.

(** [rocksdb::Slice]: a pointer and a length. *)
Record Slice := { data : char_ptr; size : Z }.

(** [IterKey], as far as the iterators of [block.h] use it: the bytes of
    the current key and whether they are a user key. *)
Record IterKey := { key_bytes : list Byte.byte; is_user_key : bool }.

Definition IterKey_Clear (k : IterKey) : IterKey :=
  {| key_bytes := []; is_user_key := is_user_key k |}.

Definition IterKey_SetIsUserKey (b : bool) (k : IterKey) : IterKey :=
  {| key_bytes := key_bytes k; is_user_key := b |}.

(** The data members of [BlockIter<TValue>]. *)
Record BlockIter := {
  comparator_ : Z;
  data_ : char_ptr;
  num_restarts_ : Z;
  restart_index_ : Z;
  restarts_ : Z;
  current_ : Z;
  key_ : IterKey;
  value_ : Slice;
  status_ : Status;
  key_pinned_ : bool;
  block_contents_pinned_ : bool;
  global_seqno_ : Z
}.

(** A value-initialised iterator, as the constructors [DataBlockIter()] and
    [IndexBlockIter()] leave the base class. *)
Definition BlockIter_default : BlockIter := {|
  comparator_ := 0; data_ := 0; num_restarts_ := 0; restart_index_ := 0;
  restarts_ := 0; current_ := 0;
  key_ := {| key_bytes := []; is_user_key := false |};
  value_ := {| data := 0; size := 0 |};
  status_ := StatusOK; key_pinned_ := false;
  block_contents_pinned_ := false; global_seqno_ := 0 |}.

Definition Valid (it : BlockIter) : bool :=
  bool_decide (current_ it < restarts_ it).

Definition status (it : BlockIter) : Status := status_ it.

Definition NextEntryOffset (it : BlockIter) : Z :=
  uint32_t (data (value_ it) + size (value_ it) - data_ it).

Definition ValueOffset (it : BlockIter) : Z :=
  uint32_t (data (value_ it) - data_ it).

Definition IsKeyPinned (it : BlockIter) : bool :=
  block_contents_pinned_ it && key_pinned_ it.

Definition IsValuePinned (it : BlockIter) : bool := block_contents_pinned_ it.

Section Operations.
Context `{Build}.

(** The address of the empty string literal that [Slice::clear] stores. *)
Variable empty_literal : char_ptr.

Definition Slice_clear (s : Slice) : Slice :=
  {| data := empty_literal; size := 0 |}.

Definition InitializeBase (comparator : Z) (data : char_ptr)
    (restarts num_restarts : Z) (global_seqno : Z)
    (block_contents_pinned : bool) (it : BlockIter) : Res BlockIter :=
  _ ← assert (bool_decide (data_ it = 0));
  _ ← assert (bool_decide (0 < num_restarts));
  Ok {| comparator_ := comparator;
        data_ := data;
        num_restarts_ := num_restarts;
        restart_index_ := num_restarts;
        restarts_ := restarts;
        current_ := restarts;
        key_ := key_ it;
        value_ := value_ it;
        status_ := status_ it;
        key_pinned_ := key_pinned_ it;
        block_contents_pinned_ := block_contents_pinned;
        global_seqno_ := global_seqno |}.


(** [IndexBlockIter]: the base iterator and the members the class adds. *)
Record IndexBlockIter := {
  base : BlockIter;
  key_includes_seq_ : bool;
  value_delta_encoded_ : bool;
  prefix_index_ : Z;
  decoded_value_ : Z * Z
}.

(** [kDisableGlobalSequenceNumber] is [port::kMaxUint64] ([dbformat.h]). *)
Definition kDisableGlobalSequenceNumber : Z := 2 ^ 64 - 1.

Definition IndexBlockIter_Initialize (comparator user_comparator : Z)
    (data : char_ptr) (restarts num_restarts : Z) (prefix_index : Z)
    (key_includes_seq value_is_full block_contents_pinned : bool)
    (it : IndexBlockIter) : Res IndexBlockIter :=
  b ← InitializeBase (if key_includes_seq then comparator else user_comparator)
        data restarts num_restarts kDisableGlobalSequenceNumber
        block_contents_pinned (base it);
  Ok {| base := {| comparator_ := comparator_ b; data_ := data_ b;
                   num_restarts_ := num_restarts_ b;
                   restart_index_ := restart_index_ b;
                   restarts_ := restarts_ b; current_ := current_ b;
                   key_ := IterKey_SetIsUserKey (negb key_includes_seq) (key_ b);
                   value_ := value_ b; status_ := status_ b;
                   key_pinned_ := key_pinned_ b;
                   block_contents_pinned_ := block_contents_pinned_ b;
                   global_seqno_ := global_seqno_ b |};
        key_includes_seq_ := key_includes_seq;
        value_delta_encoded_ := negb value_is_full;
        prefix_index_ := prefix_index;
        decoded_value_ := decoded_value_ it |}.

Definition SeekForPrev_message : string :=
  "RocksDB internal error: should never call SeekForPrev() on index blocks".

Definition IndexBlockIter_SeekForPrev (target : Slice) (it : IndexBlockIter)
    : Res IndexBlockIter :=
  _ ← assert false;
  let b := base it in
  Ok {| base := {| comparator_ := comparator_ b; data_ := data_ b;
                   num_restarts_ := num_restarts_ b;
                   restart_index_ := num_restarts_ b;
                   restarts_ := restarts_ b;
                   current_ := restarts_ b;
                   key_ := IterKey_Clear (key_ b);
                   value_ := Slice_clear (value_ b);
                   status_ := InvalidArgument SeekForPrev_message;
                   key_pinned_ := key_pinned_ b;
                   block_contents_pinned_ := block_contents_pinned_ b;
                   global_seqno_ := global_seqno_ b |};
        key_includes_seq_ := key_includes_seq_ it;
        value_delta_encoded_ := value_delta_encoded_ it;
        prefix_index_ := prefix_index_ it;
        decoded_value_ := decoded_value_ it |}.

End Operations.

(** C8. [Valid()] holds exactly when the offset of the current entry is
    strictly below the offset of the restart array; [InitializeBase], called
    on an iterator that was not initialised before and with at least one
    restart point, succeeds and leaves [current_] equal to [restarts_], so
    the iterator it returns is not valid. *)
Theorem Valid_iff_and_fresh_invalid
    (build : Build) (it it0 : BlockIter) (comparator : Z) (block : char_ptr)
    (restarts num_restarts global_seqno : Z) (pinned : bool) :
  (Valid it = true ↔ current_ it < restarts_ it) ∧
  (data_ it0 = 0 →
   0 < num_restarts →
   ∃ it', InitializeBase comparator block restarts num_restarts global_seqno
            pinned it0 = Ok it' ∧
          current_ it' = restarts ∧ restarts_ it' = restarts ∧
          restart_index_ it' = num_restarts ∧
          Valid it' = false).
Proof.
  split.
  - unfold Valid. apply bool_decide_eq_true.
  - intros Hdata Hn. unfold InitializeBase, assert.
    rewrite (bool_decide_eq_true_2 (data_ it0 = 0)) by assumption.
    rewrite (bool_decide_eq_true_2 (0 < num_restarts)) by assumption.
    rewrite orb_true_r. cbn. eexists. split; [reflexivity|]. cbn.
    split_and!; try reflexivity.
    unfold Valid. cbn. apply bool_decide_eq_false. lia.
Qed.

(** A block whose restart array starts at offset 93 and has one entry. *)
Lemma Valid_iff_and_fresh_invalid_witness :
  ∃ it', @InitializeBase debug 7 4096 93 1 0 false BlockIter_default = Ok it' ∧
         current_ it' = 93 ∧ Valid it' = false.
Proof.
  destruct (Valid_iff_and_fresh_invalid debug BlockIter_default
              BlockIter_default 7 4096 93 1 0 false) as [_ Hinit].
  destruct (Hinit eq_refl ltac:(lia)) as (it' & Hi & Hc & _ & _ & Hv).
  exists it'. split_and!; assumption.
Defined.

(** C9. [IndexBlockIter::SeekForPrev] rejects every target.  The function
    starts with [assert(false)], so with assertions compiled in the call
    aborts; with assertions compiled out ([NDEBUG]) it returns with
    [current_] set to [restarts_] (so [Valid()] is false), [restart_index_]
    set to [num_restarts_], the status [InvalidArgument], and key and value
    cleared. *)
Theorem IndexBlockIter_SeekForPrev_rejects
    (empty_literal : char_ptr) (target : Slice) (it : IndexBlockIter) :
  @IndexBlockIter_SeekForPrev debug empty_literal target it
    = Err AssertionFailed ∧
  ∃ it', @IndexBlockIter_SeekForPrev release empty_literal target it = Ok it' ∧
         current_ (base it') = restarts_ (base it') ∧
         restarts_ (base it') = restarts_ (base it) ∧
         Valid (base it') = false ∧
         restart_index_ (base it') = num_restarts_ (base it) ∧
         status (base it') = InvalidArgument SeekForPrev_message ∧
         ok (status (base it')) = false ∧
         key_bytes (key_ (base it')) = [] ∧
         size (value_ (base it')) = 0.
Proof.
  split; [reflexivity|].
  eexists. split; [reflexivity|]. cbn.
  split_and!; try reflexivity.
  unfold Valid. cbn. apply bool_decide_eq_false. lia.
Qed.

(** ** Restart points *)

Section Restarts.
Context `{Build}.

(** [DecodeFixed32] ([util/coding.h]) reads the 32-bit value stored at an
    address; the bytes of the block are not part of the iterator, so the
    function is a parameter here. *)
Variable DecodeFixed32 : char_ptr → Z.

Definition sizeof_uint32_t : Z := 4.

Definition GetRestartPoint (index : Z) (it : BlockIter) : Res Z :=
  _ ← assert (bool_decide (index < num_restarts_ it));
  Ok (DecodeFixed32
        (data_ it + restarts_ it + size_t (index * sizeof_uint32_t))).

Definition SeekToRestartPoint (index : Z) (it : BlockIter) : Res BlockIter :=
  offset ← GetRestartPoint index it;
  Ok {| comparator_ := comparator_ it;
        data_ := data_ it;
        num_restarts_ := num_restarts_ it;
        restart_index_ := index;
        restarts_ := restarts_ it;
        current_ := current_ it;
        key_ := IterKey_Clear (key_ it);
        value_ := {| data := data_ it + offset; size := 0 |};
        status_ := status_ it;
        key_pinned_ := key_pinned_ it;
        block_contents_pinned_ := block_contents_pinned_ it;
        global_seqno_ := global_seqno_ it |}.

End Restarts.

(** [SeekToRestartPoint] prepares the iterator for parsing the entry at a
    restart point.  For an index below [num_restarts_] it returns in every
    build; afterwards [NextEntryOffset], where the parser starts, and
    [ValueOffset] are the offset stored in the restart array at that index,
    the value is empty, the key is cleared and [restart_index_] is the
    index.  [current_] is not touched, so [Valid] answers as before.  With
    assertions compiled in, an index that is not below [num_restarts_]
    aborts. *)
Theorem SeekToRestartPoint_sets_next_entry
    (build : Build) (DecodeFixed32 : char_ptr → Z) (index : Z) (it : BlockIter) :
  (num_restarts_ it ≤ index →
   @SeekToRestartPoint debug DecodeFixed32 index it = Err AssertionFailed) ∧
  (0 ≤ index < num_restarts_ it →
   num_restarts_ it < 2 ^ 32 →
   is_uint32 (DecodeFixed32 (data_ it + restarts_ it + 4 * index)) →
   ∃ it', SeekToRestartPoint DecodeFixed32 index it = Ok it' ∧
     NextEntryOffset it'
       = DecodeFixed32 (data_ it + restarts_ it + 4 * index) ∧
     ValueOffset it' = NextEntryOffset it' ∧
     size (value_ it') = 0 ∧
     key_bytes (key_ it') = [] ∧
     restart_index_ it' = index ∧
     current_ it' = current_ it ∧
     Valid it' = Valid it).
Proof.
  split.
  - intros Hge. unfold SeekToRestartPoint, GetRestartPoint, assert.
    rewrite bool_decide_eq_false_2 by lia. reflexivity.
  - intros Hidx Hn Hoff.
    assert (size_t (index * sizeof_uint32_t) = 4 * index) as Hsz.
    { unfold sizeof_uint32_t. rewrite size_t_id; [lia|].
      unfold is_size_t. lia. }
    unfold SeekToRestartPoint, GetRestartPoint.
    rewrite (bool_decide_eq_true_2 (index < num_restarts_ it)) by lia.
    rewrite assert_true, !bind_Ok, Hsz.
    eexists. split; [reflexivity|].
    unfold NextEntryOffset, ValueOffset, Valid. cbn.
    set (offset := DecodeFixed32 _) in *.
    replace (data_ it + offset + 0 - data_ it) with offset by lia.
    replace (data_ it + offset - data_ it) with offset by lia.
    rewrite (uint32_t_id offset) by done. done.
Qed.

(** A block at address 4096 with the restart array at offset 93; the first
    restart point is stored as 0 and the second as 40. *)
Lemma SeekToRestartPoint_sets_next_entry_witness :
  ∃ it', @SeekToRestartPoint release
           (λ p, if bool_decide (p = 4096 + 93 + 4) then 40 else 0) 1
           {| comparator_ := 7; data_ := 4096; num_restarts_ := 2;
              restart_index_ := 2; restarts_ := 93; current_ := 93;
              key_ := {| key_bytes := []; is_user_key := false |};
              value_ := {| data := 0; size := 0 |};
              status_ := StatusOK; key_pinned_ := false;
              block_contents_pinned_ := false; global_seqno_ := 0 |}
         = Ok it' ∧
         NextEntryOffset it' = 40.
Proof.
  destruct (SeekToRestartPoint_sets_next_entry release
              (λ p, if bool_decide (p = 4096 + 93 + 4) then 40 else 0) 1
              {| comparator_ := 7; data_ := 4096; num_restarts_ := 2;
                 restart_index_ := 2; restarts_ := 93; current_ := 93;
                 key_ := {| key_bytes := []; is_user_key := false |};
                 value_ := {| data := 0; size := 0 |};
                 status_ := StatusOK; key_pinned_ := false;
                 block_contents_pinned_ := false; global_seqno_ := 0 |})
    as [_ Hseek].
  destruct Hseek as (it' & Hrun & Hnext & _).
  - cbn. lia.
  - cbn. lia.
  - vm_compute. split; [discriminate|reflexivity].
  - exists it'. split; [exact Hrun|]. rewrite Hnext. reflexivity.
Defined.



End BlockIter.

(* ===================================================================== *)
(** * db/log_format.h: the WAL record format *)
(* ===================================================================== *)

Module log.

Inductive RecordType :=
  | kZeroType
  | kFullType
  | kFirstType
  | kMiddleType
  | kLastType
  | kRecyclableFullType
  | kRecyclableFirstType
  | kRecyclableMiddleType
  | kRecyclableLastType.

#[global] Instance RecordType_eq_dec : EqDecision RecordType.
Proof. solve_decision. Defined.

(** The enumerators' values. *)
Definition RecordType_value (t : RecordType) : Z :=
  match t with
  | kZeroType => 0
  | kFullType => 1
  | kFirstType => 2
  | kMiddleType => 3
  | kLastType => 4
  | kRecyclableFullType => 5
  | kRecyclableFirstType => 6
  | kRecyclableMiddleType => 7
  | kRecyclableLastType => 8
  end.

Definition kMaxRecordType : Z := RecordType_value kRecyclableLastType.
Definition kBlockSize : Z := 32768.
Definition kHeaderSize : Z := 4 + 2 + 1.
Definition kRecyclableHeaderSize : Z := 4 + 2 + 1 + 4.

(** What the framer hands to the file sink: zero padding at the end of a
    block, or one physical record (its header is derived from the type and
    the payload). *)
Inductive Emitted :=
  | Padding (n : Z)
  | Physical (type : RecordType) (payload : list Byte.byte).

(** The layout of an emitted item: its kind and its payload length. *)
Inductive Frame :=
  | Pad (n : Z)
  | Rec (type : RecordType) (length : Z).

Definition frame_of (e : Emitted) : Frame :=
  match e with
  | Padding n => Pad n
  | Physical t p => Rec t (Z.of_nat (length p))
  end.

Definition payload_of (e : Emitted) : list Byte.byte :=
  match e with
  | Padding _ => []
  | Physical _ p => p
  end.

Definition header_size_of (recycle : bool) : Z :=
  if recycle then kRecyclableHeaderSize else kHeaderSize.

Definition is_recyclable (t : RecordType) : bool :=
  bool_decide (RecordType_value kRecyclableFullType ≤ RecordType_value t).

Definition frame_bytes (f : Frame) : Z :=
  match f with
  | Pad n => n
  | Rec t len => header_size_of (is_recyclable t) + len
  end.

Definition on_disk_size (out : list Emitted) : Z :=
  foldr (fun e acc => frame_bytes (frame_of e) + acc) 0 out.

(** Modelled from the spec: the writer that fragments a user record
    ([log::Writer::AddRecord] of [db/log_writer.cc], which is not among the
    sources; [log_format.h] only has the constants and [RecordType]).  The
    steps are those of the append algorithm: the space left in the block is
    [block_size - block_offset]; with less than a header left the rest of
    the block is zero-padded and a new block starts; one physical record of
    payload length [min(L, space_left - header_size)] is emitted, whose type
    is chosen by position (first chunk with bytes remaining: FIRST; first
    chunk that holds everything: FULL; interior: MIDDLE; final: LAST, and
    the recyclable counterparts in recyclable mode); this repeats until the
    payload is consumed. *)
Definition choose_type (recycle begin end_ : bool) : RecordType :=
  match begin, end_ with
  | true, true => if recycle then kRecyclableFullType else kFullType
  | true, false => if recycle then kRecyclableFirstType else kFirstType
  | false, true => if recycle then kRecyclableLastType else kLastType
  | false, false => if recycle then kRecyclableMiddleType else kMiddleType
  end.

(** Modelled from the spec: step 2 of the append algorithm, the padding
    emitted before a record and the block offset the record starts at. *)
Definition switch_block (recycle : bool) (block_offset : Z) : list Emitted * Z :=
  let space_left := kBlockSize - block_offset in
  if bool_decide (space_left < header_size_of recycle) then
    (if bool_decide (0 < space_left) then [Padding space_left] else [], 0)
  else ([], block_offset).

(** Modelled from the spec: steps 1 to 5 of the append algorithm, one loop
    iteration per physical record. *)
Fixpoint AddRecord_loop (fuel : nat) (recycle begin : bool)
    (P : list Byte.byte) (block_offset : Z) : Res (list Emitted * Z) :=
  match fuel with
  | O => Err OutOfFuel
  | S fuel' =>
      let '(pad, block_offset) := switch_block recycle block_offset in
      let avail := kBlockSize - block_offset - header_size_of recycle in
      let left := Z.of_nat (length P) in
      let fragment_length := Z.min left avail in
      let end_ := bool_decide (left = fragment_length) in
      let type := choose_type recycle begin end_ in
      let fragment := take (Z.to_nat fragment_length) P in
      let block_offset := block_offset + header_size_of recycle + fragment_length in
      if end_ then Ok (pad ++ [Physical type fragment], block_offset)
      else
        '(out, final_offset) ←
          AddRecord_loop fuel' recycle false
            (drop (Z.to_nat fragment_length) P) block_offset;
        Ok (pad ++ Physical type fragment :: out, final_offset)
  end.

(** Modelled from the spec: the state of the framer, the offset in the
    current block and the header mode. *)
Record Writer := { block_offset_ : Z; recycle_log_files_ : bool }.

(** Two iterations per payload byte and two more always suffice
    ([AddRecord_total]). *)
Definition AddRecord_fuel (L : Z) : nat := Z.to_nat (2 * L + 2).

(** Modelled from the spec: the append operation on a writer. *)
Definition AddRecord (P : list Byte.byte) (w : Writer) : Res (list Emitted * Writer) :=
  '(out, final_offset) ←
    AddRecord_loop (AddRecord_fuel (Z.of_nat (length P))) (recycle_log_files_ w)
      true P (block_offset_ w);
  Ok (out, {| block_offset_ := final_offset;
              recycle_log_files_ := recycle_log_files_ w |}).

(** The layout of the records of a payload depends only on its length: the
    same loop on lengths. *)
Fixpoint layout_loop (fuel : nat) (recycle begin : bool)
    (left : Z) (block_offset : Z) : Res (list Frame * Z) :=
  match fuel with
  | O => Err OutOfFuel
  | S fuel' =>
      let '(pad, block_offset) := switch_block recycle block_offset in
      let avail := kBlockSize - block_offset - header_size_of recycle in
      let fragment_length := Z.min left avail in
      let end_ := bool_decide (left = fragment_length) in
      let type := choose_type recycle begin end_ in
      let block_offset := block_offset + header_size_of recycle + fragment_length in
      if end_ then Ok ((frame_of <$> pad) ++ [Rec type fragment_length], block_offset)
      else
        '(out, final_offset) ←
          layout_loop fuel' recycle false (left - fragment_length) block_offset;
        Ok ((frame_of <$> pad) ++ Rec type fragment_length :: out, final_offset)
  end.

Lemma switch_block_offset recycle bo pad bo' :
  0 ≤ bo ≤ kBlockSize →
  switch_block recycle bo = (pad, bo') →
  0 ≤ bo' ∧ bo' + header_size_of recycle ≤ kBlockSize.
Proof.
  unfold switch_block. intros Hbo.
  case_bool_decide as Hs; intros [= <- <-].
  - destruct recycle; vm_compute; split; discriminate.
  - lia.
Qed.

Lemma AddRecord_loop_layout fuel recycle begin P bo :
  0 ≤ bo ≤ kBlockSize →
  layout_loop fuel recycle begin (Z.of_nat (length P)) bo
  = match AddRecord_loop fuel recycle begin P bo with
    | Ok (out, final_offset) => Ok (frame_of <$> out, final_offset)
    | Err e => Err e
    end.
Proof.
  assert (Hhdr : 0 < header_size_of recycle < kBlockSize)
    by (destruct recycle; vm_compute; split; reflexivity).
  revert begin P bo. induction fuel as [|fuel IH]; intros begin P bo Hbo.
  - reflexivity.
  - cbn [AddRecord_loop layout_loop].
    destruct (switch_block recycle bo) as [pad bo'] eqn:Hsw.
    destruct (switch_block_offset _ _ _ _ Hbo Hsw) as [Hbo1 Hbo2].
    set (frag := Z.min (Z.of_nat (length P))
                   (kBlockSize - bo' - header_size_of recycle)).
    assert (Hfrag : 0 ≤ frag ≤ Z.of_nat (length P)) by (unfold frag; lia).
    assert (Hlen : Z.of_nat (length (take (Z.to_nat frag) P)) = frag).
    { rewrite length_take. lia. }
    destruct (bool_decide_reflect (Z.of_nat (length P) = frag)) as [Hend|Hend].
    + rewrite fmap_app. cbn. rewrite Hlen. reflexivity.
    + assert (Hdrop : Z.of_nat (length (drop (Z.to_nat frag) P))
                      = Z.of_nat (length P) - frag).
      { rewrite length_drop. lia. }
      assert (Hbo3 : 0 ≤ bo' + header_size_of recycle + frag ≤ kBlockSize).
      { unfold frag. lia. }
      rewrite <- Hdrop, (IH false (drop (Z.to_nat frag) P) _ Hbo3).
      destruct (AddRecord_loop fuel recycle false _ _) as [[out fo]|e];
        [|reflexivity].
      cbn. rewrite fmap_app. cbn. rewrite Hlen. reflexivity.
Qed.

(** The payloads of the emitted records, in order, are the user payload. *)
Lemma AddRecord_loop_payload fuel recycle begin P bo out fo :
  AddRecord_loop fuel recycle begin P bo = Ok (out, fo) →
  concat (payload_of <$> out) = P.
Proof.
  revert begin P bo out fo.
  induction fuel as [|fuel IH]; intros begin P bo out fo; [discriminate|].
  cbn [AddRecord_loop].
  destruct (switch_block recycle bo) as [pad bo'] eqn:Hsw.
  assert (Hpad : concat (payload_of <$> pad) = []).
  { unfold switch_block in Hsw. repeat case_bool_decide; by injection Hsw as <- <-. }
  set (left := Z.of_nat (length P)).
  set (frag := Z.min left (kBlockSize - bo' - header_size_of recycle)).
  case_bool_decide as Hend.
  - intros [= <- <-]. rewrite fmap_app, concat_app, Hpad. cbn.
    rewrite app_nil_r. apply take_ge. unfold left in Hend. lia.
  - destruct (AddRecord_loop fuel recycle false _ _) as [[out' fo']|e] eqn:Hrec;
      cbn; [|discriminate].
    intros [= <- <-]. rewrite fmap_app, concat_app, Hpad. cbn.
    rewrite (IH _ _ _ _ _ Hrec). apply take_drop.
Qed.

(** Enough fuel always produces a result. *)
Lemma AddRecord_loop_total fuel recycle begin P bo :
  0 ≤ bo ≤ kBlockSize →
  (2 * Z.of_nat (length P)
   + (if bool_decide (bo + header_size_of recycle = kBlockSize) then 1 else 0)
   < Z.of_nat fuel) →
  ∃ r, AddRecord_loop fuel recycle begin P bo = Ok r.
Proof.
  assert (Hhdr : 0 < header_size_of recycle < kBlockSize)
    by (destruct recycle; vm_compute; split; reflexivity).
  revert begin P bo. induction fuel as [|fuel IH]; intros begin P bo Hbo Hfuel.
  - exfalso. case_bool_decide; lia.
  - cbn [AddRecord_loop].
    destruct (switch_block recycle bo) as [pad bo'] eqn:Hsw.
    destruct (switch_block_offset _ _ _ _ Hbo Hsw) as [Hbo1 Hbo2].
    assert (Hbo' : bo' = bo ∨ bo' = 0).
    { unfold switch_block in Hsw. case_bool_decide; injection Hsw as <- <-; auto. }
    set (frag := Z.min (Z.of_nat (length P))
                   (kBlockSize - bo' - header_size_of recycle)).
    destruct (bool_decide_reflect (Z.of_nat (length P) = frag)) as [Hend|Hend];
      [eauto|].
    assert (Hdrop : Z.of_nat (length (drop (Z.to_nat frag) P))
                    = Z.of_nat (length P) - frag).
    { rewrite length_drop. unfold frag in *. lia. }
    destruct (IH false (drop (Z.to_nat frag) P)
                (bo' + header_size_of recycle + frag)) as [[out fo] Hr].
    + unfold frag. lia.
    + rewrite Hdrop. unfold frag in *. repeat case_bool_decide; lia.
    + rewrite Hr. cbn. eauto.
Qed.

Lemma AddRecord_total P w :
  0 ≤ block_offset_ w ≤ kBlockSize →
  ∃ r, AddRecord P w = Ok r.
Proof.
  intros Hbo. unfold AddRecord.
  destruct (AddRecord_loop_total (AddRecord_fuel (Z.of_nat (length P)))
              (recycle_log_files_ w) true P (block_offset_ w) Hbo) as [[out fo] Hr].
  - unfold AddRecord_fuel. case_bool_decide; lia.
  - rewrite Hr. cbn. eauto.
Qed.

(** C4. A payload of 100,000 bytes framed at block offset 0 without
    recycling gives exactly the four physical records FIRST(32761),
    MIDDLE(32761), MIDDLE(32761), LAST(1717), with no padding; they carry
    the payload, and occupy 100,000 + 4 * 7 = 100,028 bytes of the file. *)
Theorem AddRecord_100000_bytes (P : list Byte.byte) :
  Z.of_nat (length P) = 100000 →
  kBlockSize = 32768 ∧ kHeaderSize = 7 ∧
  ∃ out w',
    AddRecord P {| block_offset_ := 0; recycle_log_files_ := false |}
      = Ok (out, w') ∧
    frame_of <$> out
      = [Rec kFirstType 32761; Rec kMiddleType 32761;
         Rec kMiddleType 32761; Rec kLastType 1717] ∧
    concat (payload_of <$> out) = P ∧
    on_disk_size out = 100028 ∧
    on_disk_size out = 100000 + 4 * 7 ∧
    block_offset_ w' = 100028 - 3 * kBlockSize.
Proof.
  intros Hlen. split; [reflexivity|]. split; [reflexivity|].
  assert (Hlayout : layout_loop (AddRecord_fuel 100000) false true 100000 0
            = Ok ([Rec kFirstType 32761; Rec kMiddleType 32761;
                   Rec kMiddleType 32761; Rec kLastType 1717], 1724))
    by (vm_compute; reflexivity).
  unfold AddRecord. cbn [block_offset_ recycle_log_files_].
  rewrite Hlen. rewrite <- Hlen in Hlayout at 2.
  rewrite AddRecord_loop_layout in Hlayout by (vm_compute; split; discriminate).
  destruct (AddRecord_loop (AddRecord_fuel 100000) false true P 0)
    as [[out fo]|e] eqn:Hrun; [|discriminate].
  injection Hlayout as Hout Hfo.
  exists out, {| block_offset_ := fo; recycle_log_files_ := false |}.
  split; [reflexivity|]. split; [exact Hout|].
  split; [exact (AddRecord_loop_payload _ _ _ _ _ _ _ Hrun)|].
  assert (Hsize : on_disk_size out = 100028).
  { unfold on_disk_size.
    rewrite <- (foldr_fmap (λ f acc, frame_bytes f + acc) 0 out frame_of).
    rewrite Hout. reflexivity. }
  split; [exact Hsize|]. split; [rewrite Hsize; reflexivity|].
  cbn. rewrite Hfo. reflexivity.
Qed.

Lemma AddRecord_100000_bytes_witness :
  ∃ out w',
    AddRecord (replicate (Z.to_nat 100000) Byte.x00)
      {| block_offset_ := 0; recycle_log_files_ := false |} = Ok (out, w') ∧
    frame_of <$> out
      = [Rec kFirstType 32761; Rec kMiddleType 32761;
         Rec kMiddleType 32761; Rec kLastType 1717] ∧
    on_disk_size out = 100028.
Proof.
  destruct (AddRecord_100000_bytes (replicate (Z.to_nat 100000) Byte.x00))
    as (_ & _ & out & w' & Hrun & Hout & _ & Hsize & _).
  - rewrite length_replicate. lia.
  - exists out, w'. split_and!; assumption.
Defined.

End log.

(* ===================================================================== *)
(** * table/block.h: the read-amplification bitmap *)
(* ===================================================================== *)

Module BlockReadAmpBitmap.

(** The two tickers of the statistics sink that the bitmap reports to
    ([rocksdb/statistics.h]); [RecordTick] adds to a ticker. *)
Record Statistics := {
  READ_AMP_TOTAL_READ_BYTES : Z;
  READ_AMP_ESTIMATE_USEFUL_BYTES : Z
}.

Definition Statistics_zero : Statistics :=
  {| READ_AMP_TOTAL_READ_BYTES := 0; READ_AMP_ESTIMATE_USEFUL_BYTES := 0 |}.

Definition RecordTick_total (count : Z) (s : Statistics) : Statistics :=
  {| READ_AMP_TOTAL_READ_BYTES := READ_AMP_TOTAL_READ_BYTES s + count;
     READ_AMP_ESTIMATE_USEFUL_BYTES := READ_AMP_ESTIMATE_USEFUL_BYTES s |}.

Definition RecordTick_useful (count : Z) (s : Statistics) : Statistics :=
  {| READ_AMP_TOTAL_READ_BYTES := READ_AMP_TOTAL_READ_BYTES s;
     READ_AMP_ESTIMATE_USEFUL_BYTES := READ_AMP_ESTIMATE_USEFUL_BYTES s + count |}.

Definition kBytesPersEntry : Z := 4.
Definition kBitsPerEntry : Z := kBytesPersEntry * 8.

(** The data members: the array of 32-bit words, the exponent of the
    granularity and the random shift of the grid; the statistics object the
    bitmap points to is carried along. *)
Record BlockReadAmpBitmap := {
  bitmap_ : list Z;
  bytes_per_bit_pow_ : Z;
  rnd_ : Z;
  statistics_ : Statistics
}.

(** [while (bytes_per_bit >>= 1) bytes_per_bit_pow_++]; a [size_t] is zero
    after 64 shifts. *)
Fixpoint pow_loop (fuel : nat) (bytes_per_bit pow : Z) : Z :=
  match fuel with
  | O => pow
  | S fuel' =>
      let bytes_per_bit := Z.shiftr bytes_per_bit 1 in
      if bool_decide (bytes_per_bit ≠ 0)
      then pow_loop fuel' bytes_per_bit (uint8_t (pow + 1))
      else pow
  end.

Definition num_bits_needed (block_size pow : Z) : Z :=
  size_t (Z.shiftr (size_t (block_size - 1)) pow + 1).

Definition bitmap_size (block_size pow : Z) : Z :=
  size_t (size_t (num_bits_needed block_size pow - 1) `div` kBitsPerEntry + 1).

Section Operations.
Context `{Build}.

(** The constructor; [rnd] is the value drawn by
    [Random::GetTLSInstance()->Uniform(bytes_per_bit)]. *)
Definition new (block_size bytes_per_bit : Z) (statistics : Statistics)
    (rnd : Z) : Res BlockReadAmpBitmap :=
  _ ← assert (bool_decide (0 < block_size) && bool_decide (0 < bytes_per_bit));
  let pow := pow_loop 64 bytes_per_bit 0 in
  _ ← assert (bool_decide (0 < num_bits_needed block_size pow));
  Ok {| bitmap_ := replicate (Z.to_nat (bitmap_size block_size pow)) 0;
        bytes_per_bit_pow_ := pow;
        rnd_ := rnd;
        statistics_ := RecordTick_total block_size statistics |}.

(** Get the current value of the bit at [bit_idx] and set it to 1. *)
Definition GetAndSet (bit_idx : Z) (b : BlockReadAmpBitmap)
    : Res (bool * BlockReadAmpBitmap) :=
  let byte_idx := bit_idx `div` kBitsPerEntry in
  let bit_mask := uint32_t (Z.shiftl 1 (bit_idx `mod` kBitsPerEntry)) in
  match bitmap_ b !! Z.to_nat byte_idx with
  | None => Err InvalidDeref
  | Some word =>
      Ok (bool_decide (Z.land word bit_mask ≠ 0),
          {| bitmap_ := <[Z.to_nat byte_idx := Z.lor word bit_mask]> (bitmap_ b);
             bytes_per_bit_pow_ := bytes_per_bit_pow_ b;
             rnd_ := rnd_ b;
             statistics_ := statistics_ b |})
  end.

(** Index of the first bit of the mask of a byte range. *)
Definition start_bit (b : BlockReadAmpBitmap) (start_offset : Z) : Z :=
  Z.shiftr
    (uint32_t (uint32_t (uint32_t (start_offset
                                   + Z.shiftl 1 (bytes_per_bit_pow_ b))
                         - rnd_ b) - 1))
    (bytes_per_bit_pow_ b).

(** Index of the last bit of the mask, plus one. *)
Definition exclusive_end_bit (b : BlockReadAmpBitmap) (end_offset : Z) : Z :=
  Z.shiftr
    (uint32_t (uint32_t (end_offset + Z.shiftl 1 (bytes_per_bit_pow_ b))
               - rnd_ b))
    (bytes_per_bit_pow_ b).

Definition new_useful_bytes (b : BlockReadAmpBitmap)
    (start_offset end_offset : Z) : Z :=
  uint32_t (Z.shiftl (uint32_t (exclusive_end_bit b end_offset
                                - start_bit b start_offset))
              (bytes_per_bit_pow_ b)).

Definition Mark (start_offset end_offset : Z) (b : BlockReadAmpBitmap)
    : Res BlockReadAmpBitmap :=
  _ ← assert (bool_decide (start_offset ≤ end_offset));
  if bool_decide (exclusive_end_bit b end_offset ≤ start_bit b start_offset)
  then Ok b
  else
    _ ← assert (bool_decide (0 < exclusive_end_bit b end_offset));
    '(was_set, b') ← GetAndSet (start_bit b start_offset) b;
    if (was_set : bool) then Ok b'
    else
      Ok {| bitmap_ := bitmap_ b';
            bytes_per_bit_pow_ := bytes_per_bit_pow_ b';
            rnd_ := rnd_ b';
            statistics_ :=
              RecordTick_useful (new_useful_bytes b start_offset end_offset)
                (statistics_ b') |}.

(** A sequence of [Mark] calls. *)
Fixpoint Mark_all (calls : list (Z * Z)) (b : BlockReadAmpBitmap)
    : Res BlockReadAmpBitmap :=
  match calls with
  | [] => Ok b
  | (start_offset, end_offset) :: rest =>
      b' ← Mark start_offset end_offset b;
      Mark_all rest b'
  end.

End Operations.

Definition GetBytesPerBit (b : BlockReadAmpBitmap) : Z :=
  uint32_t (Z.shiftl 1 (bytes_per_bit_pow_ b)).

(** The useful bytes reported so far. *)
Definition useful_bytes (b : BlockReadAmpBitmap) : Z :=
  READ_AMP_ESTIMATE_USEFUL_BYTES (statistics_ b).

(** The value of the bit at [bit_idx]. *)
Definition bit (b : BlockReadAmpBitmap) (bit_idx : Z) : bool :=
  match bitmap_ b !! Z.to_nat (bit_idx `div` kBitsPerEntry) with
  | Some word => Z.testbit word (bit_idx `mod` kBitsPerEntry)
  | None => false
  end.

Example Mark_single_call :
  (b ← @new release 100 32 Statistics_zero 0; @Mark release 0 99 b) =
  Ok {| bitmap_ := [1]; bytes_per_bit_pow_ := 5; rnd_ := 0;
        statistics_ := {| READ_AMP_TOTAL_READ_BYTES := 100;
                          READ_AMP_ESTIMATE_USEFUL_BYTES := 128 |} |}.
Proof. vm_compute. reflexivity. Qed.

Example Mark_overlapping_calls :
  useful_bytes <$>
    (match (b ← @new debug 100 1 Statistics_zero 0;
            @Mark_all debug [(0, 99); (1, 99)] b) with
     | Ok b => Some b | Err _ => None end) = Some 199.
Proof. vm_compute. reflexivity. Qed.

(** ** Properties *)

Lemma land_pow2 w k :
  0 ≤ k → Z.land w (2 ^ k) = if Z.testbit w k then 2 ^ k else 0.
Proof.
  intros Hk. apply Z.bits_inj'. intros j Hj.
  rewrite Z.land_spec, Z.pow2_bits_eqb by lia.
  destruct (Z.eqb_spec k j) as [->|Hne].
  - rewrite andb_true_r. destruct (Z.testbit w j); [|by rewrite Z.bits_0].
    by rewrite Z.pow2_bits_eqb, Z.eqb_refl by lia.
  - rewrite andb_false_r. destruct (Z.testbit w k); [|by rewrite Z.bits_0].
    rewrite Z.pow2_bits_eqb by lia. symmetry. by apply Z.eqb_neq.
Qed.

Lemma lor_pow2_testbit w k j :
  0 ≤ k → 0 ≤ j →
  Z.testbit (Z.lor w (2 ^ k)) j = Z.testbit w j || bool_decide (j = k).
Proof.
  intros Hk Hj. rewrite Z.lor_spec, Z.pow2_bits_eqb by lia.
  f_equal. destruct (Z.eqb_spec k j); case_bool_decide; congruence.
Qed.

Lemma bit_mask_pow2 i :
  uint32_t (Z.shiftl 1 (i `mod` kBitsPerEntry)) = 2 ^ (i `mod` kBitsPerEntry).
Proof.
  assert (0 ≤ i `mod` kBitsPerEntry < 32) as Hm by (apply Z.mod_pos_bound; reflexivity).
  rewrite Z.shiftl_mul_pow2, Z.mul_1_l by lia.
  apply uint32_t_id. split; [lia|].
  apply Z.pow_lt_mono_r; lia.
Qed.

(** [GetAndSet] on a bit inside the array: the old value of the bit is
    returned, that bit is set, no other bit changes. *)
Lemma GetAndSet_spec `{Build} i b :
  0 ≤ i → i `div` kBitsPerEntry < Z.of_nat (length (bitmap_ b)) →
  ∃ b', GetAndSet i b = Ok (bit b i, b') ∧
        bytes_per_bit_pow_ b' = bytes_per_bit_pow_ b ∧
        rnd_ b' = rnd_ b ∧
        statistics_ b' = statistics_ b ∧
        length (bitmap_ b') = length (bitmap_ b) ∧
        ∀ j, 0 ≤ j → bit b' j = bit b j || bool_decide (j = i).
Proof.
  intros Hi Hlen. unfold GetAndSet, bit.
  assert (0 ≤ i `div` kBitsPerEntry) as Hd by (apply Z.div_pos; [lia|reflexivity]).
  assert (0 ≤ i `mod` kBitsPerEntry < 32) as Hm by (apply Z.mod_pos_bound; reflexivity).
  destruct (lookup_lt_is_Some_2 (bitmap_ b) (Z.to_nat (i `div` kBitsPerEntry)))
    as [word Hw]; [lia|].
  rewrite Hw, bit_mask_pow2.
  assert (bool_decide (Z.land word (2 ^ (i `mod` kBitsPerEntry)) ≠ 0)
          = Z.testbit word (i `mod` kBitsPerEntry)) as ->.
  { rewrite land_pow2 by lia.
    assert (0 < 2 ^ (i `mod` kBitsPerEntry)) by (apply Z.pow_pos_nonneg; lia).
    destruct (Z.testbit word _); case_bool_decide; try done. lia. }
  eexists. split; [reflexivity|]. cbn. split_and!; try reflexivity.
  - by rewrite length_insert.
  - intros j Hj.
    assert (0 ≤ j `div` kBitsPerEntry) as Hdj by (apply Z.div_pos; [lia|reflexivity]).
    assert (0 ≤ j `mod` kBitsPerEntry < 32) as Hmj by (apply Z.mod_pos_bound; reflexivity).
    destruct (decide (j `div` kBitsPerEntry = i `div` kBitsPerEntry)) as [Heq|Hne].
    + rewrite Heq, list_lookup_insert_eq, Hw by lia.
      rewrite lor_pow2_testbit by lia. f_equal.
      pose proof (Z.div_mod i kBitsPerEntry ltac:(done)).
      pose proof (Z.div_mod j kBitsPerEntry ltac:(done)).
      repeat case_bool_decide; try done; [|congruence]. exfalso. lia.
    + rewrite list_lookup_insert_ne by lia.
      rewrite (bool_decide_eq_false_2 (j = i)) by congruence.
      by rewrite orb_false_r.
Qed.

Definition effective (b : BlockReadAmpBitmap) (s e : Z) : bool :=
  bool_decide (start_bit b s < exclusive_end_bit b e).

Lemma start_bit_nonneg b s : 0 ≤ start_bit b s.
Proof. unfold start_bit. apply Z.shiftr_nonneg, uint32_t_range. Qed.

Lemma Mark_spec `{Build} s e b :
  s ≤ e →
  (start_bit b s < exclusive_end_bit b e →
   start_bit b s `div` kBitsPerEntry < Z.of_nat (length (bitmap_ b))) →
  ∃ b', Mark s e b = Ok b' ∧
        bytes_per_bit_pow_ b' = bytes_per_bit_pow_ b ∧
        rnd_ b' = rnd_ b ∧
        length (bitmap_ b') = length (bitmap_ b) ∧
        useful_bytes b' = useful_bytes b +
          (if effective b s e && negb (bit b (start_bit b s))
           then new_useful_bytes b s e else 0) ∧
        ∀ j, 0 ≤ j →
          bit b' j = bit b j || (effective b s e && bool_decide (j = start_bit b s)).
Proof.
  intros Hse Hin. unfold Mark, assert, effective.
  rewrite (bool_decide_eq_true_2 (s ≤ e)), orb_true_r by done. cbn.
  pose proof (start_bit_nonneg b s) as Ha.
  destruct (decide (start_bit b s < exclusive_end_bit b e)) as [Heff|Heff].
  - rewrite bool_decide_eq_false_2 by lia.
    rewrite (bool_decide_eq_true_2 (0 < _)), orb_true_r by lia. cbn.
    destruct (GetAndSet_spec (start_bit b s) b Ha (Hin Heff))
      as (b' & -> & Hp & Hr & Hs & Hl & Hb).
    rewrite (bool_decide_eq_true_2 (_ < _)) by done. cbn.
    destruct (bit b (start_bit b s)); cbn.
    + exists b'. unfold useful_bytes. rewrite Hs. split_and!; try done; lia.
    + eexists. split; [reflexivity|]. unfold useful_bytes, bit in *. cbn.
      rewrite Hs. split_and!; done.
  - rewrite bool_decide_eq_true_2 by lia.
    rewrite (bool_decide_eq_false_2 (_ < _)) by done. cbn.
    exists b. split_and!; try done; [lia|].
    intros j _. by rewrite orb_false_r.
Qed.

Lemma pow_loop_log2 fuel bytes_per_bit pow :
  0 < bytes_per_bit < 2 ^ Z.of_nat fuel →
  0 ≤ pow → pow + Z.log2 bytes_per_bit < 256 →
  pow_loop fuel bytes_per_bit pow = pow + Z.log2 bytes_per_bit.
Proof.
  revert bytes_per_bit pow.
  induction fuel as [|fuel IH]; intros bpb pow Hb Hp Hsum; [cbn in Hb; lia|].
  cbn [pow_loop].
  rewrite Z.shiftr_div_pow2 by lia. change (2 ^ 1) with 2.
  case_bool_decide as Hz.
  - assert (2 ≤ bpb) by (destruct (decide (bpb < 2)); [|lia];
      rewrite Z.div_small in Hz by lia; done).
    assert (1 ≤ Z.log2 bpb) as Hlog1 by (apply Z.log2_le_pow2; lia).
    assert (Z.log2 (bpb `div` 2) = Z.log2 bpb - 1) as Hlog.
    { replace (bpb `div` 2) with (Z.shiftr bpb 1)
        by (rewrite Z.shiftr_div_pow2 by lia; reflexivity).
      rewrite Z.log2_shiftr by lia. lia. }
    assert (uint8_t (pow + 1) = pow + 1) as ->
      by (unfold uint8_t; apply Z.mod_small; lia).
    rewrite IH; [lia| |lia|lia].
    split; [apply Z.div_str_pos; lia|].
    apply Z.div_lt_upper_bound; [lia|].
    rewrite Nat2Z.inj_succ, Z.pow_succ_r in Hb by lia. lia.
  - assert (bpb = 1) as ->.
    { destruct (decide (bpb < 2)); [lia|].
      assert (0 < bpb `div` 2) by (apply Z.div_str_pos; lia). lia. }
    cbn. lia.
Qed.

(** The grid of a bitmap made for a block of [block_size] bytes: the
    granularity is a power of two that [int] holds, the random shift is
    below the requested granularity (itself below twice the power of two it
    is rounded to), and offsets of the block plus the granularity fit 32
    bits. *)
Record grid (block_size : Z) (b : BlockReadAmpBitmap) : Prop := {
  grid_pow : 0 ≤ bytes_per_bit_pow_ b ≤ 30;
  grid_rnd : 0 ≤ rnd_ b < 2 * 2 ^ bytes_per_bit_pow_ b;
  grid_size : 0 < block_size ∧ block_size + 2 ^ bytes_per_bit_pow_ b ≤ 2 ^ 32
}.

(** A bitmap made for a block of [block_size] bytes: its grid, and the
    array has the length the constructor computes. *)
Record for_block (block_size : Z) (b : BlockReadAmpBitmap) : Prop := {
  fb_grid : grid block_size b;
  fb_len : Z.of_nat (length (bitmap_ b))
           = bitmap_size block_size (bytes_per_bit_pow_ b)
}.

Definition num_bits (block_size : Z) (b : BlockReadAmpBitmap) : Z :=
  (block_size - 1) `div` 2 ^ bytes_per_bit_pow_ b + 1.

Lemma uint32_t_sub_sub x r :
  uint32_t (uint32_t (uint32_t x - r) - 1) = uint32_t (x - r - 1).
Proof.
  unfold uint32_t. rewrite Zminus_mod_idemp_l.
  replace (x `mod` 2 ^ 32 - r - 1) with (x `mod` 2 ^ 32 - (r + 1)) by lia.
  rewrite Zminus_mod_idemp_l. f_equal. lia.
Qed.

Lemma uint32_t_sub x r : uint32_t (uint32_t x - r) = uint32_t (x - r).
Proof. unfold uint32_t. by rewrite Zminus_mod_idemp_l. Qed.

Lemma pow_bounds p : 0 ≤ p ≤ 30 → 0 < 2 ^ p ≤ 2 ^ 30.
Proof.
  intros Hp. split; [apply Z.pow_pos_nonneg; lia|].
  apply Z.pow_le_mono_r; lia.
Qed.

Lemma interval_cases bs b s e :
  grid bs b → 0 ≤ s → s ≤ e → e < bs →
  exclusive_end_bit b e ≤ start_bit b s ∨
  (0 ≤ s + 2 ^ bytes_per_bit_pow_ b - rnd_ b - 1 ∧
   start_bit b s
     = (s + 2 ^ bytes_per_bit_pow_ b - rnd_ b - 1) `div` 2 ^ bytes_per_bit_pow_ b ∧
   exclusive_end_bit b e
     = (e + 2 ^ bytes_per_bit_pow_ b - rnd_ b) `div` 2 ^ bytes_per_bit_pow_ b).
Proof.
  intros [Hp Hr [Hbs Hbs']] Hs Hse He.
  unfold start_bit, exclusive_end_bit.
  set (p := bytes_per_bit_pow_ b) in *. set (r := rnd_ b) in *.
  pose proof (pow_bounds p Hp) as HB.
  rewrite uint32_t_sub_sub, uint32_t_sub.
  rewrite !Z.shiftr_div_pow2, Z.shiftl_mul_pow2, Z.mul_1_l by lia.
  set (B := 2 ^ p) in *.
  destruct (decide (0 ≤ s + B - r - 1)) as [Hz|Hz].
  - right. rewrite !uint32_t_id by (unfold is_uint32; lia). done.
  - left.
    assert (2 ^ 32 = 2 ^ (32 - p) * B) as Hsplit.
    { unfold B. rewrite <- Z.pow_add_r by lia. f_equal. lia. }
    assert (uint32_t (s + B - r - 1) = s + B - r - 1 + 2 ^ (32 - p) * B) as ->.
    { unfold uint32_t. rewrite <- Hsplit.
      rewrite <- (Z_mod_plus_full _ 1), Z.mod_small; lia. }
    rewrite Z.div_add by lia.
    assert ((s + B - r - 1) `div` B = -1) as ->.
    { symmetry. apply (Z.div_unique_pos _ _ _ (s + B - r - 1 + B)); lia. }
    assert (uint32_t (e + B - r) `div` B < 2 ^ (32 - p)); [|lia].
    apply Z.div_lt_upper_bound; [lia|].
    rewrite Z.mul_comm, <- Hsplit. apply uint32_t_range.
Qed.

Lemma num_bits_needed_eq bs b :
  grid bs b → num_bits_needed bs (bytes_per_bit_pow_ b) = num_bits bs b.
Proof.
  intros [Hp Hr [Hbs Hbs']]. unfold num_bits_needed, num_bits.
  pose proof (pow_bounds _ Hp) as HB.
  rewrite (size_t_id (bs - 1)) by (unfold is_size_t; lia).
  rewrite Z.shiftr_div_pow2 by lia.
  apply size_t_id. unfold is_size_t.
  assert (0 ≤ (bs - 1) `div` 2 ^ bytes_per_bit_pow_ b ≤ bs - 1); [|lia].
  split; [apply Z.div_pos; lia|]. apply Z.div_le_upper_bound; nia.
Qed.

Lemma num_bits_bytes bs b :
  grid bs b →
  0 < num_bits bs b ∧
  num_bits bs b * 2 ^ bytes_per_bit_pow_ b ≤ bs - 1 + 2 ^ bytes_per_bit_pow_ b.
Proof.
  intros [Hp Hr [Hbs Hbs']]. unfold num_bits.
  pose proof (pow_bounds _ Hp) as HB.
  pose proof (Z.mul_div_le (bs - 1) (2 ^ bytes_per_bit_pow_ b) ltac:(lia)).
  assert (0 ≤ (bs - 1) `div` 2 ^ bytes_per_bit_pow_ b) by (apply Z.div_pos; lia).
  lia.
Qed.

Lemma bitmap_size_eq bs b :
  grid bs b →
  bitmap_size bs (bytes_per_bit_pow_ b)
  = (num_bits bs b - 1) `div` kBitsPerEntry + 1.
Proof.
  intros Hfb. unfold bitmap_size. rewrite (num_bits_needed_eq bs) by done.
  destruct (num_bits_bytes bs b Hfb) as [Hn Hnb].
  destruct Hfb as [Hp Hr [Hbs Hbs']].
  pose proof (pow_bounds _ Hp) as HB.
  assert (num_bits bs b ≤ 2 ^ 32) by nia.
  rewrite (size_t_id (_ - 1)) by (unfold is_size_t; lia).
  apply size_t_id. unfold is_size_t.
  assert (0 ≤ (num_bits bs b - 1) `div` kBitsPerEntry ≤ num_bits bs b - 1); [|lia].
  split; [apply Z.div_pos; [lia|done]|].
  apply Z.div_le_upper_bound; [done|]. unfold kBitsPerEntry, kBytesPersEntry. lia.
Qed.

(** An effective call on a byte range of the block touches bits of the
    bitmap only. *)
Lemma effective_bounds bs b s e :
  for_block bs b → 0 ≤ s → s ≤ e → e < bs →
  start_bit b s < exclusive_end_bit b e →
  0 ≤ s + 2 ^ bytes_per_bit_pow_ b - rnd_ b - 1 ∧
  start_bit b s
    = (s + 2 ^ bytes_per_bit_pow_ b - rnd_ b - 1) `div` 2 ^ bytes_per_bit_pow_ b ∧
  exclusive_end_bit b e
    = (e + 2 ^ bytes_per_bit_pow_ b - rnd_ b) `div` 2 ^ bytes_per_bit_pow_ b ∧
  exclusive_end_bit b e ≤ num_bits bs b ∧
  start_bit b s `div` kBitsPerEntry < Z.of_nat (length (bitmap_ b)).
Proof.
  intros Hfb Hs Hse He Heff.
  destruct (interval_cases bs b s e (fb_grid _ _ Hfb) Hs Hse He) as [|(Hz & Ha & Hc)]; [lia|].
  pose proof (start_bit_nonneg b s) as Hnn.
  assert (exclusive_end_bit b e ≤ num_bits bs b) as Hle.
  { destruct Hfb as [[Hp Hr [Hbs Hbs']] _].
    pose proof (pow_bounds _ Hp) as HB.
    rewrite Hc. unfold num_bits. rewrite <- Z.div_add by lia.
    apply Z.div_le_mono; lia. }
  split_and!; try done.
  rewrite (fb_len _ _ Hfb), bitmap_size_eq by apply Hfb.
  assert (start_bit b s `div` kBitsPerEntry
          ≤ (num_bits bs b - 1) `div` kBitsPerEntry); [|lia].
  apply Z.div_le_mono; [done|lia].
Qed.

Lemma new_useful_bytes_eq bs b s e :
  for_block bs b → 0 ≤ s → s ≤ e → e < bs →
  start_bit b s < exclusive_end_bit b e →
  new_useful_bytes b s e
  = (exclusive_end_bit b e - start_bit b s) * 2 ^ bytes_per_bit_pow_ b.
Proof.
  intros Hfb Hs Hse He Heff.
  destruct (effective_bounds bs b s e Hfb Hs Hse He Heff) as (_ & _ & _ & Hle & _).
  destruct (num_bits_bytes bs b (fb_grid _ _ Hfb)) as [Hn Hnb].
  pose proof (start_bit_nonneg b s) as Hnn.
  destruct Hfb as [[Hp Hr [Hbs Hbs']] _].
  pose proof (pow_bounds _ Hp) as HB.
  unfold new_useful_bytes.
  assert (exclusive_end_bit b e - start_bit b s ≤ 2 ^ 32 - 1) by nia.
  rewrite (uint32_t_id (_ - _)) by (unfold is_uint32; lia).
  rewrite Z.shiftl_mul_pow2 by lia.
  apply uint32_t_id. unfold is_uint32. nia.
Qed.

(** Disjoint byte ranges are mapped to disjoint bit intervals. *)
Lemma effective_disjoint bs b s1 e1 s2 e2 :
  for_block bs b →
  0 ≤ s1 → s1 ≤ e1 → e1 < s2 → s2 ≤ e2 → e2 < bs →
  start_bit b s1 < exclusive_end_bit b e1 →
  start_bit b s2 < exclusive_end_bit b e2 →
  exclusive_end_bit b e1 ≤ start_bit b s2.
Proof.
  intros Hfb Hs1 Hse1 Hlt Hse2 He2 Heff1 Heff2.
  destruct (effective_bounds bs b s1 e1) as (_ & _ & -> & _); try done; [lia|].
  destruct (effective_bounds bs b s2 e2) as (_ & -> & _); try done; [lia|].
  destruct Hfb as [[Hp Hr [Hbs Hbs']] _].
  pose proof (pow_bounds _ Hp) as HB.
  apply Z.div_le_mono; lia.
Qed.

(** The bits a call covers, and the bits covered by a history of calls. *)
Definition cover (b : BlockReadAmpBitmap) (c : Z * Z) : gset Z :=
  list_to_set (seqZ (start_bit b c.1) (exclusive_end_bit b c.2 - start_bit b c.1)).

Definition covered (b : BlockReadAmpBitmap) (hist : list (Z * Z)) : gset Z :=
  ⋃ (cover b <$> hist).

Lemma elem_of_cover b c j :
  j ∈ cover b c ↔ start_bit b c.1 ≤ j < exclusive_end_bit b c.2.
Proof. unfold cover. rewrite elem_of_list_to_set, elem_of_seqZ. lia. Qed.

Lemma size_cover b c :
  Z.of_nat (size (cover b c))
  = Z.max 0 (exclusive_end_bit b c.2 - start_bit b c.1).
Proof.
  unfold cover. rewrite size_list_to_set by apply NoDup_seqZ.
  rewrite length_seqZ. lia.
Qed.

Lemma elem_of_covered b hist j :
  j ∈ covered b hist ↔
  ∃ c, c ∈ hist ∧ start_bit b c.1 ≤ j < exclusive_end_bit b c.2.
Proof.
  unfold covered. rewrite elem_of_union_list. split.
  - intros (X & HX & Hj). apply list_elem_of_fmap in HX as (c & -> & Hc).
    exists c. split; [done|]. by apply elem_of_cover.
  - intros (c & Hc & Hj). exists (cover b c). split.
    + apply list_elem_of_fmap. eauto.
    + by apply elem_of_cover.
Qed.

Lemma covered_snoc b hist c :
  covered b (hist ++ [c]) = covered b hist ∪ cover b c.
Proof.
  unfold covered. rewrite fmap_app, union_list_app_L. cbn.
  by rewrite (right_id_L ∅ (∪)).
Qed.

Definition in_block (block_size : Z) (c : Z * Z) : Prop :=
  0 ≤ c.1 ∧ c.1 ≤ c.2 ∧ c.2 < block_size.

(** Two calls mark the same entry or entries that do not overlap. *)
Definition same_or_disjoint (c1 c2 : Z * Z) : Prop :=
  c1 = c2 ∨ c1.2 < c2.1 ∨ c2.2 < c1.1.

Record inv (b0 : BlockReadAmpBitmap) (hist : list (Z * Z))
    (b : BlockReadAmpBitmap) : Prop := {
  inv_pow : bytes_per_bit_pow_ b = bytes_per_bit_pow_ b0;
  inv_rnd : rnd_ b = rnd_ b0;
  inv_len : length (bitmap_ b) = length (bitmap_ b0);
  inv_bits : ∀ j, 0 ≤ j →
    bit b j = true ↔
    ∃ c, c ∈ hist ∧ start_bit b0 c.1 < exclusive_end_bit b0 c.2
         ∧ start_bit b0 c.1 = j;
  inv_count :
    useful_bytes b
    = useful_bytes b0
      + Z.of_nat (size (covered b0 hist)) * 2 ^ bytes_per_bit_pow_ b0
}.

Lemma Mark_inv `{Build} bs b0 hist b c :
  for_block bs b0 →
  inv b0 hist b →
  in_block bs c →
  (∀ c', c' ∈ hist → in_block bs c' ∧ same_or_disjoint c' c) →
  ∃ b', Mark c.1 c.2 b = Ok b' ∧ inv b0 (hist ++ [c]) b'.
Proof.
  intros Hfb [Hp Hr Hl Hbits Hcount] (Hs & Hse & He) Hhist.
  assert (Hsb : ∀ s, start_bit b s = start_bit b0 s)
    by (intros s; unfold start_bit; by rewrite Hp, Hr).
  assert (Heb : ∀ e, exclusive_end_bit b e = exclusive_end_bit b0 e)
    by (intros e; unfold exclusive_end_bit; by rewrite Hp, Hr).
  assert (Hnb : new_useful_bytes b c.1 c.2 = new_useful_bytes b0 c.1 c.2)
    by (unfold new_useful_bytes; by rewrite Hsb, Heb, Hp).
  destruct (Mark_spec c.1 c.2 b Hse) as (b' & HM & Hp' & Hr' & Hl' & Hu' & Hb').
  { rewrite Hsb, Heb, Hl. intros Heff.
    by destruct (effective_bounds bs b0 c.1 c.2 Hfb Hs Hse He Heff)
      as (_ & _ & _ & _ & ?). }
  exists b'. split; [done|].
  unfold effective in Hu', Hb'. rewrite Hsb, Heb in Hu', Hb'. rewrite Hnb in Hu'.
  pose proof (start_bit_nonneg b0 c.1) as Hnn.
  (* how an earlier effective call that shares a bit with [c] relates to it *)
  assert (Hshare : ∀ c' j, c' ∈ hist →
            start_bit b0 c'.1 ≤ j < exclusive_end_bit b0 c'.2 →
            start_bit b0 c.1 ≤ j < exclusive_end_bit b0 c.2 → c' = c).
  { intros c' j Hc' Hj' Hj. destruct (Hhist c' Hc') as [(Hs' & Hse' & He') [?|[Hd|Hd]]];
      [done|exfalso..].
    - pose proof (effective_disjoint bs b0 c'.1 c'.2 c.1 c.2 Hfb). lia.
    - pose proof (effective_disjoint bs b0 c.1 c.2 c'.1 c'.2 Hfb). lia. }
  split; try congruence.
  - intros j Hj. rewrite Hb' by done. rewrite orb_true_iff, andb_true_iff.
    rewrite !bool_decide_eq_true, Hbits by done. split.
    + intros [(c' & Hc' & ?)|[Heff ->]].
      * exists c'. split; [|done]. apply elem_of_app. by left.
      * exists c. split; [|done]. apply elem_of_app. right. by apply list_elem_of_singleton.
    + intros (c' & Hc' & Heff & Hj'). apply elem_of_app in Hc' as [Hc'|Hc'].
      * left. eauto.
      * apply list_elem_of_singleton in Hc' as ->. right. done.
  - rewrite Hu', Hcount, covered_snoc.
    destruct (decide (start_bit b0 c.1 < exclusive_end_bit b0 c.2)) as [Heff|Heff].
    + rewrite (bool_decide_eq_true_2 _ Heff). cbn.
      destruct (bit b (start_bit b0 c.1)) eqn:Hbit; cbn.
      * apply Hbits in Hbit as (c' & Hc' & Heff' & Hst); [|done].
        assert (c' = c) as -> by (apply (Hshare c' (start_bit b0 c.1)); [done|lia..]).
        assert (covered b0 hist ∪ cover b0 c = covered b0 hist) as ->; [|lia].
        apply set_eq. intros j. rewrite elem_of_union, elem_of_covered, elem_of_cover.
        split; [intros [Hj|Hj]; [exact Hj|exists c; by split] | intros Hj; by left].
      * assert (covered b0 hist ## cover b0 c) as Hdisj.
        { intros j [c' [Hc' Hj']]%elem_of_covered Hj%elem_of_cover.
          assert (c' = c) as -> by (by apply (Hshare c' j)).
          assert (bit b (start_bit b0 c.1) = true); [|congruence].
          apply Hbits; [done|]. eauto. }
        rewrite size_union by done. rewrite Nat2Z.inj_add, size_cover.
        rewrite (new_useful_bytes_eq bs) by done. lia.
    + rewrite (bool_decide_eq_false_2 _ Heff). cbn.
      assert (cover b0 c = ∅) as ->.
      { apply set_eq. intros j. rewrite elem_of_cover.
        split; [lia|intros []%not_elem_of_empty]. }
      rewrite (right_id_L ∅ (∪)). lia.
Qed.

Lemma Mark_all_inv `{Build} bs b0 calls : ∀ hist b,
  for_block bs b0 →
  inv b0 hist b →
  (∀ c, c ∈ hist ++ calls → in_block bs c) →
  (∀ c1 c2, c1 ∈ hist ++ calls → c2 ∈ hist ++ calls → same_or_disjoint c1 c2) →
  ∃ b', Mark_all calls b = Ok b' ∧ inv b0 (hist ++ calls) b'.
Proof.
  induction calls as [|[s e] calls IH]; intros hist b Hfb Hinv Hin Hpair.
  - exists b. rewrite app_nil_r. done.
  - destruct (Mark_inv bs b0 hist b (s, e) Hfb Hinv) as (b1 & HM & Hinv1).
    + apply Hin. set_solver.
    + intros c' Hc'. split; [apply Hin|apply Hpair]; set_solver.
    + cbn [Mark_all]. cbn in HM. rewrite HM. cbn.
      replace (hist ++ (s, e) :: calls) with ((hist ++ [(s, e)]) ++ calls) in *
        by (by rewrite <- app_assoc).
      by apply IH.
Qed.

Lemma covered_le bs b calls :
  for_block bs b →
  (∀ c, c ∈ calls → in_block bs c) →
  Z.of_nat (size (covered b calls)) ≤ num_bits bs b.
Proof.
  intros Hfb Hin.
  destruct (num_bits_bytes bs b (fb_grid _ _ Hfb)) as [Hn _].
  assert (covered b calls ⊆ list_to_set (seqZ 0 (num_bits bs b))) as Hsub.
  { intros j (c & Hc & Hj)%elem_of_covered.
    destruct (Hin c Hc) as (Hs & Hse & He).
    destruct (effective_bounds bs b c.1 c.2 Hfb Hs Hse He) as (_ & _ & _ & Hle & _);
      [lia|].
    pose proof (start_bit_nonneg b c.1).
    rewrite elem_of_list_to_set, elem_of_seqZ. lia. }
  apply subseteq_size in Hsub.
  rewrite size_list_to_set, length_seqZ in Hsub by apply NoDup_seqZ. lia.
Qed.

Lemma bit_new `{Build} bs bpb stats rnd b j :
  new bs bpb stats rnd = Ok b → bit b j = false.
Proof.
  unfold new. generalize (pow_loop 64 bpb 0). intros p Hnew.
  destruct (assert (bool_decide (0 < bs) && bool_decide (0 < bpb)));
    [rewrite bind_Ok in Hnew|discriminate Hnew].
  destruct (assert (bool_decide (0 < num_bits_needed bs p)));
    [rewrite bind_Ok in Hnew|discriminate Hnew].
  injection Hnew as <-.
  unfold bit. cbn [bitmap_].
  destruct (replicate _ 0 !! _) as [w|] eqn:Hw; [|done].
  apply lookup_replicate in Hw as [-> _]. apply Z.bits_0.
Qed.

Lemma new_spec `{Build} bs bpb stats rnd :
  0 < bs → 0 < bpb < 2 ^ 31 → bs + bpb ≤ 2 ^ 32 → 0 ≤ rnd < bpb →
  ∃ b, new bs bpb stats rnd = Ok b ∧ for_block bs b ∧
       bytes_per_bit_pow_ b = Z.log2 bpb ∧
       2 ^ bytes_per_bit_pow_ b ≤ bpb ∧
       useful_bytes b = READ_AMP_ESTIMATE_USEFUL_BYTES stats ∧
       READ_AMP_TOTAL_READ_BYTES (statistics_ b)
         = READ_AMP_TOTAL_READ_BYTES stats + bs.
Proof.
  intros Hbs Hbpb Hsum Hrnd.
  assert (Z.log2 bpb < 31) as Hlog by (apply Z.log2_lt_pow2; lia).
  pose proof (Z.log2_nonneg bpb) as Hlog0.
  destruct (Z.log2_spec bpb) as [Hlo Hhi]; [lia|].
  rewrite Z.pow_succ_r in Hhi by done.
  assert (pow_loop 64 bpb 0 = Z.log2 bpb) as Hpow.
  { rewrite pow_loop_log2; [lia| |lia|lia].
    split; [lia|]. change (Z.of_nat 64) with 64.
    assert (2 ^ 31 < 2 ^ 64) by (apply Z.pow_lt_mono_r; lia). lia. }
  set (b := {| bitmap_ := replicate (Z.to_nat (bitmap_size bs (Z.log2 bpb))) 0;
               bytes_per_bit_pow_ := Z.log2 bpb;
               rnd_ := rnd;
               statistics_ := RecordTick_total bs stats |}).
  assert (grid bs b) as Hgrid by (split; cbn; lia).
  exists b. split_and!; try done.
  - unfold new.
    rewrite (bool_decide_eq_true_2 (0 < bs)), (bool_decide_eq_true_2 (0 < bpb))
      by lia.
    cbn [andb]. rewrite assert_true, bind_Ok, Hpow.
    pose proof (num_bits_needed_eq bs b Hgrid) as Hnbe.
    change (bytes_per_bit_pow_ b) with (Z.log2 bpb) in Hnbe. rewrite Hnbe.
    destruct (num_bits_bytes bs b Hgrid) as [Hn _].
    rewrite (bool_decide_eq_true_2 (0 < num_bits bs b)) by done.
    rewrite assert_true, bind_Ok. reflexivity.
  - split; [done|]. cbn. rewrite length_replicate.
    pose proof (size_t_range
      (size_t (num_bits_needed bs (Z.log2 bpb) - 1) `div` kBitsPerEntry + 1)) as Hr.
    unfold is_size_t in Hr. fold (bitmap_size bs (Z.log2 bpb)) in Hr. lia.
Qed.

(** C5 does not hold as stated: the reported useful bytes can exceed the
    bytes of the block.  One call on the whole of a 100-byte block with 32
    bytes per bit reports 4 * 32 = 128 bytes; and with one byte per bit,
    two calls on overlapping ranges report 100 + 99 bytes. *)
Lemma useful_bytes_exceed_block_bytes :
  (∃ b0 b', @new debug 100 32 Statistics_zero 0 = Ok b0 ∧
            @Mark debug 0 99 b0 = Ok b' ∧
            READ_AMP_TOTAL_READ_BYTES (statistics_ b') = 100 ∧
            useful_bytes b' = 128 ∧
            ¬ useful_bytes b' ≤ READ_AMP_TOTAL_READ_BYTES (statistics_ b')) ∧
  (∃ b0 b', @new debug 100 1 Statistics_zero 0 = Ok b0 ∧
            @Mark_all debug [(0, 99); (1, 99)] b0 = Ok b' ∧
            READ_AMP_TOTAL_READ_BYTES (statistics_ b') = 100 ∧
            useful_bytes b' = 199 ∧
            ¬ useful_bytes b' ≤ READ_AMP_TOTAL_READ_BYTES (statistics_ b')).
Proof.
  split.
  - eexists. eexists. split; [vm_compute; reflexivity|].
    split; [vm_compute; reflexivity|]. vm_compute. split_and!; try reflexivity.
    intros Hle. apply Hle. reflexivity.
  - eexists. eexists. split; [vm_compute; reflexivity|].
    split; [vm_compute; reflexivity|]. vm_compute. split_and!; try reflexivity.
    intros Hle. apply Hle. reflexivity.
Qed.

(** C5, as the code has it.  A call of [Mark] on a range whose bits are in
    the array returns, and the reported useful bytes grow only on the first
    touch of the first bit of the range: they grow by
    [(exclusive_end_bit - start_bit) << bytes_per_bit_pow_] when that bit
    was clear (it is set afterwards) and not at all otherwise, in particular
    not when all the covered bits were set already.  The running total is
    bounded for the calls the data-block iterator issues, ranges inside the
    block that are pairwise the same or disjoint: what they add is at most
    the number of bits times the bytes per bit, which is below
    [block_size + bytes_per_bit] (and not below [block_size] in general). *)
Theorem Mark_first_touch_and_bound (build : Build) :
  (∀ b s e,
     s ≤ e →
     exclusive_end_bit b e ≤ kBitsPerEntry * Z.of_nat (length (bitmap_ b)) →
     ∃ b', Mark s e b = Ok b' ∧
       useful_bytes b' = useful_bytes b +
         (if effective b s e && negb (bit b (start_bit b s))
          then new_useful_bytes b s e else 0) ∧
       useful_bytes b ≤ useful_bytes b' ∧
       (useful_bytes b' ≠ useful_bytes b →
        bit b (start_bit b s) = false ∧ bit b' (start_bit b s) = true) ∧
       ((∀ j, start_bit b s ≤ j < exclusive_end_bit b e → bit b j = true) →
        useful_bytes b' = useful_bytes b)) ∧
  (∀ block_size bytes_per_bit statistics rnd calls,
     0 < block_size → 0 < bytes_per_bit < 2 ^ 31 →
     block_size + bytes_per_bit ≤ 2 ^ 32 →
     0 ≤ rnd < bytes_per_bit →
     (∀ c, c ∈ calls → in_block block_size c) →
     (∀ c1 c2, c1 ∈ calls → c2 ∈ calls → same_or_disjoint c1 c2) →
     ∃ b0 b', new block_size bytes_per_bit statistics rnd = Ok b0 ∧
       Mark_all calls b0 = Ok b' ∧
       useful_bytes b' - useful_bytes b0
         ≤ num_bits block_size b0 * GetBytesPerBit b0 ∧
       num_bits block_size b0 * GetBytesPerBit b0 < block_size + bytes_per_bit).
Proof.
  split.
  - intros b s e Hse Hin.
    pose proof (start_bit_nonneg b s) as Hnn.
    destruct (Mark_spec s e b Hse) as (b' & HM & _ & _ & _ & Hu & Hb).
    { intros Heff. apply Z.div_lt_upper_bound; [done|lia]. }
    assert (0 ≤ new_useful_bytes b s e) as Hnew by apply uint32_t_range.
    exists b'. split; [done|]. split; [done|]. split_and!.
    + rewrite Hu. destruct (_ && _); lia.
    + intros Hne. unfold effective in *.
      destruct (bool_decide_reflect (start_bit b s < exclusive_end_bit b e))
        as [Heff|Heff]; cbn in Hu; [|lia].
      destruct (bit b (start_bit b s)); cbn in Hu; [lia|].
      split; [done|]. rewrite Hb by done.
      apply orb_true_iff. right. apply andb_true_iff.
      split; [reflexivity|by apply bool_decide_eq_true].
    + intros Hall. rewrite Hu. unfold effective.
      destruct (bool_decide_reflect (start_bit b s < exclusive_end_bit b e))
        as [Heff|Heff]; cbn; [|lia].
      rewrite Hall by lia. cbn. lia.
  - intros bs bpb stats rnd calls Hbs Hbpb Hsum Hrnd Hin Hpair.
    destruct (new_spec bs bpb stats rnd Hbs Hbpb Hsum Hrnd)
      as (b0 & Hnew & Hfb & Hpow & Hle & _).
    assert (inv b0 [] b0) as Hinv0.
    { split; try done.
      - intros j Hj. rewrite (bit_new _ _ _ _ _ j Hnew). split; [done|].
        intros (c & Hc & _). by apply elem_of_nil in Hc.
      - cbn. rewrite size_empty. lia. }
    destruct (Mark_all_inv bs b0 calls [] b0 Hfb Hinv0 Hin Hpair)
      as (b' & Hrun & Hinv).
    destruct (num_bits_bytes bs b0 (fb_grid _ _ Hfb)) as [Hn Hnb].
    pose proof (covered_le bs b0 calls Hfb Hin) as Hcov.
    pose proof (pow_bounds _ (grid_pow _ _ (fb_grid _ _ Hfb))) as HB.
    assert (GetBytesPerBit b0 = 2 ^ bytes_per_bit_pow_ b0) as HBpb.
    { unfold GetBytesPerBit.
      rewrite Z.shiftl_mul_pow2, Z.mul_1_l by apply Hfb.
      apply uint32_t_id. unfold is_uint32. lia. }
    exists b0, b'. rewrite HBpb. split_and!; try done; [|lia].
    rewrite (inv_count _ _ _ Hinv). cbn [app]. nia.
Qed.

(** The three entries of a 100-byte block, the first one read twice. *)
Lemma Mark_first_touch_and_bound_witness :
  ∃ b0 b', @new debug 100 32 Statistics_zero 7 = Ok b0 ∧
    @Mark_all debug [(0, 39); (40, 79); (0, 39); (80, 91)] b0 = Ok b' ∧
    useful_bytes b' - useful_bytes b0 ≤ num_bits 100 b0 * GetBytesPerBit b0 ∧
    num_bits 100 b0 * GetBytesPerBit b0 < 100 + 32.
Proof.
  destruct (Mark_first_touch_and_bound debug) as [_ Hbound].
  apply (Hbound 100 32 Statistics_zero 7 [(0, 39); (40, 79); (0, 39); (80, 91)]);
    try lia.
  - intros c Hc. unfold in_block.
    repeat (apply elem_of_cons in Hc as [->|Hc]; [cbn; lia|]).
    by apply elem_of_nil in Hc.
  - intros c1 c2 Hc1 Hc2. unfold same_or_disjoint.
    repeat (apply elem_of_cons in Hc1 as [->|Hc1];
            [repeat (apply elem_of_cons in Hc2 as [->|Hc2];
                     [cbn; first [by left | right; lia]|]);
             by apply elem_of_nil in Hc2|]).
    by apply elem_of_nil in Hc1.
Defined.

(** ** The constructor, and marking a range again *)





Lemma start_bit_same b b' s :
  bytes_per_bit_pow_ b' = bytes_per_bit_pow_ b → rnd_ b' = rnd_ b →
  start_bit b' s = start_bit b s.
Proof. unfold start_bit. by intros -> ->. Qed.

Lemma exclusive_end_bit_same b b' e :
  bytes_per_bit_pow_ b' = bytes_per_bit_pow_ b → rnd_ b' = rnd_ b →
  exclusive_end_bit b' e = exclusive_end_bit b e.
Proof. unfold exclusive_end_bit. by intros -> ->. Qed.

Lemma lor_land_same w m : Z.land (Z.lor w m) m = m.
Proof.
  apply Z.bits_inj'. intros j _. rewrite Z.land_spec, Z.lor_spec.
  by destruct (Z.testbit w j), (Z.testbit m j).
Qed.

Lemma lor_lor_same w m : Z.lor (Z.lor w m) m = Z.lor w m.
Proof. by rewrite <- Z.lor_assoc, Z.lor_diag. Qed.

(** [GetAndSet] on a bit it has set before returns true and changes
    nothing. *)
Lemma GetAndSet_again `{Build} i b was b' :
  GetAndSet i b = Ok (was, b') → GetAndSet i b' = Ok (true, b').
Proof.
  unfold GetAndSet.
  destruct (bitmap_ b !! Z.to_nat (i `div` kBitsPerEntry)) as [word|] eqn:Hw;
    [|discriminate].
  intros [= _ <-]. cbn [bitmap_ bytes_per_bit_pow_ rnd_ statistics_].
  rewrite list_lookup_insert_eq by (by eapply lookup_lt_Some).
  rewrite lor_land_same, lor_lor_same, list_insert_insert_eq.
  rewrite bit_mask_pow2.
  assert (0 ≤ i `mod` kBitsPerEntry < 32) as Hm
    by (apply Z.mod_pos_bound; reflexivity).
  assert (0 < 2 ^ (i `mod` kBitsPerEntry)) by (apply Z.pow_pos_nonneg; lia).
  rewrite bool_decide_eq_true_2 by lia. reflexivity.
Qed.

(** The ways in which a call of [Mark] returns. *)
Lemma Mark_cases `{Build} start_offset end_offset b b' :
  Mark start_offset end_offset b = Ok b' →
  assert (bool_decide (start_offset ≤ end_offset)) = Ok tt ∧
  ((exclusive_end_bit b end_offset ≤ start_bit b start_offset ∧ b' = b) ∨
   (start_bit b start_offset < exclusive_end_bit b end_offset ∧
    assert (bool_decide (0 < exclusive_end_bit b end_offset)) = Ok tt ∧
    ∃ was b1, GetAndSet (start_bit b start_offset) b = Ok (was, b1) ∧
      bytes_per_bit_pow_ b' = bytes_per_bit_pow_ b ∧
      rnd_ b' = rnd_ b ∧
      bitmap_ b' = bitmap_ b1)).
Proof.
  unfold Mark. intros HM.
  destruct (assert (bool_decide (start_offset ≤ end_offset))) as [[]|];
    [|discriminate HM].
  rewrite bind_Ok in HM. split; [done|].
  destruct (decide (exclusive_end_bit b end_offset ≤ start_bit b start_offset))
    as [Hno|Heff].
  { rewrite bool_decide_eq_true_2 in HM by done. injection HM as <-.
    by left. }
  rewrite bool_decide_eq_false_2 in HM by done.
  destruct (assert (bool_decide (0 < exclusive_end_bit b end_offset)))
    as [[]|]; [|discriminate HM].
  rewrite bind_Ok in HM.
  destruct (GetAndSet (start_bit b start_offset) b) as [[was b1]|] eqn:Hgs;
    [|discriminate HM].
  rewrite bind_Ok in HM. cbv beta iota in HM.
  right. split; [lia|]. split; [done|]. exists was, b1. split; [done|].
  unfold GetAndSet in Hgs.
  destruct (bitmap_ b !! Z.to_nat (start_bit b start_offset `div` kBitsPerEntry));
    [|discriminate Hgs].
  injection Hgs as _ <-.
  destruct was; injection HM as <-; cbn; done.
Qed.

(** A call of [Mark] that returned, repeated on the result, returns the
    result as it is. *)
Lemma Mark_again `{Build} start_offset end_offset b b' :
  Mark start_offset end_offset b = Ok b' →
  Mark start_offset end_offset b' = Ok b'.
Proof.
  intros HM.
  destruct (Mark_cases _ _ _ _ HM)
    as [Hse [[Hno ->]|(Heff & Hassert & was & b1 & Hgs & Hp & Hr & Hb)]];
    [done|].
  pose proof (GetAndSet_again _ _ _ _ Hgs) as Hagain.
  unfold Mark. rewrite Hse, bind_Ok.
  rewrite (start_bit_same b b' start_offset Hp Hr).
  rewrite (exclusive_end_bit_same b b' end_offset Hp Hr).
  rewrite bool_decide_eq_false_2 by lia.
  rewrite Hassert, bind_Ok.
  assert (GetAndSet (start_bit b start_offset) b' = Ok (true, b')) as ->.
  { unfold GetAndSet in Hagain |- *. rewrite Hb.
    destruct (bitmap_ b1 !! _); [|discriminate Hagain].
    injection Hagain as Ht Hb1. rewrite Ht. f_equal. f_equal.
    destruct b' as [bm pw rn st]. cbn in *. subst.
    f_equal. apply (f_equal bitmap_) in Hb1. exact Hb1. }
  reflexivity.
Qed.

(** [Mark] writes one bit at most, the first of the range, also when the
    range spans several bits: every other bit keeps its value.  And a call
    that returned, repeated on the result, changes neither the bitmap nor
    the tickers. *)
Theorem Mark_one_bit_and_again (build : Build)
    (start_offset end_offset : Z) (b b' : BlockReadAmpBitmap) :
  Mark start_offset end_offset b = Ok b' →
  (∀ j, 0 ≤ j → j ≠ start_bit b start_offset → bit b' j = bit b j) ∧
  Mark start_offset end_offset b' = Ok b'.
Proof.
  intros HM. split; [|by apply (Mark_again _ _ b)].
  destruct (Mark_cases _ _ _ _ HM)
    as [_ [[_ ->]|(_ & _ & was & b1 & Hgs & _ & _ & Hb)]]; [done|].
  pose proof (start_bit_nonneg b start_offset) as Hnn.
  assert (start_bit b start_offset `div` kBitsPerEntry
          < Z.of_nat (length (bitmap_ b))) as Hin.
  { unfold GetAndSet in Hgs.
    destruct (bitmap_ b !! Z.to_nat (start_bit b start_offset `div` kBitsPerEntry))
      eqn:Hw; [|discriminate Hgs].
    apply lookup_lt_Some in Hw.
    assert (0 ≤ start_bit b start_offset `div` kBitsPerEntry)
      by (apply Z.div_pos; [lia|reflexivity]).
    lia. }
  destruct (GetAndSet_spec (start_bit b start_offset) b Hnn Hin)
    as (b1' & Hgs' & _ & _ & _ & _ & Hbits).
  rewrite Hgs in Hgs'. injection Hgs' as _ <-.
  intros j Hj Hne. unfold bit. rewrite Hb.
  specialize (Hbits j Hj). unfold bit in Hbits. rewrite Hbits.
  rewrite (bool_decide_eq_false_2 (j = _)) by done. apply orb_false_r.
Qed.

(** An entry at the bytes 10 to 99 of a block with 32 bytes per bit spans
    the bits 1 to 3; the first call sets bit 1 only and counts 96 bytes, a
    second call counts nothing. *)
Lemma Mark_one_bit_and_again_witness :
  ∃ b0 b', @new debug 4096 32 Statistics_zero 0 = Ok b0 ∧
    @Mark debug 10 99 b0 = Ok b' ∧
    bit b' 1 = true ∧ bit b' 2 = false ∧ useful_bytes b' = 96 ∧
    @Mark debug 10 99 b' = Ok b'.
Proof.
  eexists. eexists. split; [vm_compute; reflexivity|].
  split; [vm_compute; reflexivity|].
  split; [vm_compute; reflexivity|].
  split; [vm_compute; reflexivity|].
  split; [vm_compute; reflexivity|].
  apply (Mark_one_bit_and_again debug 10 99
           {| bitmap_ := replicate 4 0; bytes_per_bit_pow_ := 5; rnd_ := 0;
              statistics_ := RecordTick_total 4096 Statistics_zero |}).
  vm_compute. reflexivity.
Defined.

End BlockReadAmpBitmap.

(* ===================================================================== *)
(** * table/block.h: the data-block iterator and the read-amp bitmap *)
(* ===================================================================== *)

Module DataBlockIter.
Import BlockIter.

(** The bitmap of a block is owned by the block and shared by the
    iterators over it: they hold a pointer to it.  Bitmaps live in a finite
    map from locations. *)
Abbreviation Bitmaps := (gmap positive BlockReadAmpBitmap.BlockReadAmpBitmap).

Module CachedPrevEntry.
Record t := {
  offset : Z;
  key_ptr : char_ptr;
  key_offset : Z;
  key_size : Z;
  value : Slice
}.
End CachedPrevEntry.

(** [DataBlockIter]: the base iterator and the members the class adds. *)
Record DataBlockIter := {
  base : BlockIter;
  read_amp_bitmap_ : option positive;
  last_bitmap_offset_ : Z;
  prev_entries_keys_buff_ : list Byte.byte;
  prev_entries_ : list CachedPrevEntry.t;
  prev_entries_idx_ : Z;
  data_block_hash_index_ : Z;
  user_comparator_ : Z
}.

Definition with_base (b : BlockIter) (it : DataBlockIter) : DataBlockIter :=
  {| base := b;
     read_amp_bitmap_ := read_amp_bitmap_ it;
     last_bitmap_offset_ := last_bitmap_offset_ it;
     prev_entries_keys_buff_ := prev_entries_keys_buff_ it;
     prev_entries_ := prev_entries_ it;
     prev_entries_idx_ := prev_entries_idx_ it;
     data_block_hash_index_ := data_block_hash_index_ it;
     user_comparator_ := user_comparator_ it |}.

Definition with_last_bitmap_offset (o : Z) (it : DataBlockIter)
    : DataBlockIter :=
  {| base := base it;
     read_amp_bitmap_ := read_amp_bitmap_ it;
     last_bitmap_offset_ := o;
     prev_entries_keys_buff_ := prev_entries_keys_buff_ it;
     prev_entries_ := prev_entries_ it;
     prev_entries_idx_ := prev_entries_idx_ it;
     data_block_hash_index_ := data_block_hash_index_ it;
     user_comparator_ := user_comparator_ it |}.


Section Operations.
Context `{Build}.


(** [value()]; the method is [const] and [last_bitmap_offset_] is
    [mutable], so the iterator is returned with the value, and so are the
    bitmaps. *)
Definition value (it : DataBlockIter) (bitmaps : Bitmaps)
    : Res (Slice * DataBlockIter * Bitmaps) :=
  _ ← assert (Valid (base it));
  match read_amp_bitmap_ it with
  | Some p =>
      if bool_decide (current_ (base it) < restarts_ (base it))
         && bool_decide (current_ (base it) ≠ last_bitmap_offset_ it)
      then
        match bitmaps !! p with
        | None => Err InvalidDeref
        | Some b =>
            b' ← BlockReadAmpBitmap.Mark (current_ (base it))
                   (uint32_t (NextEntryOffset (base it) - 1)) b;
            Ok (value_ (base it),
                with_last_bitmap_offset (current_ (base it)) it,
                <[p := b']> bitmaps)
        end
      else Ok (value_ (base it), it, bitmaps)
  | None => Ok (value_ (base it), it, bitmaps)
  end.


End Operations.

(** [value()] and the read-amp accounting.  The first call on an entry
    marks the bytes of the entry, from [current_] to the byte before the
    next entry, in the bitmap of the block and remembers the entry; asked
    again, the iterator does not touch the bitmap.  Another iterator over
    the same block that stands on the same entry marks the range again,
    which changes neither the bitmap nor the tickers: the useful bytes of
    an entry are counted once, however many iterators read it. *)
Theorem value_counts_entry_once (build : Build) (it it2 : DataBlockIter)
    (bitmaps : Bitmaps) (p : positive)
    (b b' : BlockReadAmpBitmap.BlockReadAmpBitmap) :
  read_amp_bitmap_ it = Some p →
  bitmaps !! p = Some b →
  Valid (base it) = true →
  current_ (base it) ≠ last_bitmap_offset_ it →
  BlockReadAmpBitmap.Mark (current_ (base it))
    (uint32_t (NextEntryOffset (base it) - 1)) b = Ok b' →
  read_amp_bitmap_ it2 = Some p →
  current_ (base it2) = current_ (base it) →
  restarts_ (base it2) = restarts_ (base it) →
  NextEntryOffset (base it2) = NextEntryOffset (base it) →
  value it bitmaps
    = Ok (value_ (base it),
          with_last_bitmap_offset (current_ (base it)) it,
          <[p := b']> bitmaps) ∧
  value (with_last_bitmap_offset (current_ (base it)) it) (<[p := b']> bitmaps)
    = Ok (value_ (base it),
          with_last_bitmap_offset (current_ (base it)) it,
          <[p := b']> bitmaps) ∧
  value it2 (<[p := b']> bitmaps)
    = Ok (value_ (base it2),
          with_last_bitmap_offset (current_ (base it2)) it2,
          <[p := b']> bitmaps).
Proof.
  intros Hp Hb Hvalid Hfirst HM Hp2 Hc2 Hr2 Hn2.
  assert (current_ (base it) < restarts_ (base it)) as Hlt.
  { unfold Valid in Hvalid. by apply bool_decide_eq_true in Hvalid. }
  split_and!.
  - unfold value. rewrite Hvalid, assert_true, bind_Ok, Hp.
    rewrite (bool_decide_eq_true_2 (_ < _)) by done.
    rewrite (bool_decide_eq_true_2 (_ ≠ _)) by done.
    cbn [andb]. rewrite Hb, HM, bind_Ok. reflexivity.
  - unfold value. cbn [base with_last_bitmap_offset read_amp_bitmap_
                       last_bitmap_offset_].
    rewrite Hvalid, assert_true, bind_Ok, Hp.
    rewrite (bool_decide_eq_false_2 (_ ≠ _)) by (intros Hne; by apply Hne).
    rewrite andb_false_r. reflexivity.
  - unfold value.
    assert (Valid (base it2) = true) as ->.
    { unfold Valid. rewrite Hc2, Hr2. by apply bool_decide_eq_true. }
    rewrite assert_true, bind_Ok, Hp2, Hc2, Hr2, Hn2.
    rewrite (bool_decide_eq_true_2 (_ < _)) by done. cbn [andb].
    destruct (decide (current_ (base it) = last_bitmap_offset_ it2)) as [Heq|Hne].
    + rewrite (bool_decide_eq_false_2 (_ ≠ _)) by (intros Hne; by apply Hne).
      f_equal. f_equal. f_equal. destruct it2. cbn in *. by subst.
    + rewrite (bool_decide_eq_true_2 (_ ≠ _)) by done.
      rewrite lookup_insert_eq.
      rewrite (BlockReadAmpBitmap.Mark_again _ _ _ _ HM).
      rewrite bind_Ok. by rewrite insert_insert_eq.
Qed.

(** An entry of a block at address 4096: it starts at offset 10 and its
    value ends at offset 100; the block has its restart array at offset
    3000. *)
Definition at_entry (last : Z) : DataBlockIter :=
  {| base := {| comparator_ := 7; data_ := 4096; num_restarts_ := 1;
                restart_index_ := 0; restarts_ := 3000; current_ := 10;
                key_ := {| key_bytes := []; is_user_key := false |};
                value_ := {| data := 4096 + 20; size := 80 |};
                status_ := StatusOK; key_pinned_ := false;
                block_contents_pinned_ := false; global_seqno_ := 0 |};
     read_amp_bitmap_ := Some 1%positive;
     last_bitmap_offset_ := last;
     prev_entries_keys_buff_ := []; prev_entries_ := [];
     prev_entries_idx_ := -1; data_block_hash_index_ := 0;
     user_comparator_ := 8 |}.

Definition bitmap_of (words : list Z) (useful : Z)
    : BlockReadAmpBitmap.BlockReadAmpBitmap :=
  {| BlockReadAmpBitmap.bitmap_ := words;
     BlockReadAmpBitmap.bytes_per_bit_pow_ := 5;
     BlockReadAmpBitmap.rnd_ := 0;
     BlockReadAmpBitmap.statistics_ :=
       {| BlockReadAmpBitmap.READ_AMP_TOTAL_READ_BYTES := 4096;
          BlockReadAmpBitmap.READ_AMP_ESTIMATE_USEFUL_BYTES := useful |} |}.

Lemma value_counts_entry_once_witness :
  @value debug (at_entry 3001) {[1%positive := bitmap_of [0; 0; 0; 0] 0]}
    = Ok ({| data := 4096 + 20; size := 80 |}, at_entry 10,
          {[1%positive := bitmap_of [2; 0; 0; 0] 96]}) ∧
  @value debug (at_entry 0) {[1%positive := bitmap_of [2; 0; 0; 0] 96]}
    = Ok ({| data := 4096 + 20; size := 80 |}, at_entry 10,
          {[1%positive := bitmap_of [2; 0; 0; 0] 96]}).
Proof.
  destruct (value_counts_entry_once debug (at_entry 3001) (at_entry 0)
              {[1%positive := bitmap_of [0; 0; 0; 0] 0]} 1%positive
              (bitmap_of [0; 0; 0; 0] 0) (bitmap_of [2; 0; 0; 0] 96))
    as (H1 & _ & H2); try reflexivity.
  - discriminate.
  - split.
    + rewrite H1. reflexivity.
    + etrans; [|etrans; [exact H2|]]; reflexivity.
Defined.



End DataBlockIter.

(* ===================================================================== *)
(** * db/write_thread.cc: the group-commit coordinator *)
(* ===================================================================== *)

Module WriteThread.

(** Objects reached through pointers ([Writer], [WriteGroup]) live in
    finite maps from locations; a nullable pointer is an optional
    location. *)
Abbreviation loc := positive.

(** Modelled from the spec: the writer states are a bitmask of powers of
    two; the enumerators and their values are those of [db/write_thread.h],
    which is not among the sources. *)
Definition STATE_INIT : Z := 1.
Definition STATE_MEMTABLE_WRITER_LEADER : Z := 4.
Definition STATE_COMPLETED : Z := 16.
Definition STATE_LOCKED_WAITING : Z := 32.

(** What the coordinator asks of a [WriteBatch]
    ([WriteBatchInternal::ByteSize], [WriteBatchInternal::Count],
    [WriteBatch::HasMerge]) and of a [WriteCallback]. *)
Record WriteBatch := { ByteSize : Z; Count : Z; HasMerge : bool }.
Record WriteCallback := { AllowWriteBatching : bool }.

Module Writer.
Record t := {
  batch : option WriteBatch;
  sync : bool;
  no_slowdown : bool;
  disable_wal : bool;
  disable_memtable : bool;
  callback : option WriteCallback;
  sequence : Z;
  status : Status;
  state : Z;
  write_group : option loc;
  link_older : option loc;
  link_newer : option loc
}.

Definition set_status (s : Status) (w : t) : t :=
  {| batch := batch w; sync := sync w; no_slowdown := no_slowdown w;
     disable_wal := disable_wal w; disable_memtable := disable_memtable w;
     callback := callback w; sequence := sequence w; status := s;
     state := state w; write_group := write_group w;
     link_older := link_older w; link_newer := link_newer w |}.

Definition set_state (s : Z) (w : t) : t :=
  {| batch := batch w; sync := sync w; no_slowdown := no_slowdown w;
     disable_wal := disable_wal w; disable_memtable := disable_memtable w;
     callback := callback w; sequence := sequence w; status := status w;
     state := s; write_group := write_group w;
     link_older := link_older w; link_newer := link_newer w |}.

Definition set_write_group (g : option loc) (w : t) : t :=
  {| batch := batch w; sync := sync w; no_slowdown := no_slowdown w;
     disable_wal := disable_wal w; disable_memtable := disable_memtable w;
     callback := callback w; sequence := sequence w; status := status w;
     state := state w; write_group := g;
     link_older := link_older w; link_newer := link_newer w |}.

Definition set_link_older (p : option loc) (w : t) : t :=
  {| batch := batch w; sync := sync w; no_slowdown := no_slowdown w;
     disable_wal := disable_wal w; disable_memtable := disable_memtable w;
     callback := callback w; sequence := sequence w; status := status w;
     state := state w; write_group := write_group w;
     link_older := p; link_newer := link_newer w |}.

Definition set_link_newer (p : option loc) (w : t) : t :=
  {| batch := batch w; sync := sync w; no_slowdown := no_slowdown w;
     disable_wal := disable_wal w; disable_memtable := disable_memtable w;
     callback := callback w; sequence := sequence w; status := status w;
     state := state w; write_group := write_group w;
     link_older := link_older w; link_newer := p |}.

(** A writer as its constructor leaves it: state [STATE_INIT], no links,
    no group. *)
Definition make (b : option WriteBatch) (sync_ no_slowdown_ disable_wal_ : bool)
    (cb : option WriteCallback) : t :=
  {| batch := b; sync := sync_; no_slowdown := no_slowdown_;
     disable_wal := disable_wal_; disable_memtable := false;
     callback := cb; sequence := 0; status := StatusOK;
     state := STATE_INIT; write_group := None;
     link_older := None; link_newer := None |}.
End Writer.

Module WriteGroup.
Record t := {
  leader : option loc;
  last_writer : option loc;
  last_sequence : Z;
  status : Status;
  running : Z;
  size : Z
}.

Definition empty : t :=
  {| leader := None; last_writer := None; last_sequence := 0;
     status := StatusOK; running := 0; size := 0 |}.
End WriteGroup.

(** The coordinator: its options, the two list heads, and the memory the
    list heads point into.  [write_stall_dummy_] is the location of the
    member of that name. *)
Record WriteThread := {
  max_yield_usec_ : Z;
  slow_yield_usec_ : Z;
  allow_concurrent_memtable_write_ : bool;
  enable_pipelined_write_ : bool;
  newest_writer_ : option loc;
  newest_memtable_writer_ : option loc;
  last_sequence_ : Z;
  write_stall_dummy_ : loc;
  writers : gmap loc Writer.t;
  groups : gmap loc WriteGroup.t
}.

Definition with_writers (h : gmap loc Writer.t) (t : WriteThread) : WriteThread :=
  {| max_yield_usec_ := max_yield_usec_ t;
     slow_yield_usec_ := slow_yield_usec_ t;
     allow_concurrent_memtable_write_ := allow_concurrent_memtable_write_ t;
     enable_pipelined_write_ := enable_pipelined_write_ t;
     newest_writer_ := newest_writer_ t;
     newest_memtable_writer_ := newest_memtable_writer_ t;
     last_sequence_ := last_sequence_ t;
     write_stall_dummy_ := write_stall_dummy_ t;
     writers := h;
     groups := groups t |}.

Definition with_groups (gs : gmap loc WriteGroup.t) (t : WriteThread) : WriteThread :=
  {| max_yield_usec_ := max_yield_usec_ t;
     slow_yield_usec_ := slow_yield_usec_ t;
     allow_concurrent_memtable_write_ := allow_concurrent_memtable_write_ t;
     enable_pipelined_write_ := enable_pipelined_write_ t;
     newest_writer_ := newest_writer_ t;
     newest_memtable_writer_ := newest_memtable_writer_ t;
     last_sequence_ := last_sequence_ t;
     write_stall_dummy_ := write_stall_dummy_ t;
     writers := writers t;
     groups := gs |}.

Definition with_newest_writer (p : option loc) (t : WriteThread) : WriteThread :=
  {| max_yield_usec_ := max_yield_usec_ t;
     slow_yield_usec_ := slow_yield_usec_ t;
     allow_concurrent_memtable_write_ := allow_concurrent_memtable_write_ t;
     enable_pipelined_write_ := enable_pipelined_write_ t;
     newest_writer_ := p;
     newest_memtable_writer_ := newest_memtable_writer_ t;
     last_sequence_ := last_sequence_ t;
     write_stall_dummy_ := write_stall_dummy_ t;
     writers := writers t;
     groups := groups t |}.

(** Code of the coordinator: a state transformer that can fail. *)
Definition M (A : Type) : Type := WriteThread → Res (A * WriteThread).

#[global] Instance M_ret : MRet M := fun A a t => Ok (a, t).
#[global] Instance M_bind : MBind M := fun A B k m t =>
  match m t with
  | Ok (a, t') => k a t'
  | Err f => Err f
  end.

Definition fail {A} (f : Fault) : M A := fun _ => Err f.
Definition lift {A} (r : Res A) : M A := fun t =>
  match r with Ok a => Ok (a, t) | Err f => Err f end.

(** Dereference of a [Writer] pointer, for reading and for writing. *)
Definition deref (p : option loc) : M Writer.t := fun t =>
  match p with
  | None => Err InvalidDeref
  | Some l =>
      match writers t !! l with
      | Some w => Ok (w, t)
      | None => Err InvalidDeref
      end
  end.

Definition update (p : option loc) (f : Writer.t → Writer.t) : M unit := fun t =>
  match p with
  | None => Err InvalidDeref
  | Some l =>
      match writers t !! l with
      | Some w => Ok (tt, with_writers (<[l := f w]> (writers t)) t)
      | None => Err InvalidDeref
      end
  end.

Definition deref_group (g : loc) : M WriteGroup.t := fun t =>
  match groups t !! g with
  | Some wg => Ok (wg, t)
  | None => Err InvalidDeref
  end.

Definition update_group (g : loc) (f : WriteGroup.t → WriteGroup.t) : M unit :=
  fun t =>
  match groups t !! g with
  | Some wg => Ok (tt, with_groups (<[g := f wg]> (groups t)) t)
  | None => Err InvalidDeref
  end.

Section Operations.
Context `{Build}.

(** [SetState]: without concurrent writes to the state word the
    compare-exchange succeeds unless the writer is blocked in
    [STATE_LOCKED_WAITING], where the new state is stored under the
    writer's mutex and the condition variable is notified. *)
Definition SetState (w : option loc) (new_state : Z) : M unit :=
  wr ← deref w;
  if bool_decide (Writer.state wr = STATE_LOCKED_WAITING) then
    _ ← lift (assert (bool_decide (Writer.state wr ≠ new_state)));
    update w (Writer.set_state new_state)
  else update w (Writer.set_state new_state).

Fixpoint CreateMissingNewerLinks (fuel : nat) (head : option loc) : M unit :=
  match fuel with
  | O => fail OutOfFuel
  | S fuel' =>
      hw ← deref head;
      let next := Writer.link_older hw in
      match next with
      | None => mret tt
      | Some _ =>
          nw ← deref next;
          match Writer.link_newer nw with
          | Some _ =>
              _ ← lift (assert (bool_decide (Writer.link_newer nw = head)));
              mret tt
          | None =>
              _ ← update next (Writer.set_link_newer head);
              CreateMissingNewerLinks fuel' next
          end
      end
  end.

(** The limit on the bytes of a group led by a batch of [size] bytes. *)
Definition max_group_size (size : Z) : Z :=
  if bool_decide (size ≤ Z.shiftl 128 10) then size_t (size + Z.shiftl 128 10)
  else Z.shiftl 1 20.

(** The tests of the loop of [EnterAsBatchGroupLeader] that end the group
    before the writer [w], in the order of the source; [size] is the byte
    size of the group so far. *)
Definition ends_group (leader w : Writer.t) (size max_size : Z) : bool :=
  if Writer.sync w && negb (Writer.sync leader) then true
  else if negb (bool_decide (Writer.no_slowdown w = Writer.no_slowdown leader))
  then true
  else if negb (Writer.disable_wal w) && Writer.disable_wal leader then true
  else
    match Writer.batch w with
    | None => true
    | Some b =>
        if match Writer.callback w with
           | Some cb => negb (AllowWriteBatching cb)
           | None => false
           end
        then true
        else bool_decide (max_size < size_t (size + ByteSize b))
    end.

(** The loop of [EnterAsBatchGroupLeader], from the writer [w] up to
    [newest_writer]. *)
Fixpoint EnterAsBatchGroupLeader_loop (fuel : nat)
    (leader : option loc) (write_group : loc) (newest_writer : option loc)
    (max_size : Z) (w : option loc) (size : Z) : M Z :=
  if bool_decide (w = newest_writer) then mret size
  else
    match fuel with
    | O => fail OutOfFuel
    | S fuel' =>
        wr ← deref w;
        let w := Writer.link_newer wr in
        wr ← deref w;
        lr ← deref leader;
        if ends_group lr wr size max_size then mret size
        else
          batch ← lift (match Writer.batch wr with
                        | Some b => Ok b
                        | None => Err InvalidDeref
                        end);
          let batch_size := ByteSize batch in
          _ ← update w (Writer.set_write_group (Some write_group));
          let size := size_t (size + batch_size) in
          _ ← update_group write_group (fun wg =>
                {| WriteGroup.leader := WriteGroup.leader wg;
                   WriteGroup.last_writer := w;
                   WriteGroup.last_sequence := WriteGroup.last_sequence wg;
                   WriteGroup.status := WriteGroup.status wg;
                   WriteGroup.running := WriteGroup.running wg;
                   WriteGroup.size := size_t (WriteGroup.size wg + 1) |});
          EnterAsBatchGroupLeader_loop fuel' leader write_group newest_writer
            max_size w size
    end.

Definition EnterAsBatchGroupLeader (fuel : nat) (leader : option loc)
    (write_group : loc) : M Z :=
  lr ← deref leader;
  _ ← lift (assert (bool_decide (Writer.link_older lr = None)));
  _ ← lift (assert (bool_decide (Writer.batch lr ≠ None)));
  batch ← lift (match Writer.batch lr with
                | Some b => Ok b
                | None => Err InvalidDeref
                end);
  let size := ByteSize batch in
  let max_size := max_group_size size in
  _ ← update leader (Writer.set_write_group (Some write_group));
  _ ← update_group write_group (fun wg =>
        {| WriteGroup.leader := leader;
           WriteGroup.last_writer := leader;
           WriteGroup.last_sequence := WriteGroup.last_sequence wg;
           WriteGroup.status := WriteGroup.status wg;
           WriteGroup.running := WriteGroup.running wg;
           WriteGroup.size := 1 |});
  newest_writer ← (fun t => Ok (newest_writer_ t, t));
  _ ← CreateMissingNewerLinks fuel newest_writer;
  EnterAsBatchGroupLeader_loop fuel leader write_group newest_writer
    max_size leader size.

End Operations.

(** ** Symbolic execution of the monadic code *)

Lemma bind_M {A B} (m : M A) (k : A → M B) t :
  (m ≫= k) t = match m t with Ok (a, t') => k a t' | Err f => Err f end.
Proof. reflexivity. Qed.

Lemma deref_Some t l w :
  writers t !! l = Some w → deref (Some l) t = Ok (w, t).
Proof. intros Hl. unfold deref. by rewrite Hl. Qed.

Lemma update_Some t l w f :
  writers t !! l = Some w →
  update (Some l) f t = Ok (tt, with_writers (<[l := f w]> (writers t)) t).
Proof. intros Hl. unfold update. by rewrite Hl. Qed.

Lemma lift_Ok {A} (a : A) t : lift (Ok a) t = Ok (a, t).
Proof. reflexivity. Qed.

Lemma WriteThread_eq (a b : WriteThread) :
  max_yield_usec_ a = max_yield_usec_ b →
  slow_yield_usec_ a = slow_yield_usec_ b →
  allow_concurrent_memtable_write_ a = allow_concurrent_memtable_write_ b →
  enable_pipelined_write_ a = enable_pipelined_write_ b →
  newest_writer_ a = newest_writer_ b →
  newest_memtable_writer_ a = newest_memtable_writer_ b →
  last_sequence_ a = last_sequence_ b →
  write_stall_dummy_ a = write_stall_dummy_ b →
  writers a = writers b →
  groups a = groups b →
  a = b.
Proof. destruct a, b. cbn. by intros -> -> -> -> -> -> -> -> -> ->. Qed.

Lemma with_writers_id t : with_writers (writers t) t = t.
Proof. by destruct t. Qed.

Lemma with_groups_id t : with_groups (groups t) t = t.
Proof. by destruct t. Qed.

(** ** The queue of writers *)

(** The node older than the node at index [i] of a chain (oldest first). *)
Definition older_of (chain : list loc) (i : nat) : option loc :=
  match i with O => None | S i' => chain !! i' end.

(** The writers at the locations of [chain], oldest first, are linked
    through [link_older]; the nodes below index [m] and from index [j] on
    have their [link_newer], the nodes between have none yet. *)
Record linked (h : gmap loc Writer.t) (chain : list loc) (m j : nat) : Prop := {
  linked_NoDup : NoDup chain;
  linked_nodes : ∀ i p, chain !! i = Some p →
    ∃ w, h !! p = Some w ∧
         Writer.link_older w = older_of chain i ∧
         Writer.link_newer w =
           if bool_decide (i < m ∨ j ≤ i)%nat then chain !! S i else None
}.

(** [w'] is [w] up to its [link_newer]. *)
Definition same_but_newer (o o' : option Writer.t) : Prop :=
  match o, o' with
  | Some w, Some w' => w' = Writer.set_link_newer (Writer.link_newer w') w
  | None, None => True
  | _, _ => False
  end.

Lemma same_but_newer_refl o : same_but_newer o o.
Proof. destruct o as [[]|]; done. Qed.

Lemma same_but_newer_trans o1 o2 o3 :
  same_but_newer o1 o2 → same_but_newer o2 o3 → same_but_newer o1 o3.
Proof.
  destruct o1 as [w1|], o2 as [w2|], o3 as [w3|]; cbn; try done.
  intros -> ->. done.
Qed.

Lemma NoDup_lookup_inj (chain : list loc) i j p :
  NoDup chain → chain !! i = Some p → chain !! j = Some p → i = j.
Proof. intros Hnd. by apply NoDup_lookup. Qed.

Lemma CreateMissingNewerLinks_spec `{Build} chain m : ∀ j fuel head t,
  linked (writers t) chain m j →
  chain !! j = Some head →
  (j < fuel)%nat →
  ∃ h', CreateMissingNewerLinks fuel (Some head) t = Ok (tt, with_writers h' t) ∧
        linked h' chain (length chain) 0 ∧
        (∀ p, same_but_newer (writers t !! p) (h' !! p)) ∧
        (∀ p, p ∉ chain → h' !! p = writers t !! p).
Proof.
  induction j as [|j IH]; intros fuel head t [Hnd Hnodes] Hhead Hfuel;
    (destruct fuel as [|fuel]; [lia|]); cbn [CreateMissingNewerLinks].
  - destruct (Hnodes 0%nat head Hhead) as (hw & Hhw & Hold & _).
    rewrite bind_M, (deref_Some _ _ _ Hhw). cbn in Hold. rewrite Hold.
    exists (writers t). split; [by rewrite with_writers_id|]. split_and!; [|intros p; apply same_but_newer_refl|done].
    split; [done|]. intros i p Hp.
    destruct (Hnodes i p Hp) as (w & Hw & Ho & Hn). exists w.
    split; [done|]. split; [done|]. rewrite Hn.
    rewrite !bool_decide_eq_true_2 by lia. done.
  - destruct (Hnodes (S j) head Hhead) as (hw & Hhw & Hold & _).
    rewrite bind_M, (deref_Some _ _ _ Hhw). cbn in Hold. rewrite Hold.
    destruct (chain !! j) as [next|] eqn:Hnext;
      [|apply lookup_lt_Some in Hhead; apply lookup_ge_None in Hnext; lia].
    destruct (Hnodes j next Hnext) as (nw & Hnw & Hnold & Hnnew).
    rewrite bind_M, (deref_Some _ _ _ Hnw).
    destruct (decide (j < m)%nat) as [Hjm|Hjm].
    + rewrite bool_decide_eq_true_2 in Hnnew by lia.
      rewrite Hnnew, Hhead. rewrite bind_M.
      rewrite (bool_decide_eq_true_2 (Some head = Some head)) by done.
      rewrite assert_true. cbn.
      exists (writers t). split; [by rewrite with_writers_id|].
      split_and!; [|intros p; apply same_but_newer_refl|done].
      split; [done|]. intros i p Hp.
      destruct (Hnodes i p Hp) as (w & Hw & Ho & Hn). exists w.
      split; [done|]. split; [done|]. rewrite Hn.
      rewrite (bool_decide_eq_true_2 (_ ∨ (0 ≤ i)%nat)) by lia.
      rewrite bool_decide_eq_true_2 by lia. done.
    + rewrite bool_decide_eq_false_2 in Hnnew by lia. rewrite Hnnew.
      rewrite bind_M, (update_Some _ _ _ _ Hnw).
      set (t1 := with_writers _ t).
      destruct (IH fuel next t1) as (h' & Hrun & Hlinked & Hsame & Hframe);
        [|done|lia|].
      * split; [done|]. intros i p Hp. cbn.
        destruct (decide (p = next)) as [->|Hne].
        -- assert (i = j) as -> by (by eapply NoDup_lookup_inj).
           rewrite lookup_insert_eq. eexists. split; [done|]. cbn.
           split; [done|]. rewrite bool_decide_eq_true_2 by lia. done.
        -- rewrite lookup_insert_ne by done.
           destruct (Hnodes i p Hp) as (w & Hw & Ho & Hn). exists w.
           split; [done|]. split; [done|]. rewrite Hn.
           assert (i ≠ j) by (intros ->; congruence).
           destruct (decide (i < m ∨ S j ≤ i)%nat).
           ++ rewrite !bool_decide_eq_true_2 by lia. done.
           ++ rewrite !bool_decide_eq_false_2 by lia. done.
      * exists h'. split_and!; [|done| |].
        -- rewrite Hrun. reflexivity.
        -- intros p. eapply same_but_newer_trans; [|apply Hsame].
           cbn. destruct (decide (p = next)) as [->|Hne].
           ++ rewrite lookup_insert_eq, Hnw. by destruct nw.
           ++ rewrite lookup_insert_ne by done. apply same_but_newer_refl.
        -- intros p Hp. rewrite Hframe by done. cbn.
           apply lookup_insert_ne. intros ->. apply Hp.
           by eapply list_elem_of_lookup_2.
Qed.

(** ** The group the leader builds, on the list of followers *)

Definition batch_size (w : Writer.t) : Z :=
  match Writer.batch w with Some b => ByteSize b | None => 0 end.


(** The writers at [ps] join the group [g]. *)
Definition join (g : loc) (ps : list loc) (h : gmap loc Writer.t)
    : gmap loc Writer.t :=
  foldl (fun h p => alter (Writer.set_write_group (Some g)) p h) h ps.


Lemma join_cons g q ps h :
  join g (q :: ps) h = join g ps (alter (Writer.set_write_group (Some g)) q h).
Proof. reflexivity. Qed.

Lemma lookup_join g ps : ∀ h p,
  join g ps h !! p =
  if decide (p ∈ ps) then Writer.set_write_group (Some g) <$> h !! p else h !! p.
Proof.
  induction ps as [|q ps IH]; intros h p.
  - rewrite decide_False by apply not_elem_of_nil. done.
  - rewrite join_cons, IH. destruct (decide (p = q)) as [->|Hne].
    + rewrite lookup_alter_eq, (decide_True (P := q ∈ q :: ps)) by left.
      destruct (decide (q ∈ ps)); [|done].
      destruct (h !! q) as [[]|]; done.
    + rewrite lookup_alter_ne by done.
      destruct (decide (p ∈ ps)).
      * rewrite decide_True by (by right). done.
      * rewrite decide_False; [done|]. by intros [?|?]%elem_of_cons.
Qed.

Lemma insert_alter_eq (h : gmap loc Writer.t) l w f :
  h !! l = Some w → <[l := f w]> h = alter f l h.
Proof.
  intros Hl. apply map_eq. intros p. destruct (decide (p = l)) as [->|Hne].
  - by rewrite lookup_insert_eq, lookup_alter_eq, Hl.
  - by rewrite lookup_insert_ne, lookup_alter_ne.
Qed.

Lemma linked_alter_write_group h chain m j g p :
  linked h chain m j →
  linked (alter (Writer.set_write_group g) p h) chain m j.
Proof.
  intros [Hnd Hnodes]. split; [done|]. intros i q Hq.
  destruct (Hnodes i q Hq) as (w & Hw & Ho & Hn).
  destruct (decide (q = p)) as [->|Hne].
  - rewrite lookup_alter_eq, Hw. cbn. eauto.
  - rewrite lookup_alter_ne by done. eauto.
Qed.


(** ** [EnterAsBatchGroupLeader] on a well-formed queue *)








(** ** The queue after [CreateMissingNewerLinks] *)

Lemma linked_last h chain m :
  linked h chain m (length chain) → linked h chain m (Nat.pred (length chain)).
Proof.
  intros [Hnd Hnodes]. split; [done|]. intros i p Hp.
  destruct (Hnodes i p Hp) as (w & Hw & Ho & Hn). exists w.
  split; [done|]. split; [done|]. rewrite Hn.
  apply lookup_lt_Some in Hp as Hlt.
  destruct (decide (i < m)%nat).
  - rewrite !bool_decide_eq_true_2 by lia. done.
  - rewrite bool_decide_eq_false_2 by lia.
    destruct (decide (Nat.pred (length chain) ≤ i)%nat).
    + rewrite bool_decide_eq_true_2 by lia.
      symmetry. apply lookup_ge_None. lia.
    + rewrite bool_decide_eq_false_2 by lia. done.
Qed.

(** [CreateMissingNewerLinks], called on the newest writer of a queue that
    is linked through [link_older] and whose [m] oldest writers already
    have their [link_newer], returns when it is given at least as many
    steps as the queue has writers; afterwards the [link_newer] of every
    writer of the queue is the next newer writer (none for the newest), and
    nothing else has changed: no other field, no writer outside the queue,
    no list head, no group. *)
Theorem CreateMissingNewerLinks_links (build : Build)
    (chain : list loc) (m fuel : nat) (head : loc) (t : WriteThread) :
  linked (writers t) chain m (length chain) →
  last chain = Some head →
  (length chain ≤ fuel)%nat →
  ∃ t', CreateMissingNewerLinks fuel (Some head) t = Ok (tt, t') ∧
        newest_writer_ t' = newest_writer_ t ∧
        groups t' = groups t ∧
        (∀ i p, chain !! i = Some p →
           ∃ w, writers t !! p = Some w ∧
                writers t' !! p
                  = Some (Writer.set_link_newer (chain !! S i) w)) ∧
        (∀ p, p ∉ chain → writers t' !! p = writers t !! p).
Proof.
  intros Hlinked Hlast Hfuel.
  rewrite last_lookup in Hlast.
  apply lookup_lt_Some in Hlast as Hlt.
  destruct (CreateMissingNewerLinks_spec chain m (Nat.pred (length chain))
              fuel head t (linked_last _ _ _ Hlinked) Hlast)
    as (h' & Hrun & Hlinked' & Hsame & Hframe); [lia|].
  exists (with_writers h' t). split; [done|]. split; [done|]. split; [done|].
  split; [|done]. intros i p Hp.
  destruct (linked_nodes _ _ _ _ Hlinked i p Hp) as (w & Hw & _).
  destruct (linked_nodes _ _ _ _ Hlinked' i p Hp) as (w' & Hw' & _ & Hn).
  rewrite bool_decide_eq_true_2 in Hn by lia.
  exists w. split; [done|]. cbn [writers with_writers]. rewrite Hw'.
  specialize (Hsame p). rewrite Hw, Hw' in Hsame. cbn in Hsame.
  by rewrite Hsame, Hn.
Qed.

(** A decision procedure for [linked], to check concrete queues. *)
Definition node_linkedb (h : gmap loc Writer.t) (chain : list loc) (m j : nat)
    (i : nat) (p : loc) : bool :=
  match h !! p with
  | Some w =>
      bool_decide (Writer.link_older w = older_of chain i) &&
      bool_decide (Writer.link_newer w =
                   if bool_decide (i < m ∨ j ≤ i)%nat then chain !! S i else None)
  | None => false
  end.

Definition linkedb (h : gmap loc Writer.t) (chain : list loc) (m j : nat) : bool :=
  bool_decide (NoDup chain) && forallb id (imap (node_linkedb h chain m j) chain).

Lemma linkedb_linked h chain m j : linkedb h chain m j = true → linked h chain m j.
Proof.
  unfold linkedb. intros [Hnd Hall]%andb_true_iff.
  apply bool_decide_eq_true in Hnd. split; [done|]. intros i p Hp.
  rewrite forallb_forall in Hall.
  assert (node_linkedb h chain m j i p = true) as Hnode.
  { apply (Hall (node_linkedb h chain m j i p)).
    apply list_elem_of_In, elem_of_lookup_imap. eauto. }
  unfold node_linkedb in Hnode. destruct (h !! p) as [w|]; [|done].
  apply andb_true_iff in Hnode as [Ho Hn].
  apply bool_decide_eq_true in Ho. apply bool_decide_eq_true in Hn. eauto.
Qed.

(** A coordinator with an empty queue, and writers to fill it with. *)
Definition idle : WriteThread :=
  {| max_yield_usec_ := 0; slow_yield_usec_ := 3;
     allow_concurrent_memtable_write_ := false;
     enable_pipelined_write_ := false;
     newest_writer_ := None; newest_memtable_writer_ := None;
     last_sequence_ := 0; write_stall_dummy_ := 1%positive;
     writers := ∅; groups := ∅ |}.

Definition put (bytes : Z) (sync_ no_slowdown_ : bool) (older newer : option loc)
    : Writer.t :=
  Writer.set_link_newer newer
    (Writer.set_link_older older
       (Writer.make (Some {| ByteSize := bytes; Count := 1; HasMerge := false |})
          sync_ no_slowdown_ false None)).

(** Three writers at locations 2, 3 and 4, enqueued in that order; an
    earlier pass has linked the oldest to its successor. *)
Definition three_writers : WriteThread :=
  with_newest_writer (Some 4%positive)
    (with_writers
       (<[2%positive := put 500 true false None (Some 3%positive)]>
          (<[3%positive := put 600 true false (Some 2%positive) None]>
             (<[4%positive := put 700 true false (Some 3%positive) None]> ∅)))
       idle).

Lemma CreateMissingNewerLinks_links_witness :
  ∃ t', @CreateMissingNewerLinks debug 3 (Some 4%positive) three_writers
          = Ok (tt, t') ∧
        Writer.link_newer <$> writers t' !! 3%positive = Some (Some 4%positive).
Proof.
  destruct (CreateMissingNewerLinks_links debug [2; 3; 4]%positive 1 3
              4%positive three_writers) as (t' & Hrun & _ & _ & Hn & _).
  - apply linkedb_linked. vm_compute. reflexivity.
  - reflexivity.
  - cbn. lia.
  - exists t'. split; [exact Hrun|].
    destruct (Hn 1%nat 3%positive eq_refl) as (w & Hw & ->). reflexivity.
Defined.

(** ** The group [EnterAsBatchGroupLeader] builds *)

(** The bytes of a group that starts at [size] bytes and is joined by
    [ws], as [size_t] arithmetic adds them up. *)
Definition group_bytes (size : Z) (ws : list Writer.t) : Z :=
  foldl (fun s w => size_t (s + batch_size w)) size ws.





(** The three writers of 500, 600 and 700 bytes, with a group object at
    location 9. *)
Definition three_writers_and_group : WriteThread :=
  with_groups (<[9%positive := WriteGroup.empty]> ∅) three_writers.


(** All three join one group of 1800 bytes. *)
Example three_writers_one_group :
  match @EnterAsBatchGroupLeader debug 3 (Some 2%positive) 9%positive
          three_writers_and_group with
  | Ok (size, t') =>
      Some (size, WriteGroup.size <$> groups t' !! 9%positive,
            WriteGroup.last_writer <$> groups t' !! 9%positive)
  | Err _ => None
  end = Some (1800, Some 3, Some (Some 4%positive)).
Proof. vm_compute. reflexivity. Qed.


(** ** Leader hand-off *)

(** The two atomic list heads, and the operations of [std::atomic] the
    coordinator uses on them, executed without interleaved steps of other
    threads. *)
Inductive Head := NewestWriter | NewestMemtableWriter.

Definition with_newest_memtable_writer (p : option loc) (t : WriteThread)
    : WriteThread :=
  {| max_yield_usec_ := max_yield_usec_ t;
     slow_yield_usec_ := slow_yield_usec_ t;
     allow_concurrent_memtable_write_ := allow_concurrent_memtable_write_ t;
     enable_pipelined_write_ := enable_pipelined_write_ t;
     newest_writer_ := newest_writer_ t;
     newest_memtable_writer_ := p;
     last_sequence_ := last_sequence_ t;
     write_stall_dummy_ := write_stall_dummy_ t;
     writers := writers t;
     groups := groups t |}.

Definition head_of (a : Head) (t : WriteThread) : option loc :=
  match a with
  | NewestWriter => newest_writer_ t
  | NewestMemtableWriter => newest_memtable_writer_ t
  end.

Definition load (a : Head) : M (option loc) := fun t => Ok (head_of a t, t).

Definition store (a : Head) (p : option loc) : M unit := fun t =>
  Ok (tt, match a with
          | NewestWriter => with_newest_writer p t
          | NewestMemtableWriter => with_newest_memtable_writer p t
          end).

(** [a.compare_exchange_strong(expected, desired)]: the success flag and
    the value [expected] holds afterwards. *)
Definition compare_exchange_strong (a : Head) (expected desired : option loc)
    : M (bool * option loc) :=
  current ← load a;
  if bool_decide (current = expected)
  then _ ← store a desired; mret (true, expected)
  else mret (false, current).

Section Handoff.
Context `{Build}.

Fixpoint FindNextLeader_loop (fuel : nat) (boundary current : option loc)
    : M (option loc) :=
  match fuel with
  | O => fail OutOfFuel
  | S fuel' =>
      cr ← deref current;
      if bool_decide (Writer.link_older cr ≠ boundary) then
        let current := Writer.link_older cr in
        _ ← lift (assert (bool_decide (current ≠ None)));
        FindNextLeader_loop fuel' boundary current
      else mret current
  end.

Definition FindNextLeader (fuel : nat) (from boundary : option loc)
    : M (option loc) :=
  _ ← lift (assert (bool_decide (from ≠ None) && bool_decide (from ≠ boundary)));
  FindNextLeader_loop fuel boundary from.


End Handoff.

Lemma assert_false_debug : @assert debug false = Err AssertionFailed.
Proof. reflexivity. Qed.

Lemma FindNextLeader_loop_spec `{Build} chain m j0 boundary t i :
  linked (writers t) chain m j0 →
  chain !! i = Some boundary →
  ∀ d j from fuel,
  chain !! j = Some from →
  j = (S i + d)%nat →
  (d < fuel)%nat →
  FindNextLeader_loop fuel (Some boundary) (Some from) t = Ok (chain !! S i, t).
Proof.
  intros Hlinked Hb.
  pose proof (linked_NoDup _ _ _ _ Hlinked) as Hnd.
  induction d as [|d IH]; intros j from fuel Hfrom Hj Hfuel;
    (destruct fuel as [|fuel]; [lia|]); cbn [FindNextLeader_loop].
  - rewrite Nat.add_0_r in Hj. subst j.
    destruct (linked_nodes _ _ _ _ Hlinked _ _ Hfrom) as (cr & Hcr & Ho & _).
    rewrite bind_M, (deref_Some _ _ _ Hcr), Ho. cbn [older_of]. rewrite Hb.
    rewrite (bool_decide_eq_false_2 (Some boundary ≠ Some boundary))
      by (intros Hne; congruence).
    by rewrite Hfrom.
  - assert (j = S (S i + d)) as -> by lia.
    destruct (linked_nodes _ _ _ _ Hlinked _ _ Hfrom) as (cr & Hcr & Ho & _).
    rewrite bind_M, (deref_Some _ _ _ Hcr), Ho. cbn [older_of].
    destruct (lookup_lt_is_Some_2 chain (S i + d)) as [c Hc].
    { apply lookup_lt_Some in Hfrom. lia. }
    rewrite Hc.
    rewrite (bool_decide_eq_true_2 (Some c ≠ Some boundary)).
    + rewrite bind_M, (bool_decide_eq_true_2 (Some c ≠ None)) by done.
      rewrite assert_true, lift_Ok.
      apply (IH (S i + d)%nat); [done|done|lia].
    + intros [= ->].
      assert (S i + d = i)%nat by (by eapply NoDup_lookup_inj). lia.
Qed.

(** [FindNextLeader(from, boundary)], on a queue linked through
    [link_older] in which [from] is newer than [boundary], returns the
    writer right after [boundary] (the oldest writer that is newer than
    it), whatever the distance, and changes nothing. *)
Theorem FindNextLeader_next (build : Build) (chain : list loc) (m j0 : nat)
    (t : WriteThread) (i j : nat) (from boundary : loc) (fuel : nat) :
  linked (writers t) chain m j0 →
  chain !! i = Some boundary →
  chain !! j = Some from →
  (i < j)%nat →
  (j - i ≤ fuel)%nat →
  ∃ next, chain !! S i = Some next ∧
    FindNextLeader fuel (Some from) (Some boundary) t = Ok (Some next, t).
Proof.
  intros Hlinked Hb Hfrom Hij Hfuel.
  pose proof (linked_NoDup _ _ _ _ Hlinked) as Hnd.
  destruct (lookup_lt_is_Some_2 chain (S i)) as [next Hnext].
  { apply lookup_lt_Some in Hfrom. lia. }
  exists next. split; [done|]. unfold FindNextLeader.
  rewrite (bool_decide_eq_true_2 (Some from ≠ None)) by done.
  rewrite (bool_decide_eq_true_2 (Some from ≠ Some boundary)).
  - cbn [andb]. rewrite bind_M, assert_true, lift_Ok, <- Hnext.
    apply (FindNextLeader_loop_spec chain m j0 boundary t i Hlinked Hb
             (j - S i) j from fuel); [done|lia|lia].
  - intros [= ->]. assert (i = j) by (by eapply NoDup_lookup_inj). lia.
Qed.

Lemma FindNextLeader_next_witness :
  @FindNextLeader debug 2 (Some 4%positive) (Some 2%positive) three_writers
  = Ok (Some 3%positive, three_writers).
Proof.
  destruct (FindNextLeader_next debug [2; 3; 4]%positive 1 3 three_writers
              0 2 4%positive 2%positive 2) as (next & Hnext & Hrun).
  - apply linkedb_linked. vm_compute. reflexivity.
  - reflexivity.
  - reflexivity.
  - lia.
  - lia.
  - injection Hnext as <-. exact Hrun.
Defined.

Lemma SetState_spec `{Build} t l w new_state :
  writers t !! l = Some w →
  new_state ≠ STATE_LOCKED_WAITING →
  SetState (Some l) new_state t
  = Ok (tt, with_writers (<[l := Writer.set_state new_state w]> (writers t)) t).
Proof.
  intros Hw Hne. unfold SetState.
  rewrite bind_M, (deref_Some _ _ _ Hw).
  case_bool_decide as Hs.
  - rewrite bind_M. rewrite bool_decide_eq_true_2 by congruence.
    rewrite assert_true, lift_Ok. by apply update_Some.
  - by apply update_Some.
Qed.




(** ** Enqueueing and write stalls *)

Section Stall.
Context `{Build}.

(** [LinkOne], executed without interleaved steps of other threads.
    [spurious] is the number of times [compare_exchange_weak] fails although
    the head is the expected one; a wait on [stall_cv_] while nobody else
    runs blocks for good. *)
Fixpoint LinkOne_loop (fuel spurious : nat) (w : option loc)
    (newest_writer : Head) (writers_ : option loc) : M bool :=
  match fuel with
  | O => fail OutOfFuel
  | S fuel' =>
      dummy ← (fun t => Ok (write_stall_dummy_ t, t));
      wr ← deref w;
      if bool_decide (writers_ = Some dummy) && Writer.no_slowdown wr then
        _ ← update w (Writer.set_status (Incomplete "Write stall"));
        _ ← SetState w STATE_COMPLETED;
        mret false
      else
        writers_ ←
          (if bool_decide (writers_ = Some dummy) then
             writers_ ← load newest_writer;
             if bool_decide (writers_ = Some dummy) then fail Blocked
             else mret writers_
           else mret writers_);
        _ ← update w (Writer.set_link_older writers_);
        match spurious with
        | S spurious' =>
            current ← load newest_writer;
            LinkOne_loop fuel' spurious' w newest_writer current
        | O =>
            '(exchanged, current) ←
              compare_exchange_strong newest_writer writers_ w;
            if (exchanged : bool) then mret (bool_decide (writers_ = None))
            else LinkOne_loop fuel' O w newest_writer current
        end
  end.

Definition LinkOne (fuel spurious : nat) (w : option loc)
    (newest_writer : Head) : M bool :=
  wr ← deref w;
  _ ← lift (assert (bool_decide (Writer.state wr = STATE_INIT)));
  writers_ ← load newest_writer;
  LinkOne_loop fuel spurious w newest_writer writers_.

Fixpoint BeginWriteStall_walk (fuel : nat) (w prev : option loc) : M unit :=
  match w with
  | None => mret tt
  | Some _ =>
      wr ← deref w;
      if bool_decide (Writer.write_group wr = None) then
        match fuel with
        | O => fail OutOfFuel
        | S fuel' =>
            if Writer.no_slowdown wr then
              _ ← update prev (Writer.set_link_older (Writer.link_older wr));
              _ ← update w (Writer.set_status (Incomplete "Write stall"));
              _ ← SetState w STATE_COMPLETED;
              pr ← deref prev;
              BeginWriteStall_walk fuel' (Writer.link_older pr) prev
            else BeginWriteStall_walk fuel' (Writer.link_older wr) w
        end
      else mret tt
  end.

Definition BeginWriteStall (fuel spurious : nat) : M unit :=
  dummy ← (fun t => Ok (write_stall_dummy_ t, t));
  _ ← LinkOne fuel spurious (Some dummy) NewestWriter;
  dr ← deref (Some dummy);
  BeginWriteStall_walk fuel (Writer.link_older dr) (Some dummy).

Definition EndWriteStall : M unit :=
  dummy ← (fun t => Ok (write_stall_dummy_ t, t));
  newest ← load NewestWriter;
  _ ← lift (assert (bool_decide (newest = Some dummy)));
  dr ← deref (Some dummy);
  store NewestWriter (Writer.link_older dr).

End Stall.

(** The writers reached from [p] through [link_older], newest first. *)
Fixpoint reach (h : gmap loc Writer.t) (p : option loc) (l : list loc) : Prop :=
  match l with
  | [] => p = None
  | q :: l' =>
      p = Some q ∧ ∃ w, h !! q = Some w ∧ reach h (Writer.link_older w) l'
  end.

Lemma reach_frame h h' l : ∀ p,
  (∀ q, q ∈ l → h' !! q = h !! q) → reach h p l → reach h' p l.
Proof.
  induction l as [|q l IH]; intros p Hsame; cbn; [done|].
  intros (-> & w & Hw & Hr). split; [done|]. exists w. split.
  - rewrite Hsame; [done|by left].
  - apply IH; [|done]. intros q' Hq'. apply Hsame. by right.
Qed.

Lemma head_store t a p : head_of a (match a with
          | NewestWriter => with_newest_writer p t
          | NewestMemtableWriter => with_newest_memtable_writer p t
          end) = p.
Proof. by destruct a. Qed.

(** The state after [w] is linked in front of the head [a]. *)
Definition linked_one (a : Head) (w : loc) (wr : Writer.t) (t : WriteThread)
    : WriteThread :=
  let t1 := with_writers (<[w := Writer.set_link_older (head_of a t) wr]>
                            (writers t)) t in
  match a with
  | NewestWriter => with_newest_writer (Some w) t1
  | NewestMemtableWriter => with_newest_memtable_writer (Some w) t1
  end.

Lemma head_of_with_writers a h t : head_of a (with_writers h t) = head_of a t.
Proof. by destruct a. Qed.

Lemma LinkOne_loop_spec `{Build} a w : ∀ spurious fuel wr t,
  writers t !! w = Some wr →
  head_of a t ≠ Some (write_stall_dummy_ t) →
  (spurious < fuel)%nat →
  LinkOne_loop fuel spurious (Some w) a (head_of a t) t
  = Ok (bool_decide (head_of a t = None), linked_one a w wr t).
Proof.
  induction spurious as [|spurious IH]; intros fuel wr t Hw Hhead Hfuel;
    (destruct fuel as [|fuel]; [lia|]); cbn [LinkOne_loop];
    rewrite bind_M; cbv beta iota;
    rewrite bind_M, (deref_Some _ _ _ Hw);
    rewrite (bool_decide_eq_false_2 (head_of a t = Some (write_stall_dummy_ t)))
      by done; cbn [andb];
    rewrite bind_M; cbn [mret M_ret];
    rewrite bind_M, (update_Some _ _ _ _ Hw).
  - rewrite bind_M. unfold compare_exchange_strong.
    rewrite bind_M. unfold load at 1.
    rewrite head_of_with_writers,
      (bool_decide_eq_true_2 (head_of a t = head_of a t)) by done.
    rewrite bind_M. unfold store at 1. reflexivity.
  - rewrite bind_M. unfold load at 1.
    set (t1 := with_writers _ t).
    assert (head_of a t1 = head_of a t) as Hh1 by apply head_of_with_writers.
    rewrite (IH fuel (Writer.set_link_older (head_of a t) wr) t1).
    + rewrite Hh1. f_equal. f_equal. unfold linked_one. rewrite Hh1.
      destruct a; apply WriteThread_eq; try reflexivity; cbn;
        by rewrite insert_insert_eq.
    + unfold t1. cbn. apply lookup_insert_eq.
    + by rewrite Hh1.
    + lia.
Qed.

Lemma LinkOne_run `{Build} a t w wr fuel spurious :
  writers t !! w = Some wr →
  Writer.state wr = STATE_INIT →
  head_of a t ≠ Some (write_stall_dummy_ t) →
  (spurious < fuel)%nat →
  LinkOne fuel spurious (Some w) a t
  = Ok (bool_decide (head_of a t = None), linked_one a w wr t).
Proof.
  intros Hw Hinit Hhead Hfuel.
  unfold LinkOne. rewrite bind_M, (deref_Some _ _ _ Hw), Hinit.
  rewrite (bool_decide_eq_true_2 (STATE_INIT = STATE_INIT)) by done.
  rewrite bind_M, assert_true, lift_Ok.
  rewrite bind_M. unfold load at 1.
  by rewrite (LinkOne_loop_spec a w spurious fuel wr t).
Qed.

(** [LinkOne] outside a write stall: whatever the number of spurious
    failures of the compare-exchange (given one more step than that), the
    writer is put in front of the list, its [link_older] is the previous
    head, no other writer changes, and the result tells whether the list
    was empty, that is, whether the writer is the new leader. *)
Theorem LinkOne_links (build : Build) (a : Head) (t : WriteThread)
    (w : loc) (wr : Writer.t) (l : list loc) (fuel spurious : nat) :
  writers t !! w = Some wr →
  Writer.state wr = STATE_INIT →
  head_of a t ≠ Some (write_stall_dummy_ t) →
  reach (writers t) (head_of a t) l →
  w ∉ l →
  (spurious < fuel)%nat →
  ∃ t', LinkOne fuel spurious (Some w) a t = Ok (bool_decide (l = []), t') ∧
        head_of a t' = Some w ∧
        reach (writers t') (Some w) (w :: l) ∧
        writers t' = <[w := Writer.set_link_older (head_of a t) wr]> (writers t) ∧
        groups t' = groups t.
Proof.
  intros Hw Hinit Hhead Hreach Hnotin Hfuel.
  exists (linked_one a w wr t). split; [|split_and!].
  - rewrite (LinkOne_run a t w wr fuel spurious) by done.
    f_equal. f_equal.
    destruct l as [|q l]; cbn in Hreach.
    + rewrite Hreach. by rewrite !bool_decide_eq_true_2.
    + destruct Hreach as [-> _]. by rewrite !bool_decide_eq_false_2.
  - unfold linked_one. by destruct a.
  - cbn. split; [done|]. exists (Writer.set_link_older (head_of a t) wr). split.
    + unfold linked_one. destruct a; cbn; apply lookup_insert_eq.
    + cbn. apply (reach_frame (writers t)); [|done].
      intros q Hq. unfold linked_one.
      destruct a; cbn; apply lookup_insert_ne; by intros ->.
  - unfold linked_one. by destruct a.
  - unfold linked_one. by destruct a.
Qed.

Lemma LinkOne_links_witness :
  ∃ t', @LinkOne debug 3 2 (Some 5%positive) NewestWriter
          (with_writers (<[5%positive := put 100 false false None None]>
                           (writers three_writers)) three_writers)
        = Ok (bool_decide ([4; 3; 2]%positive = []), t') ∧
        reach (writers t') (Some 5%positive) [5; 4; 3; 2]%positive.
Proof.
  destruct (LinkOne_links debug NewestWriter
              (with_writers (<[5%positive := put 100 false false None None]>
                               (writers three_writers)) three_writers)
              5%positive (put 100 false false None None)
              [4; 3; 2]%positive 3 2)
    as (t' & Hrun & _ & Hreach & _).
  - reflexivity.
  - reflexivity.
  - discriminate.
  - cbn. repeat (split; [reflexivity|]; eexists; split; [reflexivity|]).
    reflexivity.
  - intros Hin. repeat (apply elem_of_cons in Hin as [Hin|Hin]; [discriminate|]).
    by apply elem_of_nil in Hin.
  - lia.
  - exists t'. split; [exact Hrun|exact Hreach].
Defined.

Definition failed_by_stall (w : Writer.t) : Writer.t :=
  Writer.set_state STATE_COMPLETED
    (Writer.set_status (Incomplete "Write stall") w).

Lemma set_link_older_id w : Writer.set_link_older (Writer.link_older w) w = w.
Proof. by destruct w. Qed.

Lemma BeginWriteStall_walk_spec `{Build} (keep : loc → bool) rest :
  ∀ pre prev pr w t fuel,
  NoDup (prev :: pre ++ rest) →
  writers t !! prev = Some pr →
  Writer.link_older pr = w →
  reach (writers t) w (pre ++ rest) →
  (∀ q, q ∈ pre → ∃ wq, writers t !! q = Some wq ∧
       Writer.write_group wq = None ∧ Writer.no_slowdown wq = negb (keep q)) →
  (∀ r, head rest = Some r →
     ∃ wr, writers t !! r = Some wr ∧ Writer.write_group wr ≠ None) →
  (length pre ≤ fuel)%nat →
  ∃ h', BeginWriteStall_walk fuel w (Some prev) t = Ok (tt, with_writers h' t) ∧
    reach h' (Some prev) (prev :: List.filter keep pre ++ rest) ∧
    (∀ q, q ∈ pre → keep q = false →
       ∃ wq, writers t !! q = Some wq ∧ h' !! q = Some (failed_by_stall wq)) ∧
    (∀ q, q = prev ∨ (q ∈ pre ∧ keep q = true) →
       ∃ wq o, writers t !! q = Some wq ∧
               h' !! q = Some (Writer.set_link_older o wq)) ∧
    (∀ q, q ≠ prev → q ∉ pre → h' !! q = writers t !! q).
Proof.
  induction pre as [|q pre IH]; intros prev pr w t fuel Hnd Hprev Hpo Hreach Hpre Hrest Hfuel.
  - exists (writers t). split_and!.
    + rewrite with_writers_id. destruct rest as [|r rest']; cbn in Hreach.
      * subst w. rewrite Hreach. by destruct fuel.
      * destruct Hreach as (-> & wr0 & Hwr0 & _).
        destruct (Hrest r eq_refl) as (wr & Hwr & Hg).
        assert (wr0 = wr) as -> by congruence.
        destruct fuel; cbn [BeginWriteStall_walk];
          rewrite bind_M, (deref_Some _ _ _ Hwr);
          by rewrite bool_decide_eq_false_2.
    + cbn. split; [done|]. exists pr. split; [done|]. by rewrite Hpo.
    + intros q Hq. by apply elem_of_nil in Hq.
    + intros q [->|[Hq _]]; [|by apply elem_of_nil in Hq].
      exists pr, (Writer.link_older pr). split; [done|].
      by rewrite set_link_older_id.
    + done.
  - destruct Hreach as (-> & wq0 & Hwq0 & Hreach).
    destruct (Hpre q ltac:(left)) as (wq & Hwq & Hgroup & Hslow).
    assert (wq0 = wq) as -> by congruence.
    destruct fuel as [|fuel]; [cbn in Hfuel; lia|].
    change ((q :: pre) ++ rest) with (q :: (pre ++ rest)) in Hnd.
    apply NoDup_cons in Hnd as [Hprev_notin Hnd].
    pose proof (proj1 (NoDup_cons q (pre ++ rest)) Hnd) as [Hq_notin Hnd'].
    assert (prev ∉ pre ++ rest) as Hprev_notin'.
    { intros Hin. apply Hprev_notin. by right. }
    assert (∀ x, x ∈ pre ++ rest → x ≠ prev ∧ x ≠ q) as Hfresh.
    { intros x Hx. split; intros ->; done. }
    assert (∀ x, x ∈ pre → x ≠ prev ∧ x ≠ q) as Hfresh_pre.
    { intros x Hx. apply Hfresh, elem_of_app. by left. }
    assert (length pre ≤ fuel)%nat as Hfuel' by (cbn in Hfuel; lia).
    assert (∀ q', q' ∈ pre → q' ∈ q :: pre) as Hsub by (intros; by right).
    assert (q ≠ prev) as Hqp by (intros ->; apply Hprev_notin; by left).
    cbn [BeginWriteStall_walk].
    rewrite bind_M, (deref_Some _ _ _ Hwq), Hgroup.
    rewrite (bool_decide_eq_true_2 (None = None)) by done. rewrite Hslow.
    destruct (keep q) eqn:Hkeep; cbn [negb].
    + (* the writer stays; it becomes [prev] *)
      destruct (IH q wq (Writer.link_older wq) t fuel Hnd Hwq eq_refl Hreach
                  (λ q' Hq', Hpre q' (Hsub q' Hq')) Hrest Hfuel')
        as (h' & Hrun & Hreach' & Hfailed & Hkept & Hframe).
      exists h'. split; [done|]. split_and!.
      * cbn [List.filter]. rewrite Hkeep. cbn [app].
        cbn. split; [done|]. exists pr. split.
        -- rewrite Hframe; [done|done|]. intros Hin.
           by destruct (Hfresh_pre prev Hin).
        -- rewrite Hpo. exact Hreach'.
      * intros q' [->|Hq']%elem_of_cons Hk; [congruence|]. by apply Hfailed.
      * intros q' [->|[Hq' Hk]].
        -- exists pr, (Writer.link_older pr). split; [done|].
           rewrite set_link_older_id. rewrite Hframe; [done|done|].
           intros Hin. by destruct (Hfresh_pre prev Hin).
        -- apply elem_of_cons in Hq' as [->|Hq'].
           ++ apply Hkept. by left.
           ++ apply Hkept. right. done.
      * intros q' Hq'p Hq'. apply Hframe.
        -- intros ->. apply Hq'. by left.
        -- intros Hin. apply Hq'. by right.
    + (* the writer is unlinked and failed *)
      rewrite bind_M, (update_Some _ _ _ _ Hprev).
      set (t1 := with_writers _ t).
      assert (writers t1 !! q = Some wq) as Hwq1.
      { unfold t1. cbn. by rewrite lookup_insert_ne. }
      rewrite bind_M, (update_Some _ _ _ _ Hwq1).
      set (t2 := with_writers _ t1).
      rewrite bind_M.
      erewrite SetState_spec; [|unfold t2; cbn; apply lookup_insert_eq|done].
      set (t3 := with_writers _ t2).
      assert (writers t3 !! prev
              = Some (Writer.set_link_older (Writer.link_older wq) pr)) as Hprev3.
      { unfold t3, t2, t1. cbn. rewrite !lookup_insert_ne by done.
        apply lookup_insert_eq. }
      assert (writers t3 !! q = Some (failed_by_stall wq)) as Hq3.
      { unfold t3, t2, t1. cbn. rewrite lookup_insert_eq. done. }
      assert (∀ x, x ≠ prev → x ≠ q → writers t3 !! x = writers t !! x) as Hframe3.
      { intros x Hxp Hxq. unfold t3, t2, t1. cbn.
        by rewrite !lookup_insert_ne. }
      rewrite bind_M, (deref_Some _ _ _ Hprev3).
      cbn [Writer.link_older Writer.set_link_older].
      assert (NoDup (prev :: pre ++ rest)) as Hnd3.
      { apply NoDup_cons. by split. }
      assert (reach (writers t3) (Writer.link_older wq) (pre ++ rest)) as Hreach3.
      { apply (reach_frame (writers t)); [|done].
        intros x Hx. destruct (Hfresh x Hx). by apply Hframe3. }
      assert (∀ q', q' ∈ pre → ∃ wq', writers t3 !! q' = Some wq' ∧
                Writer.write_group wq' = None ∧
                Writer.no_slowdown wq' = negb (keep q')) as Hpre3.
      { intros q' Hq'. destruct (Hpre q' (Hsub q' Hq')) as (wq' & Hwq' & ?).
        exists wq'. split; [|done]. destruct (Hfresh_pre q' Hq').
        by rewrite Hframe3. }
      assert (∀ r, head rest = Some r → ∃ wr, writers t3 !! r = Some wr ∧
                Writer.write_group wr ≠ None) as Hrest3.
      { intros r Hr. destruct (Hrest r Hr) as (wr & Hwr & ?).
        exists wr. split; [|done].
        assert (r ∈ pre ++ rest) as Hin.
        { apply elem_of_app. right. destruct rest; [done|].
          injection Hr as ->. by left. }
        destruct (Hfresh r Hin). by rewrite Hframe3. }
      destruct (IH prev (Writer.set_link_older (Writer.link_older wq) pr)
                  (Writer.link_older wq) t3 fuel Hnd3 Hprev3 eq_refl Hreach3
                  Hpre3 Hrest3 Hfuel')
        as (h' & Hrun & Hreach' & Hfailed & Hkept & Hframe).
      exists h'. split; [|split_and!].
      * rewrite Hrun. reflexivity.
      * cbn [List.filter]. rewrite Hkeep. exact Hreach'.
      * intros q' [->|Hq']%elem_of_cons Hk.
        -- exists wq. split; [done|]. rewrite Hframe; [done|done|].
           intros Hin. by destruct (Hfresh_pre q Hin).
        -- destruct (Hfailed q' Hq' Hk) as (wq' & Hwq' & ->).
           exists wq'. split; [|done]. rewrite <- Hwq'. symmetry.
           destruct (Hfresh_pre q' Hq'). by apply Hframe3.
      * intros q' [->|[Hq' Hk]].
        -- destruct (Hkept prev ltac:(by left)) as (wp & o & Hwp & ->).
           rewrite Hprev3 in Hwp. injection Hwp as <-.
           exists pr, o. split; [done|]. done.
        -- apply elem_of_cons in Hq' as [->|Hq']; [congruence|].
           destruct (Hkept q' ltac:(by right)) as (wq' & o & Hwq' & ->).
           exists wq', o. split; [|done]. rewrite <- Hwq'. symmetry.
           destruct (Hfresh_pre q' Hq'). by apply Hframe3.
      * intros q' Hq'p Hq'. rewrite Hframe; [|done|].
        -- apply Hframe3; [done|]. intros ->. apply Hq'. by left.
        -- intros Hin. apply Hq'. by right.
Qed.

Lemma reach_lookup h l q : ∀ p, reach h p l → q ∈ l → is_Some (h !! q).
Proof.
  induction l as [|x l IH]; intros p Hr Hq; [by apply elem_of_nil in Hq|].
  destruct Hr as (_ & w & Hw & Hr).
  apply elem_of_cons in Hq as [->|Hq]; [by exists w|by apply (IH _ Hr)].
Qed.

(** Whether the writer at [q] accepts to wait for a stall to end. *)
Definition waits (h : gmap loc Writer.t) (q : loc) : bool :=
  match h !! q with
  | Some w => negb (Writer.no_slowdown w)
  | None => false
  end.

(** The hypotheses under which [BeginWriteStall] is run: the dummy writer is
    not in the list, which consists of the writers [pre] that joined no
    group yet, newest first, followed by [rest], that starts with a writer
    of a group. *)
Record stall_ready (t : WriteThread) (dr : Writer.t) (pre rest : list loc)
    : Prop := {
  ready_dummy : writers t !! write_stall_dummy_ t = Some dr;
  ready_init : Writer.state dr = STATE_INIT;
  ready_head : newest_writer_ t ≠ Some (write_stall_dummy_ t);
  ready_reach : reach (writers t) (newest_writer_ t) (pre ++ rest);
  ready_nodup : NoDup (write_stall_dummy_ t :: pre ++ rest);
  ready_pre : ∀ q wq, q ∈ pre → writers t !! q = Some wq →
                Writer.write_group wq = None;
  ready_rest : ∀ r wr, head rest = Some r → writers t !! r = Some wr →
                 Writer.write_group wr ≠ None;
}.

Lemma BeginWriteStall_spec `{Build} t dr pre rest fuel spurious :
  stall_ready t dr pre rest →
  (spurious < fuel)%nat → (length pre ≤ fuel)%nat →
  ∃ h', BeginWriteStall fuel spurious t
        = Ok (tt, with_writers h' (with_newest_writer
                                     (Some (write_stall_dummy_ t)) t)) ∧
    reach h' (Some (write_stall_dummy_ t))
      (write_stall_dummy_ t :: List.filter (waits (writers t)) pre ++ rest) ∧
    (∀ q wq, q ∈ pre → writers t !! q = Some wq →
       Writer.no_slowdown wq = true → h' !! q = Some (failed_by_stall wq)) ∧
    (∀ q wq, q ∈ pre → writers t !! q = Some wq →
       Writer.no_slowdown wq = false →
       ∃ o, h' !! q = Some (Writer.set_link_older o wq)) ∧
    (∃ o, h' !! write_stall_dummy_ t = Some (Writer.set_link_older o dr)) ∧
    (∀ q, q ≠ write_stall_dummy_ t → q ∉ pre → h' !! q = writers t !! q).
Proof.
  intros [Hd Hinit Hhead Hreach Hnd Hpre Hrest] Hsp Hfuel.
  set (dummy := write_stall_dummy_ t) in *.
  pose proof (proj1 (NoDup_cons _ _) Hnd) as [Hdummy_notin _].
  set (t1 := linked_one NewestWriter dummy dr t).
  assert (writers t1 = <[dummy := Writer.set_link_older (newest_writer_ t) dr]>
                         (writers t)) as Hw1 by reflexivity.
  assert (∀ q, q ≠ dummy → writers t1 !! q = writers t !! q) as Hframe1.
  { intros q Hq. rewrite Hw1. by apply lookup_insert_ne. }
  assert (writers t1 !! dummy
          = Some (Writer.set_link_older (newest_writer_ t) dr)) as Hd1.
  { rewrite Hw1. apply lookup_insert_eq. }
  destruct (BeginWriteStall_walk_spec (waits (writers t)) rest pre dummy
              (Writer.set_link_older (newest_writer_ t) dr)
              (newest_writer_ t) t1 fuel)
    as (h' & Hrun & Hreach' & Hfailed & Hkept & Hframe); try done.
  - apply (reach_frame (writers t)); [|done].
    intros q Hq. apply Hframe1. by intros ->.
  - intros q Hq.
    assert (q ∈ pre ++ rest) as Hq' by (apply elem_of_app; by left).
    destruct (reach_lookup _ _ q _ Hreach Hq') as [wq Hwq].
    exists wq. split_and!.
    + rewrite Hframe1; [done|]. by intros ->.
    + by apply (Hpre q).
    + unfold waits. rewrite Hwq. by rewrite negb_involutive.
  - intros r Hr.
    assert (r ∈ pre ++ rest) as Hr'.
    { apply elem_of_app. right. destruct rest; [done|].
      injection Hr as ->. by left. }
    destruct (reach_lookup _ _ r _ Hreach Hr') as [wr Hwr].
    exists wr. split.
    + rewrite Hframe1; [done|]. by intros ->.
    + by apply (Hrest r).
  - exists h'. split_and!.
    + unfold BeginWriteStall. rewrite bind_M. cbv beta iota.
      fold dummy. rewrite bind_M.
      rewrite (LinkOne_run NewestWriter t dummy dr fuel spurious) by done.
      fold t1. rewrite bind_M, (deref_Some _ _ _ Hd1).
      cbn [Writer.link_older Writer.set_link_older].
      rewrite Hrun. reflexivity.
    + exact Hreach'.
    + intros q wq Hq Hwq Hslow.
      destruct (Hfailed q Hq) as (wq' & Hwq' & ->).
      { unfold waits. by rewrite Hwq, Hslow. }
      rewrite Hframe1 in Hwq'; [congruence|].
      intros ->. apply Hdummy_notin, elem_of_app. by left.
    + intros q wq Hq Hwq Hslow.
      destruct (Hkept q) as (wq' & o & Hwq' & ->).
      { right. split; [done|]. unfold waits. by rewrite Hwq, Hslow. }
      exists o. rewrite Hframe1 in Hwq'; [congruence|].
      intros ->. apply Hdummy_notin, elem_of_app. by left.
    + destruct (Hkept dummy ltac:(by left)) as (wq' & o & Hwq' & ->).
      rewrite Hd1 in Hwq'. injection Hwq' as <-. by exists o.
    + intros q Hqd Hq. rewrite Hframe by done. by apply Hframe1.
Qed.

(** [BeginWriteStall], run while the list is not stalled and no other
    thread steps in: the dummy writer becomes the head, the writers that
    joined no group yet and asked for [no_slowdown] are taken out of the
    list, each with the status Incomplete "Write stall" and the state
    [STATE_COMPLETED], the others stay in their order, followed by the
    writers from the first one of a group on, which are not looked at.
    No [link_newer] is written: a writer keeps the one it had, also when it
    designates a writer that was taken out. *)
Theorem BeginWriteStall_fails_no_slowdown (build : Build) (t : WriteThread)
    (dr : Writer.t) (pre rest : list loc) (fuel spurious : nat) :
  stall_ready t dr pre rest →
  (spurious < fuel)%nat → (length pre ≤ fuel)%nat →
  ∃ t', BeginWriteStall fuel spurious t = Ok (tt, t') ∧
    newest_writer_ t' = Some (write_stall_dummy_ t) ∧
    reach (writers t') (Some (write_stall_dummy_ t))
      (write_stall_dummy_ t :: List.filter (waits (writers t)) pre ++ rest) ∧
    (∀ q wq, q ∈ pre → writers t !! q = Some wq →
       Writer.no_slowdown wq = true →
       writers t' !! q = Some (failed_by_stall wq)) ∧
    (∀ q wq, writers t !! q = Some wq →
       ∃ wq', writers t' !! q = Some wq' ∧
              Writer.link_newer wq' = Writer.link_newer wq) ∧
    (∀ q, q ∉ write_stall_dummy_ t :: pre →
       writers t' !! q = writers t !! q) ∧
    groups t' = groups t.
Proof.
  intros Hready Hsp Hfuel.
  destruct (BeginWriteStall_spec t dr pre rest fuel spurious Hready Hsp Hfuel)
    as (h' & Hrun & Hreach & Hfailed & Hkept & Hdummy & Hframe).
  eexists. split; [exact Hrun|]. cbn [newest_writer_ writers groups
    with_writers with_newest_writer]. split_and!; try done.
  - intros q wq Hwq.
    destruct (decide (q = write_stall_dummy_ t)) as [->|Hqd].
    { destruct Hdummy as [o ->]. rewrite (ready_dummy _ _ _ _ Hready) in Hwq.
      injection Hwq as <-. by eexists. }
    destruct (decide (q ∈ pre)) as [Hq|Hq].
    + destruct (Writer.no_slowdown wq) eqn:Hslow.
      * rewrite (Hfailed q wq) by done. by eexists.
      * destruct (Hkept q wq) as [o ->]; [done..|]. by eexists.
    + rewrite Hframe by done. by exists wq.
  - intros q Hq. apply Hframe.
    + intros ->. apply Hq. by left.
    + intros Hin. apply Hq. by right.
Qed.

(** [EndWriteStall] after [BeginWriteStall]: the list is the one before the
    stall without the writers that asked for [no_slowdown] and had joined
    no group; the writers are as [BeginWriteStall] left them. *)
Theorem EndWriteStall_after_BeginWriteStall (build : Build) (t : WriteThread)
    (dr : Writer.t) (pre rest : list loc) (fuel spurious : nat) :
  stall_ready t dr pre rest →
  (spurious < fuel)%nat → (length pre ≤ fuel)%nat →
  ∃ t1 t2, BeginWriteStall fuel spurious t = Ok (tt, t1) ∧
    EndWriteStall t1 = Ok (tt, t2) ∧
    writers t2 = writers t1 ∧
    reach (writers t2) (newest_writer_ t2)
      (List.filter (waits (writers t)) pre ++ rest).
Proof.
  intros Hready Hsp Hfuel.
  destruct (BeginWriteStall_spec t dr pre rest fuel spurious Hready Hsp Hfuel)
    as (h' & Hrun & Hreach & _).
  destruct Hreach as (_ & d' & Hd' & Hreach).
  eexists. exists (with_newest_writer (Writer.link_older d')
                     (with_writers h' (with_newest_writer
                        (Some (write_stall_dummy_ t)) t))).
  split; [exact Hrun|]. split_and!.
  - unfold EndWriteStall. rewrite bind_M. cbv beta iota.
    rewrite bind_M. unfold load at 1.
    cbn [head_of newest_writer_ write_stall_dummy_ with_writers
         with_newest_writer].
    rewrite (bool_decide_eq_true_2 (Some _ = Some _)) by done.
    rewrite bind_M, assert_true, lift_Ok.
    rewrite bind_M, (deref_Some _ _ d') by done.
    reflexivity.
  - reflexivity.
  - exact Hreach.
Qed.

(** A list of four writers, the oldest at location 2 in the group at
    location 9, then three that joined no group, of which the one at
    location 4 asked for [no_slowdown]; the dummy writer is at location 1. *)
Definition stall_queue : WriteThread :=
  with_newest_writer (Some 5%positive)
    (with_writers
       (<[1%positive := Writer.make None false false false None]>
          (<[2%positive := Writer.set_write_group (Some 9%positive)
                             (put 500 false false None (Some 3%positive))]>
             (<[3%positive := put 600 false false (Some 2%positive) (Some 4%positive)]>
                (<[4%positive := put 100 false true (Some 3%positive) None]>
                   (<[5%positive := put 700 false false (Some 4%positive) None]> ∅)))))
       (with_groups (<[9%positive := WriteGroup.empty]> ∅) idle)).

Lemma stall_queue_ready :
  stall_ready stall_queue (Writer.make None false false false None)
    [5; 4; 3]%positive [2]%positive.
Proof.
  split.
  - reflexivity.
  - reflexivity.
  - discriminate.
  - cbn. repeat (split; [reflexivity|]; eexists; split; [reflexivity|]).
    reflexivity.
  - apply (bool_decide_unpack _). vm_compute. exact I.
  - intros q wq Hq Hwq.
    repeat (apply elem_of_cons in Hq as [->|Hq];
            [vm_compute in Hwq; by injection Hwq as <-|]).
    by apply elem_of_nil in Hq.
  - intros r wr [= <-] Hwr. vm_compute in Hwr. by injection Hwr as <-.
Qed.

Lemma BeginWriteStall_fails_no_slowdown_witness :
  ∃ t', @BeginWriteStall debug 4 1 stall_queue = Ok (tt, t') ∧
    reach (writers t') (Some 1%positive) [1; 5; 3; 2]%positive ∧
    writers t' !! 4%positive
    = Some (failed_by_stall (put 100 false true (Some 3%positive) None)) ∧
    Writer.link_newer <$> writers t' !! 3%positive = Some (Some 4%positive).
Proof.
  destruct (BeginWriteStall_fails_no_slowdown debug stall_queue
              (Writer.make None false false false None)
              [5; 4; 3]%positive [2]%positive 4 1 stall_queue_ready)
    as (t' & Hrun & _ & Hreach & Hfailed & Hnewer & _).
  - lia.
  - cbn. lia.
  - exists t'. split; [exact Hrun|]. split; [exact Hreach|]. split.
    + apply Hfailed; [|reflexivity|reflexivity].
      right. left.
    + destruct (Hnewer 3%positive
                  (put 600 false false (Some 2%positive) (Some 4%positive))
                  eq_refl) as (wq' & -> & Hn).
      exact (f_equal Some Hn).
Defined.

Lemma EndWriteStall_after_BeginWriteStall_witness :
  ∃ t1 t2, @BeginWriteStall debug 4 1 stall_queue = Ok (tt, t1) ∧
    @EndWriteStall debug t1 = Ok (tt, t2) ∧
    reach (writers t2) (newest_writer_ t2) [5; 3; 2]%positive.
Proof.
  destruct (EndWriteStall_after_BeginWriteStall debug stall_queue
              (Writer.make None false false false None)
              [5; 4; 3]%positive [2]%positive 4 1 stall_queue_ready)
    as (t1 & t2 & Hrun & Hend & _ & Hreach).
  - lia.
  - cbn. lia.
  - exists t1, t2. split; [exact Hrun|]. split; [exact Hend|exact Hreach].
Defined.

(** [LinkOne] during a write stall, that is, while the dummy writer is the
    head: a writer that asked for [no_slowdown] is not linked; it gets the
    status Incomplete "Write stall" and the state [STATE_COMPLETED], the
    head and the other writers are unchanged and the result is false.  A
    writer that did not ask for it waits on the condition variable, which
    nobody signals while no other thread runs. *)
Theorem LinkOne_during_stall (build : Build) (a : Head) (t : WriteThread)
    (w : loc) (wr : Writer.t) (fuel spurious : nat) :
  writers t !! w = Some wr →
  Writer.state wr = STATE_INIT →
  head_of a t = Some (write_stall_dummy_ t) →
  LinkOne (S fuel) spurious (Some w) a t
  = if Writer.no_slowdown wr
    then Ok (false, with_writers (<[w := failed_by_stall wr]> (writers t)) t)
    else Err Blocked.
Proof.
  intros Hw Hinit Hhead.
  unfold LinkOne. rewrite bind_M, (deref_Some _ _ _ Hw), Hinit.
  rewrite (bool_decide_eq_true_2 (STATE_INIT = STATE_INIT)) by done.
  rewrite bind_M, assert_true, lift_Ok.
  rewrite bind_M. unfold load at 1. cbn [LinkOne_loop].
  rewrite bind_M. cbv beta iota.
  rewrite bind_M, (deref_Some _ _ _ Hw), Hhead.
  rewrite (bool_decide_eq_true_2 (Some _ = Some _)) by done.
  destruct (Writer.no_slowdown wr); cbn [andb].
  - rewrite bind_M, (update_Some _ _ _ _ Hw).
    rewrite bind_M.
    erewrite SetState_spec; [|cbn; apply lookup_insert_eq|done].
    unfold mret, M_ret. f_equal. f_equal.
    apply WriteThread_eq; try reflexivity. cbn.
    by rewrite insert_insert_eq.
  - rewrite bind_M. rewrite bind_M. unfold load at 1. rewrite Hhead.
    rewrite (bool_decide_eq_true_2 (Some _ = Some _)) by done.
    reflexivity.
Qed.

Lemma LinkOne_during_stall_witness :
  @LinkOne debug 1 0 (Some 6%positive) NewestWriter
    (with_writers (<[6%positive := put 50 false true None None]>
                     (writers stall_queue))
       (with_newest_writer (Some 1%positive) stall_queue))
  = Ok (false,
        with_writers
          (<[6%positive := failed_by_stall (put 50 false true None None)]>
             (writers stall_queue))
          (with_newest_writer (Some 1%positive) stall_queue)).
Proof.
  rewrite (LinkOne_during_stall debug NewestWriter _ 6%positive
             (put 50 false true None None) 0 0);
    [|reflexivity|reflexivity|reflexivity].
  reflexivity.
Defined.

(** ** The end of a group commit *)

Section Exit.
Context `{Build}.

(** An assertion whose condition reads writers: with assertions compiled
    out the condition is not evaluated. *)
Definition assert_reading (cond : M bool) : M unit :=
  if NDEBUG then mret tt else (b ← cond; lift (assert b)).

(** The branch of [ExitAsBatchGroupLeader] for pipelined writes ends in
    [AwaitState], whose spinning and blocking depend on clocks and on other
    threads; the branch is a parameter here. *)
Variable pipelined_exit : loc → Status → M unit.



End Exit.


Lemma assert_reading_true `{Build} (cond : M bool) t :
  cond t = Ok (true, t) → assert_reading cond t = Ok (tt, t).
Proof.
  intros Hc. unfold assert_reading. destruct NDEBUG; [done|].
  by rewrite bind_M, Hc, assert_true, lift_Ok.
Qed.








(** ** Taking writers out of a group *)

Definition with_leader (p : option loc) (wg : WriteGroup.t) : WriteGroup.t :=
  {| WriteGroup.leader := p;
     WriteGroup.last_writer := WriteGroup.last_writer wg;
     WriteGroup.last_sequence := WriteGroup.last_sequence wg;
     WriteGroup.status := WriteGroup.status wg;
     WriteGroup.running := WriteGroup.running wg;
     WriteGroup.size := WriteGroup.size wg |}.

Definition with_last_writer (p : option loc) (wg : WriteGroup.t)
    : WriteGroup.t :=
  {| WriteGroup.leader := WriteGroup.leader wg;
     WriteGroup.last_writer := p;
     WriteGroup.last_sequence := WriteGroup.last_sequence wg;
     WriteGroup.status := WriteGroup.status wg;
     WriteGroup.running := WriteGroup.running wg;
     WriteGroup.size := WriteGroup.size wg |}.

Definition with_size (n : Z) (wg : WriteGroup.t) : WriteGroup.t :=
  {| WriteGroup.leader := WriteGroup.leader wg;
     WriteGroup.last_writer := WriteGroup.last_writer wg;
     WriteGroup.last_sequence := WriteGroup.last_sequence wg;
     WriteGroup.status := WriteGroup.status wg;
     WriteGroup.running := WriteGroup.running wg;
     WriteGroup.size := n |}.

Section Complete.
Context `{Build}.

Definition CompleteLeader (write_group : loc) : M unit :=
  wg ← deref_group write_group;
  _ ← lift (assert (bool_decide (0 < WriteGroup.size wg)));
  let leader := WriteGroup.leader wg in
  _ ← (if bool_decide (WriteGroup.size wg = 1) then
         _ ← update_group write_group (with_leader None);
         update_group write_group (with_last_writer None)
       else
         lr ← deref leader;
         _ ← lift (assert (bool_decide (Writer.link_newer lr ≠ None)));
         _ ← update (Writer.link_newer lr) (Writer.set_link_older None);
         lr ← deref leader;
         update_group write_group (with_leader (Writer.link_newer lr)));
  _ ← update_group write_group
        (fun wg => with_size (size_t (WriteGroup.size wg - 1)) wg);
  SetState leader STATE_COMPLETED.

Definition CompleteFollower (w : option loc) (write_group : loc) : M unit :=
  wg ← deref_group write_group;
  _ ← lift (assert (bool_decide (1 < WriteGroup.size wg)));
  _ ← lift (assert (bool_decide (w ≠ WriteGroup.leader wg)));
  _ ← (if bool_decide (w = WriteGroup.last_writer wg) then
         wr ← deref w;
         _ ← update (Writer.link_older wr) (Writer.set_link_newer None);
         wr ← deref w;
         update_group write_group (with_last_writer (Writer.link_older wr))
       else
         wr ← deref w;
         _ ← update (Writer.link_older wr)
               (Writer.set_link_newer (Writer.link_newer wr));
         wr ← deref w;
         update (Writer.link_newer wr)
           (Writer.set_link_older (Writer.link_older wr)));
  _ ← update_group write_group
        (fun wg => with_size (size_t (WriteGroup.size wg - 1)) wg);
  SetState w STATE_COMPLETED.

End Complete.

(** The writers at [ws], oldest first, are linked in both directions. *)
Record dlinked (h : gmap loc Writer.t) (ws : list loc) : Prop := {
  dlinked_NoDup : NoDup ws;
  dlinked_nodes : ∀ i a, ws !! i = Some a → is_Some (h !! a);
  dlinked_pairs : ∀ i a b, ws !! i = Some a → ws !! S i = Some b →
    ∃ wa wb, h !! a = Some wa ∧ h !! b = Some wb ∧
      Writer.link_newer wa = Some b ∧ Writer.link_older wb = Some a
}.

(** The group object describes the writers [ws]. *)
Record group_of (wg : WriteGroup.t) (ws : list loc) : Prop := {
  group_leader : WriteGroup.leader wg = head ws;
  group_last : WriteGroup.last_writer wg = last ws;
  group_size : WriteGroup.size wg = Z.of_nat (length ws)
}.

Lemma deref_group_Some t g wg :
  groups t !! g = Some wg → deref_group g t = Ok (wg, t).
Proof. intros Hg. unfold deref_group. by rewrite Hg. Qed.

Lemma update_group_Some t g wg f :
  groups t !! g = Some wg →
  update_group g f t = Ok (tt, with_groups (<[g := f wg]> (groups t)) t).
Proof. intros Hg. unfold update_group. by rewrite Hg. Qed.

Lemma lookup_without (l0 : list loc) prev w l2 i :
  (l0 ++ prev :: l2) !! i
  = if decide (i ≤ length l0)%nat then (l0 ++ prev :: w :: l2) !! i
    else (l0 ++ prev :: w :: l2) !! S i.
Proof.
  destruct (decide (i ≤ length l0)%nat) as [Hle|Hgt].
  - destruct (decide (i < length l0)%nat).
    + by rewrite !lookup_app_l by done.
    + assert (i = length l0) as -> by lia.
      by rewrite !list_lookup_middle.
  - rewrite !lookup_app_r by lia.
    replace (S i - length l0)%nat with (S (i - length l0)) by lia.
    destruct (i - length l0)%nat as [|j] eqn:Hj; [lia|]. done.
Qed.

(** What the unlinking of [w] between [prev] and the head of [l2] does to
    the writers. *)
Definition unlinked (prev w : loc) (l2 : list loc) (h : gmap loc Writer.t)
    : gmap loc Writer.t :=
  let h1 := alter (Writer.set_link_newer (head l2)) prev h in
  let h2 := match head l2 with
            | Some next => alter (Writer.set_link_older (Some prev)) next h1
            | None => h1
            end in
  alter (Writer.set_state STATE_COMPLETED) w h2.

Lemma unlinked_lookup prev w l2 h q wq :
  h !! q = Some wq →
  ∃ wq', unlinked prev w l2 h !! q = Some wq' ∧
    (q ≠ prev → Writer.link_newer wq' = Writer.link_newer wq) ∧
    (q = prev → Writer.link_newer wq' = head l2) ∧
    (head l2 ≠ Some q → Writer.link_older wq' = Writer.link_older wq) ∧
    (head l2 = Some q → Writer.link_older wq' = Some prev) ∧
    (q ≠ w → Writer.state wq' = Writer.state wq).
Proof.
  intros Hq. unfold unlinked.
  set (h1 := alter (Writer.set_link_newer (head l2)) prev h).
  assert (∃ w1, h1 !! q = Some w1 ∧
            Writer.link_older w1 = Writer.link_older wq ∧
            Writer.state w1 = Writer.state wq ∧
            (q ≠ prev → Writer.link_newer w1 = Writer.link_newer wq) ∧
            (q = prev → Writer.link_newer w1 = head l2)) as (w1 & Hw1 & Ho1 & Hs1 & Hn1 & Hn1').
  { unfold h1. destruct (decide (q = prev)) as [->|Hne].
    - rewrite lookup_alter_eq, Hq. eexists. split; [done|]. done.
    - rewrite lookup_alter_ne by done. exists wq. done. }
  set (h2 := match head l2 with
             | Some next => alter (Writer.set_link_older (Some prev)) next h1
             | None => h1
             end).
  assert (∃ w2, h2 !! q = Some w2 ∧
            Writer.link_newer w2 = Writer.link_newer w1 ∧
            Writer.state w2 = Writer.state w1 ∧
            (head l2 ≠ Some q → Writer.link_older w2 = Writer.link_older w1) ∧
            (head l2 = Some q → Writer.link_older w2 = Some prev))
    as (w2 & Hw2 & Hn2 & Hs2 & Ho2 & Ho2').
  { unfold h2. destruct (head l2) as [next|].
    - destruct (decide (q = next)) as [->|Hne].
      + rewrite lookup_alter_eq, Hw1. eexists. split; [done|]. done.
      + rewrite lookup_alter_ne by done. exists w1.
        split_and!; try done. intros [= ->]. done.
    - exists w1. done. }
  destruct (decide (q = w)) as [->|Hne].
  - rewrite lookup_alter_eq, Hw2. eexists. split; [done|]. cbn.
    split_and!; intros; try done.
    + rewrite Hn2. by apply Hn1.
    + rewrite Hn2. by apply Hn1'.
    + rewrite Ho2 by done. done.
    + by apply Ho2'.
  - rewrite lookup_alter_ne by done. exists w2. split; [done|].
    split_and!; intros.
    + rewrite Hn2. by apply Hn1.
    + rewrite Hn2. by apply Hn1'.
    + rewrite Ho2 by done. done.
    + by apply Ho2'.
    + congruence.
Qed.

Lemma unlinked_frame prev w l2 h q :
  q ≠ prev → q ≠ w → head l2 ≠ Some q →
  unlinked prev w l2 h !! q = h !! q.
Proof.
  intros Hp Hw Hn. unfold unlinked.
  rewrite lookup_alter_ne by done.
  destruct (head l2) as [next|].
  - rewrite lookup_alter_ne by congruence. by rewrite lookup_alter_ne.
  - by rewrite lookup_alter_ne.
Qed.

Lemma dlinked_unlinked h (l0 : list loc) prev w l2 :
  dlinked h (l0 ++ prev :: w :: l2) →
  dlinked (unlinked prev w l2 h) (l0 ++ prev :: l2).
Proof.
  intros [Hnd Hnodes Hpairs].
  set (ws := l0 ++ prev :: w :: l2) in *.
  assert (ws !! length l0 = Some prev) as Hprev by (by apply list_lookup_middle).
  assert (ws !! S (length l0) = Some w) as Hw.
  { unfold ws. rewrite lookup_app_r by lia.
    by replace (S (length l0) - length l0)%nat with 1%nat by lia. }
  assert (ws !! S (S (length l0)) = head l2) as Hnext.
  { unfold ws. rewrite lookup_app_r by lia.
    replace (S (S (length l0)) - length l0)%nat with 2%nat by lia.
    by destruct l2. }
  split.
  - unfold ws in Hnd. rewrite NoDup_app in Hnd |- *.
    destruct Hnd as (Hnd0 & Hdis & Hnd1). split; [done|]. split.
    + intros x Hx Hin. apply (Hdis x Hx).
      apply elem_of_cons in Hin as [->|Hin]; [by left|]. by do 2 right.
    + apply NoDup_cons in Hnd1 as [Hp Hnd1]. apply NoDup_cons in Hnd1 as [_ Hnd1].
      apply NoDup_cons. split; [|done]. intros Hin. apply Hp. by right.
  - intros i a Ha. rewrite (lookup_without l0 prev w l2) in Ha. fold ws in Ha.
    assert (is_Some (h !! a)) as [wa Hwa].
    { destruct (decide (i ≤ length l0)%nat); by eapply Hnodes. }
    destruct (unlinked_lookup prev w l2 h a wa Hwa) as (wa' & -> & _). done.
  - intros i a b Ha Hb.
    rewrite (lookup_without l0 prev w l2) in Ha, Hb. fold ws in Ha, Hb.
    destruct (decide (S i ≤ length l0)%nat) as [Hle|Hgt].
    + rewrite decide_True in Ha by lia.
      destruct (Hpairs i a b Ha Hb) as (wa & wb & Hwa & Hwb & Hn & Ho).
      destruct (unlinked_lookup prev w l2 h a wa Hwa) as (wa' & Hwa' & Hna & _).
      destruct (unlinked_lookup prev w l2 h b wb Hwb) as (wb' & Hwb' & _ & _ & Hob & _).
      exists wa', wb'. split_and!; try done.
      * rewrite Hna; [done|]. intros ->.
        assert (i = length l0); [|lia]. by eapply (NoDup_lookup_inj ws).
      * rewrite Hob; [done|]. rewrite <- Hnext. intros Hb'.
        assert (S (S (length l0)) = S i); [|lia]. by eapply (NoDup_lookup_inj ws).
    + destruct (decide (i ≤ length l0)%nat) as [Hle|Hgt'].
      * assert (i = length l0) as -> by lia.
        assert (a = prev) as -> by congruence.
        rewrite Hnext in Hb.
        destruct (Hnodes _ _ Hprev) as [pr Hpr].
        assert (is_Some (h !! b)) as [wb Hwb].
        { apply (Hnodes (S (S (length l0))) b). by rewrite Hnext. }
        destruct (unlinked_lookup prev w l2 h prev pr Hpr)
          as (pr' & Hpr' & _ & Hnp & _).
        destruct (unlinked_lookup prev w l2 h b wb Hwb)
          as (wb' & Hwb' & _ & _ & _ & Hob & _).
        exists pr', wb'. split_and!; try done.
        -- rewrite Hnp by done. done.
        -- by apply Hob.
      * destruct (Hpairs (S i) a b Ha Hb) as (wa & wb & Hwa & Hwb & Hn & Ho).
        destruct (unlinked_lookup prev w l2 h a wa Hwa) as (wa' & Hwa' & Hna & _).
        destruct (unlinked_lookup prev w l2 h b wb Hwb)
          as (wb' & Hwb' & _ & _ & Hob & _).
        exists wa', wb'. split_and!; try done.
        -- rewrite Hna; [done|]. intros ->.
           assert (S i = length l0); [|lia]. by eapply (NoDup_lookup_inj ws).
        -- rewrite Hob; [done|]. rewrite <- Hnext. intros Hb'.
           assert (S (S (length l0)) = S (S i)); [|lia].
           by eapply (NoDup_lookup_inj ws).
Qed.

(** The group object after the follower between [prev] and [l2] left. *)
Definition without_follower (prev : loc) (l2 : list loc) (wg : WriteGroup.t)
    : WriteGroup.t :=
  with_size (WriteGroup.size wg - 1)
    (match l2 with
     | [] => with_last_writer (Some prev) wg
     | _ :: _ => wg
     end).

Lemma CompleteFollower_run `{Build} t g wg (l0 : list loc) prev w l2 :
  groups t !! g = Some wg →
  group_of wg (l0 ++ prev :: w :: l2) →
  dlinked (writers t) (l0 ++ prev :: w :: l2) →
  Z.of_nat (length (l0 ++ prev :: w :: l2)) < 2 ^ 64 →
  CompleteFollower (Some w) g t
  = Ok (tt, with_writers (unlinked prev w l2 (writers t))
              (with_groups (<[g := without_follower prev l2 wg]> (groups t)) t)).
Proof.
  intros Hg [Hgl Hglast Hgsz] Hd Hlen.
  pose proof (dlinked_NoDup _ _ Hd) as Hnd.
  set (ws := l0 ++ prev :: w :: l2) in *.
  assert (ws !! length l0 = Some prev) as Hprev by (by apply list_lookup_middle).
  assert (ws !! S (length l0) = Some w) as Hw.
  { unfold ws. rewrite lookup_app_r by lia.
    by replace (S (length l0) - length l0)%nat with 1%nat by lia. }
  assert (ws !! S (S (length l0)) = head l2) as Hnext.
  { unfold ws. rewrite lookup_app_r by lia.
    replace (S (S (length l0)) - length l0)%nat with 2%nat by lia.
    by destruct l2. }
  assert (length ws = S (S (length l0 + length l2))) as Hlws.
  { unfold ws. rewrite length_app. cbn. lia. }
  destruct (dlinked_pairs _ _ Hd _ _ _ Hprev Hw)
    as (pr & wr & Hpr & Hwr & Hpn & Hwo).
  assert (prev ≠ w) as Hpw.
  { intros ->. assert (length l0 = S (length l0)); [|lia].
    by eapply (NoDup_lookup_inj ws). }
  assert (WriteGroup.leader wg ≠ Some w) as Hlw.
  { rewrite Hgl, head_lookup. intros Hh.
    assert (0 = S (length l0))%nat; [|lia]. by eapply (NoDup_lookup_inj ws). }
  unfold CompleteFollower.
  rewrite bind_M, (deref_group_Some _ _ _ Hg).
  rewrite (bool_decide_eq_true_2 (1 < _)) by lia.
  rewrite bind_M, assert_true, lift_Ok.
  rewrite (bool_decide_eq_true_2 (Some w ≠ _)) by congruence.
  rewrite bind_M, assert_true, lift_Ok.
  rewrite bind_M.
  assert (size_t (WriteGroup.size wg - 1) = WriteGroup.size wg - 1) as Hsz.
  { apply size_t_id. unfold is_size_t. lia. }
  destruct l2 as [|next l2'].
  - assert (WriteGroup.last_writer wg = Some w) as Hl.
    { rewrite Hglast, last_lookup, Hlws. cbn [Nat.pred].
      rewrite Nat.add_0_r. exact Hw. }
    rewrite (bool_decide_eq_true_2 (Some w = _)) by done.
    rewrite bind_M, (deref_Some _ _ _ Hwr), Hwo.
    rewrite bind_M, (update_Some _ _ _ _ Hpr).
    set (t1 := with_writers _ t).
    assert (writers t1 !! w = Some wr) as Hwr1.
    { unfold t1. cbn. by rewrite lookup_insert_ne. }
    rewrite bind_M, (deref_Some _ _ _ Hwr1), Hwo.
    rewrite (update_group_Some t1 g wg) by done.
    set (t2 := with_groups _ t1).
    rewrite bind_M.
    rewrite (update_group_Some t2 g (with_last_writer (Some prev) wg))
      by (unfold t2; cbn; apply lookup_insert_eq).
    set (t3 := with_groups _ t2).
    rewrite (SetState_spec t3 w wr) by done.
    f_equal. f_equal. apply WriteThread_eq; try reflexivity.
    + unfold t3, t2, t1, unlinked. cbn.
      apply map_eq. intros q.
      destruct (decide (q = w)) as [->|Hqw].
      * rewrite lookup_insert_eq, lookup_alter_eq, lookup_alter_ne, Hwr by done.
        done.
      * rewrite lookup_insert_ne, lookup_alter_ne by done.
        destruct (decide (q = prev)) as [->|Hqp].
        -- by rewrite lookup_insert_eq, lookup_alter_eq, Hpr.
        -- by rewrite lookup_insert_ne, lookup_alter_ne.
    + unfold t3, t2, t1, without_follower. cbn.
      rewrite insert_insert_eq. by rewrite Hsz.
  - cbn [head] in Hnext.
    assert (WriteGroup.last_writer wg ≠ Some w) as Hl.
    { rewrite Hglast, last_lookup, Hlws. cbn [Nat.pred]. intros Hh.
      assert (S (length l0 + length (next :: l2')) = S (length l0)); [|cbn in *; lia].
      by eapply (NoDup_lookup_inj ws). }
    rewrite (bool_decide_eq_false_2 (Some w = _)) by congruence.
    destruct (dlinked_pairs _ _ Hd _ _ _ Hw Hnext)
      as (wr0 & nr & Hwr0 & Hnr & Hwn & Hno).
    assert (wr0 = wr) as -> by congruence.
    assert (next ≠ w) as Hnw.
    { intros ->. assert (S (S (length l0)) = S (length l0)); [|lia].
      by eapply (NoDup_lookup_inj ws). }
    assert (next ≠ prev) as Hnp.
    { intros ->. assert (S (S (length l0)) = length l0); [|lia].
      by eapply (NoDup_lookup_inj ws). }
    rewrite bind_M, (deref_Some _ _ _ Hwr), Hwo, Hwn.
    rewrite bind_M, (update_Some _ _ _ _ Hpr).
    set (t1 := with_writers _ t).
    assert (writers t1 !! w = Some wr) as Hwr1.
    { unfold t1. cbn. by rewrite lookup_insert_ne. }
    assert (writers t1 !! next = Some nr) as Hnr1.
    { unfold t1. cbn. by rewrite lookup_insert_ne. }
    rewrite bind_M, (deref_Some _ _ _ Hwr1), Hwo, Hwn.
    rewrite (update_Some t1 next nr) by done.
    set (t2 := with_writers _ t1).
    rewrite bind_M.
    rewrite (update_group_Some t2 g wg) by done.
    set (t3 := with_groups _ t2).
    rewrite (SetState_spec t3 w wr);
      [|unfold t3, t2, t1; cbn; by rewrite !lookup_insert_ne|done].
    f_equal. f_equal. apply WriteThread_eq; try reflexivity.
    + unfold t3, t2, t1, unlinked. cbn.
      apply map_eq. intros q.
      destruct (decide (q = w)) as [->|Hqw].
      * rewrite lookup_insert_eq, lookup_alter_eq, !lookup_alter_ne, Hwr by done.
        done.
      * rewrite lookup_insert_ne, lookup_alter_ne by done.
        destruct (decide (q = next)) as [->|Hqn].
        -- rewrite lookup_insert_eq, lookup_alter_eq, lookup_alter_ne, Hnr by done.
           done.
        -- rewrite lookup_insert_ne, lookup_alter_ne by done.
           destruct (decide (q = prev)) as [->|Hqp].
           ++ by rewrite lookup_insert_eq, lookup_alter_eq, Hpr.
           ++ by rewrite lookup_insert_ne, lookup_alter_ne.
    + unfold t3, t2, t1, without_follower. cbn. by rewrite Hsz.
Qed.

(** [CompleteFollower] takes a follower out of its group.  For a group
    whose members are linked in both directions, the follower [w] leaves:
    its neighbours are linked to each other (or the writer before it
    becomes the last one), the size drops by one, the leader stays, and
    the members that remain are again linked in both directions.  [w] gets
    the state [STATE_COMPLETED] and keeps its own links; no writer outside
    the group changes. *)
Theorem CompleteFollower_unlinks (build : Build) (t : WriteThread) (g : loc)
    (wg : WriteGroup.t) (l1 : list loc) (w : loc) (l2 : list loc) :
  groups t !! g = Some wg →
  group_of wg (l1 ++ w :: l2) →
  l1 ≠ [] →
  dlinked (writers t) (l1 ++ w :: l2) →
  Z.of_nat (length (l1 ++ w :: l2)) < 2 ^ 64 →
  ∃ t' wg', CompleteFollower (Some w) g t = Ok (tt, t') ∧
    groups t' !! g = Some wg' ∧
    group_of wg' (l1 ++ l2) ∧
    WriteGroup.leader wg' = WriteGroup.leader wg ∧
    dlinked (writers t') (l1 ++ l2) ∧
    (∃ wr, writers t !! w = Some wr ∧
       writers t' !! w = Some (Writer.set_state STATE_COMPLETED wr)) ∧
    (∀ p, p ∉ l1 ++ w :: l2 → writers t' !! p = writers t !! p) ∧
    (∀ g', g' ≠ g → groups t' !! g' = groups t !! g') ∧
    newest_writer_ t' = newest_writer_ t.
Proof.
  intros Hg Hgroup Hne Hd Hlen.
  destruct (exists_last Hne) as (l0 & prev & ->).
  rewrite <- !app_assoc in *. cbn [app] in *.
  pose proof (dlinked_NoDup _ _ Hd) as Hnd.
  set (ws := l0 ++ prev :: w :: l2) in *.
  assert (ws !! length l0 = Some prev) as Hprev by (by apply list_lookup_middle).
  assert (ws !! S (length l0) = Some w) as Hw.
  { unfold ws. rewrite lookup_app_r by lia.
    by replace (S (length l0) - length l0)%nat with 1%nat by lia. }
  assert (ws !! S (S (length l0)) = head l2) as Hnext.
  { unfold ws. rewrite lookup_app_r by lia.
    replace (S (S (length l0)) - length l0)%nat with 2%nat by lia.
    by destruct l2. }
  eexists. exists (without_follower prev l2 wg).
  split; [by apply (CompleteFollower_run t g wg l0 prev w l2)|].
  cbn [groups writers newest_writer_ with_writers with_groups].
  destruct Hgroup as [Hgl Hglast Hgsz].
  split_and!.
  - apply lookup_insert_eq.
  - split.
    + unfold without_follower. destruct l2; cbn [WriteGroup.leader with_size
        with_last_writer]; rewrite Hgl; unfold ws; by destruct l0.
    + unfold without_follower. destruct l2 as [|next l2'].
      * cbn [WriteGroup.last_writer with_size with_last_writer].
        by rewrite last_app.
      * cbn [WriteGroup.last_writer with_size with_last_writer].
        rewrite Hglast. unfold ws.
        rewrite !last_app. cbn [last].
        by destruct l2'.
    + unfold without_follower.
      destruct l2; cbn [WriteGroup.size with_size with_last_writer];
        rewrite Hgsz; unfold ws; rewrite !length_app; cbn; lia.
  - unfold without_follower. by destruct l2.
  - by apply dlinked_unlinked.
  - destruct (dlinked_nodes _ _ Hd _ _ Hw) as [wr Hwr].
    exists wr. split; [done|]. unfold unlinked.
    rewrite lookup_alter_eq.
    assert (prev ≠ w) as Hpw.
    { intros ->. assert (length l0 = S (length l0)); [|lia].
      by eapply (NoDup_lookup_inj ws). }
    destruct (head l2) as [next|] eqn:Hh.
    + assert (next ≠ w) as Hnw.
      { intros ->. assert (S (S (length l0)) = S (length l0)); [|lia].
        by eapply (NoDup_lookup_inj ws). }
      by rewrite !lookup_alter_ne, Hwr by done.
    + by rewrite lookup_alter_ne, Hwr by done.
  - intros p Hp. apply unlinked_frame.
    + intros ->. apply Hp. by eapply list_elem_of_lookup_2.
    + intros ->. apply Hp. by eapply list_elem_of_lookup_2.
    + intros Hh. apply Hp. rewrite <- Hnext in Hh. by eapply list_elem_of_lookup_2.
  - intros g' Hg'. by apply lookup_insert_ne.
  - reflexivity.
Qed.

(** [CompleteLeader] takes the leader out of its group.  For a group whose
    members are linked in both directions, the writer behind the leader
    becomes the leader, with no older writer, and the group keeps its last
    writer; a group of one becomes empty, without leader and last writer.
    The size drops by one, the members that remain are linked in both
    directions, the old leader gets the state [STATE_COMPLETED], and no
    writer outside the group changes. *)
Theorem CompleteLeader_promotes_next (build : Build) (t : WriteThread)
    (g : loc) (wg : WriteGroup.t) (leader : loc) (fs : list loc) :
  groups t !! g = Some wg →
  group_of wg (leader :: fs) →
  dlinked (writers t) (leader :: fs) →
  Z.of_nat (length (leader :: fs)) < 2 ^ 64 →
  ∃ t' wg', CompleteLeader g t = Ok (tt, t') ∧
    groups t' !! g = Some wg' ∧
    group_of wg' fs ∧
    dlinked (writers t') fs ∧
    (∀ p, head fs = Some p →
       ∃ wp, writers t !! p = Some wp ∧
         writers t' !! p = Some (Writer.set_link_older None wp)) ∧
    (∃ lr, writers t !! leader = Some lr ∧
       writers t' !! leader = Some (Writer.set_state STATE_COMPLETED lr)) ∧
    (∀ p, p ∉ leader :: fs → writers t' !! p = writers t !! p) ∧
    (∀ g', g' ≠ g → groups t' !! g' = groups t !! g') ∧
    newest_writer_ t' = newest_writer_ t.
Proof.
  intros Hg [Hgl Hglast Hgsz] Hd Hlen.
  pose proof (dlinked_NoDup _ _ Hd) as Hnd.
  destruct (dlinked_nodes _ _ Hd 0%nat leader eq_refl) as [lr Hlr].
  cbn [head] in Hgl.
  assert (size_t (WriteGroup.size wg - 1) = WriteGroup.size wg - 1) as Hsz.
  { apply size_t_id. unfold is_size_t. rewrite Hgsz. cbn [length] in *. lia. }
  unfold CompleteLeader.
  rewrite bind_M, (deref_group_Some _ _ _ Hg).
  rewrite (bool_decide_eq_true_2 (0 < _)) by (rewrite Hgsz; cbn [length]; lia).
  rewrite bind_M, assert_true, lift_Ok. rewrite bind_M, Hgl.
  destruct fs as [|f1 fs'].
  - rewrite (bool_decide_eq_true_2 (_ = 1)) by (by rewrite Hgsz).
    rewrite bind_M, (update_group_Some t g wg) by done.
    set (t1 := with_groups _ t).
    rewrite (update_group_Some t1 g (with_leader None wg))
      by (unfold t1; cbn; apply lookup_insert_eq).
    set (t2 := with_groups _ t1).
    rewrite bind_M.
    rewrite (update_group_Some t2 g (with_last_writer None (with_leader None wg)))
      by (unfold t2; cbn; apply lookup_insert_eq).
    set (t3 := with_groups _ t2).
    rewrite (SetState_spec t3 leader lr) by done.
    eexists. eexists. split; [reflexivity|].
    cbn [groups writers newest_writer_ with_writers with_groups].
    split_and!.
    + unfold t3, t2, t1. cbn. apply lookup_insert_eq.
    + split; cbn [WriteGroup.leader WriteGroup.last_writer WriteGroup.size
                  with_size with_leader with_last_writer head last length];
        [done|done|]. rewrite Hsz, Hgsz. cbn [length]. lia.
    + split; [constructor|done|done].
    + done.
    + exists lr. split; [done|]. unfold t3, t2, t1. cbn. apply lookup_insert_eq.
    + intros p Hp. unfold t3, t2, t1. cbn. apply lookup_insert_ne.
      intros <-. apply Hp. by left.
    + intros g' Hg'. unfold t3, t2, t1. cbn. by rewrite !lookup_insert_ne.
    + reflexivity.
  - rewrite (bool_decide_eq_false_2 (_ = 1)) by (rewrite Hgsz; cbn [length]; lia).
    destruct (dlinked_pairs _ _ Hd 0%nat leader f1 eq_refl eq_refl)
      as (lr0 & fr & Hlr0 & Hfr & Hln & Hfo).
    assert (lr0 = lr) as -> by congruence.
    assert (f1 ≠ leader) as Hfl.
    { intros ->. apply NoDup_cons in Hnd as [Hnin _]. apply Hnin. by left. }
    rewrite bind_M, (deref_Some _ _ _ Hlr), Hln.
    rewrite (bool_decide_eq_true_2 (Some f1 ≠ None)) by done.
    rewrite bind_M, assert_true, lift_Ok.
    rewrite bind_M, (update_Some _ _ _ _ Hfr).
    set (t1 := with_writers _ t).
    assert (writers t1 !! leader = Some lr) as Hlr1.
    { unfold t1. cbn. by rewrite lookup_insert_ne. }
    rewrite bind_M, (deref_Some _ _ _ Hlr1), Hln.
    rewrite (update_group_Some t1 g wg) by done.
    set (t2 := with_groups _ t1).
    rewrite bind_M.
    rewrite (update_group_Some t2 g (with_leader (Some f1) wg))
      by (unfold t2; cbn; apply lookup_insert_eq).
    set (t3 := with_groups _ t2).
    rewrite (SetState_spec t3 leader lr) by done.
    set (h' := <[leader := Writer.set_state STATE_COMPLETED lr]> (writers t3)).
    assert (∀ q wq, q ≠ leader → writers t !! q = Some wq →
              ∃ wq', h' !! q = Some wq' ∧
                Writer.link_newer wq' = Writer.link_newer wq ∧
                (q ≠ f1 → wq' = wq) ∧
                (q = f1 → wq' = Writer.set_link_older None wq)) as Hh'.
    { intros q wq Hql Hwq. unfold h', t3, t2, t1. cbn.
      rewrite lookup_insert_ne by done.
      destruct (decide (q = f1)) as [->|Hqf].
      - rewrite lookup_insert_eq. assert (wq = fr) as -> by congruence.
        eexists. split; [done|]. done.
      - rewrite lookup_insert_ne by done. exists wq. done. }
    eexists. eexists. split; [reflexivity|].
    cbn [groups writers newest_writer_ with_writers with_groups].
    fold h'.
    split_and!.
    + unfold t3, t2, t1. cbn. apply lookup_insert_eq.
    + split; cbn [WriteGroup.leader WriteGroup.last_writer WriteGroup.size
                  with_size with_leader head].
      * done.
      * rewrite Hglast. done.
      * rewrite Hsz, Hgsz. cbn [length]. lia.
    + split.
      * by apply NoDup_cons in Hnd as [_ ?].
      * intros i a Ha.
        destruct (dlinked_nodes _ _ Hd (S i) a Ha) as [wa Hwa].
        destruct (Hh' a wa) as (wa' & -> & _); [|done|done].
        intros ->. assert (S i = 0)%nat; [|lia].
        by eapply (NoDup_lookup_inj (leader :: f1 :: fs')).
      * intros i a b Ha Hb.
        destruct (dlinked_pairs _ _ Hd (S i) a b Ha Hb)
          as (wa & wb & Hwa & Hwb & Hn & Ho).
        destruct (Hh' a wa) as (wa' & Hwa' & Hna & _); [|done|].
        { intros ->. assert (S i = 0)%nat; [|lia].
          by eapply (NoDup_lookup_inj (leader :: f1 :: fs')). }
        destruct (Hh' b wb) as (wb' & Hwb' & _ & Hsame & _); [|done|].
        { intros ->. assert (S (S i) = 0)%nat; [|lia].
          by eapply (NoDup_lookup_inj (leader :: f1 :: fs')). }
        exists wa', wb'. split_and!; try done; [congruence|].
        rewrite Hsame; [done|]. intros ->.
        assert (S (S i) = 1)%nat; [|lia].
        by eapply (NoDup_lookup_inj (leader :: f1 :: fs')).
    + intros p [= <-]. exists fr. split; [done|].
      destruct (Hh' f1 fr Hfl Hfr) as (wq' & -> & _ & _ & ->); done.
    + exists lr. split; [done|]. unfold h'. apply lookup_insert_eq.
    + intros p Hp. unfold h', t3, t2, t1. cbn.
      rewrite !lookup_insert_ne; [done| |].
      * intros <-. apply Hp. right. by left.
      * intros <-. apply Hp. by left.
    + intros g' Hg'. unfold t3, t2, t1. cbn. by rewrite !lookup_insert_ne.
    + reflexivity.
Qed.

(** The group at location 9 of the three writers at 2, 3 and 4, linked in
    both directions. *)
Definition group_of_three : WriteThread :=
  with_groups
    (<[9%positive := {| WriteGroup.leader := Some 2%positive;
                        WriteGroup.last_writer := Some 4%positive;
                        WriteGroup.last_sequence := 0;
                        WriteGroup.status := StatusOK;
                        WriteGroup.running := 0;
                        WriteGroup.size := 3 |}]> ∅)
    (with_newest_writer (Some 4%positive)
       (with_writers
          (<[2%positive := put 500 true false None (Some 3%positive)]>
             (<[3%positive := put 600 true false (Some 2%positive) (Some 4%positive)]>
                (<[4%positive := put 700 true false (Some 3%positive) None]> ∅)))
          idle)).

Lemma group_of_three_dlinked :
  dlinked (writers group_of_three) [2; 3; 4]%positive.
Proof.
  split.
  - apply (bool_decide_unpack _). vm_compute. exact I.
  - intros i a Ha.
    do 3 (destruct i as [|i]; [injection Ha as <-; eexists; reflexivity|]).
    done.
  - intros i a b Ha Hb.
    do 2 (destruct i as [|i];
          [injection Ha as <-; injection Hb as <-; eexists _, _;
           split_and!; reflexivity|]).
    destruct i; done.
Qed.

Lemma CompleteFollower_unlinks_witness :
  ∃ t' wg', @CompleteFollower debug (Some 3%positive) 9%positive group_of_three
            = Ok (tt, t') ∧
    groups t' !! 9%positive = Some wg' ∧
    WriteGroup.size wg' = 2 ∧
    dlinked (writers t') [2; 4]%positive.
Proof.
  destruct (CompleteFollower_unlinks debug group_of_three 9%positive
              {| WriteGroup.leader := Some 2%positive;
                 WriteGroup.last_writer := Some 4%positive;
                 WriteGroup.last_sequence := 0;
                 WriteGroup.status := StatusOK;
                 WriteGroup.running := 0;
                 WriteGroup.size := 3 |}
              [2%positive] 3%positive [4%positive])
    as (t' & wg' & Hrun & Hg & Hgroup & _ & Hd & _).
  - reflexivity.
  - split; reflexivity.
  - discriminate.
  - exact group_of_three_dlinked.
  - cbn. lia.
  - exists t', wg'. split; [exact Hrun|]. split; [exact Hg|].
    split; [exact (group_size _ _ Hgroup)|exact Hd].
Defined.

Lemma CompleteLeader_promotes_next_witness :
  ∃ t' wg', @CompleteLeader debug 9%positive group_of_three = Ok (tt, t') ∧
    groups t' !! 9%positive = Some wg' ∧
    WriteGroup.leader wg' = Some 3%positive ∧
    dlinked (writers t') [3; 4]%positive.
Proof.
  destruct (CompleteLeader_promotes_next debug group_of_three 9%positive
              {| WriteGroup.leader := Some 2%positive;
                 WriteGroup.last_writer := Some 4%positive;
                 WriteGroup.last_sequence := 0;
                 WriteGroup.status := StatusOK;
                 WriteGroup.running := 0;
                 WriteGroup.size := 3 |}
              2%positive [3; 4]%positive)
    as (t' & wg' & Hrun & Hg & Hgroup & Hd & _).
  - reflexivity.
  - split; reflexivity.
  - exact group_of_three_dlinked.
  - cbn. lia.
  - exists t', wg'. split; [exact Hrun|]. split; [exact Hg|].
    split; [exact (group_leader _ _ Hgroup)|exact Hd].
Defined.
(** ** Moving a group to the list of memtable writers *)

(** The first loop of [LinkGroup], from [last_writer] back to the
    leader. *)
Fixpoint LinkGroup_unset (fuel : nat) (leader w : option loc) : M unit :=
  match fuel with
  | O => fail OutOfFuel
  | S fuel' =>
      _ ← update w (Writer.set_link_newer None);
      _ ← update w (Writer.set_write_group None);
      if bool_decide (w = leader) then mret tt
      else
        wr ← deref w;
        LinkGroup_unset fuel' leader (Writer.link_older wr)
  end.

(** The second loop; [spurious] as in [LinkOne_loop]. *)
Fixpoint LinkGroup_push (fuel spurious : nat) (leader last_writer : option loc)
    (newest_writer : Head) (newest : option loc) : M bool :=
  match fuel with
  | O => fail OutOfFuel
  | S fuel' =>
      _ ← update leader (Writer.set_link_older newest);
      match spurious with
      | S spurious' =>
          current ← load newest_writer;
          LinkGroup_push fuel' spurious' leader last_writer newest_writer
            current
      | O =>
          '(exchanged, current) ←
            compare_exchange_strong newest_writer newest last_writer;
          if (exchanged : bool) then mret (bool_decide (newest = None))
          else LinkGroup_push fuel' O leader last_writer newest_writer current
      end
  end.

Definition LinkGroup (fuel spurious : nat) (write_group : loc)
    (newest_writer : Head) : M bool :=
  wg ← deref_group write_group;
  let leader := WriteGroup.leader wg in
  let last_writer := WriteGroup.last_writer wg in
  _ ← LinkGroup_unset fuel leader last_writer;
  newest ← load newest_writer;
  LinkGroup_push fuel spurious leader last_writer newest_writer newest.


(** A member of a group as [LinkGroup] leaves it. *)
Definition unset (w : Writer.t) : Writer.t :=
  Writer.set_write_group None (Writer.set_link_newer None w).

Lemma LinkGroup_unset_spec (ws : list loc) leader :
  ws !! 0%nat = Some leader → NoDup ws →
  ∀ d p fuel t,
  ws !! d = Some p →
  (∀ i q, (i ≤ d)%nat → ws !! i = Some q →
     ∃ wq, writers t !! q = Some wq ∧
       (i ≠ 0%nat → Writer.link_older wq = older_of ws i)) →
  (d < fuel)%nat →
  ∃ h', LinkGroup_unset fuel (Some leader) (Some p) t
        = Ok (tt, with_writers h' t) ∧
    (∀ i q, (i ≤ d)%nat → ws !! i = Some q →
       ∃ wq, writers t !! q = Some wq ∧ h' !! q = Some (unset wq)) ∧
    (∀ q, (∀ i, (i ≤ d)%nat → ws !! i ≠ Some q) → h' !! q = writers t !! q).
Proof.
  intros Hleader Hnd.
  induction d as [|d IH]; intros p fuel t Hp Hold Hfuel;
    (destruct fuel as [|fuel]; [lia|]); cbn [LinkGroup_unset];
    destruct (Hold _ p (Nat.le_refl _) Hp) as (wp & Hwp & Ho);
    rewrite bind_M, (update_Some _ _ _ _ Hwp);
    set (t1 := with_writers _ t);
    (assert (writers t1 !! p = Some (Writer.set_link_newer None wp)) as Hwp1
       by (unfold t1; cbn; apply lookup_insert_eq));
    rewrite bind_M, (update_Some _ _ _ _ Hwp1);
    set (t2 := with_writers _ t1);
    (assert (writers t2 = <[p := unset wp]> (writers t)) as Hh2
       by (unfold t2, t1; cbn; by rewrite insert_insert_eq)).
  - assert (p = leader) as -> by congruence.
    rewrite (bool_decide_eq_true_2 (Some leader = Some leader)) by done.
    exists (writers t2). split_and!.
    + reflexivity.
    + intros i q Hi Hq. assert (i = 0)%nat as -> by lia.
      assert (q = leader) as -> by congruence.
      exists wp. split; [done|]. rewrite Hh2. apply lookup_insert_eq.
    + intros q Hq. rewrite Hh2. apply lookup_insert_ne.
      intros <-. by apply (Hq 0%nat).
  - assert (p ≠ leader) as Hne.
    { intros ->. assert (S d = 0)%nat; [|lia].
      by eapply (NoDup_lookup_inj ws). }
    rewrite (bool_decide_eq_false_2 (Some p = Some leader)) by congruence.
    assert (writers t2 !! p = Some (unset wp)) as Hwp2.
    { rewrite Hh2. apply lookup_insert_eq. }
    rewrite bind_M, (deref_Some _ _ _ Hwp2).
    cbn [unset Writer.link_older Writer.set_write_group Writer.set_link_newer].
    rewrite Ho by done. cbn [older_of].
    destruct (lookup_lt_is_Some_2 ws d) as [p' Hp'].
    { apply lookup_lt_Some in Hp. lia. }
    rewrite Hp'.
    destruct (IH p' fuel t2 Hp') as (h' & Hrun & Hdone & Hframe).
    { intros i q Hi Hq. destruct (Hold i q ltac:(lia) Hq) as (wq & Hwq & Hoq).
      exists wq. split; [|done]. rewrite Hh2, lookup_insert_ne; [done|].
      intros <-. assert (S d = i); [|lia].
      by eapply (NoDup_lookup_inj ws). }
    { lia. }
    exists h'. split_and!.
    + rewrite Hrun. unfold t2, t1. reflexivity.
    + intros i q Hi Hq. destruct (decide (i = S d)) as [->|Hid].
      * assert (q = p) as -> by congruence. exists wp. split; [done|].
        rewrite Hframe; [done|].
        intros i Hi' Hq'. assert (i = S d); [|lia].
        by eapply (NoDup_lookup_inj ws).
      * destruct (Hdone i q ltac:(lia) Hq) as (wq & Hwq & ->).
        exists wq. split; [|done]. rewrite Hh2, lookup_insert_ne in Hwq; [done|].
        intros <-. assert (S d = i); [|lia].
        by eapply (NoDup_lookup_inj ws).
    + intros q Hq. rewrite Hframe.
      * rewrite Hh2. apply lookup_insert_ne. intros <-.
        by apply (Hq (S d) ltac:(lia)).
      * intros i Hi. apply Hq. lia.
Qed.

(** The state after the group with leader [leader] and last writer [last]
    is put in front of the head [a]. *)
Definition pushed (a : Head) (leader : loc) (lr : Writer.t) (last : option loc)
    (t : WriteThread) : WriteThread :=
  let t1 := with_writers (<[leader := Writer.set_link_older (head_of a t) lr]>
                            (writers t)) t in
  match a with
  | NewestWriter => with_newest_writer last t1
  | NewestMemtableWriter => with_newest_memtable_writer last t1
  end.

Lemma LinkGroup_push_spec a leader last : ∀ spurious fuel lr t,
  writers t !! leader = Some lr →
  (spurious < fuel)%nat →
  LinkGroup_push fuel spurious (Some leader) last a (head_of a t) t
  = Ok (bool_decide (head_of a t = None), pushed a leader lr last t).
Proof.
  induction spurious as [|spurious IH]; intros fuel lr t Hlr Hfuel;
    (destruct fuel as [|fuel]; [lia|]); cbn [LinkGroup_push];
    rewrite bind_M, (update_Some _ _ _ _ Hlr).
  - rewrite bind_M. unfold compare_exchange_strong.
    rewrite bind_M. unfold load at 1.
    rewrite head_of_with_writers,
      (bool_decide_eq_true_2 (head_of a t = head_of a t)) by done.
    rewrite bind_M. unfold store at 1. reflexivity.
  - rewrite bind_M. unfold load at 1.
    set (t1 := with_writers _ t).
    assert (head_of a t1 = head_of a t) as Hh1 by apply head_of_with_writers.
    rewrite (IH fuel (Writer.set_link_older (head_of a t) lr) t1).
    + rewrite Hh1. f_equal. f_equal. unfold pushed. rewrite Hh1.
      destruct a; apply WriteThread_eq; try reflexivity; cbn;
        by rewrite insert_insert_eq.
    + unfold t1. cbn. apply lookup_insert_eq.
    + lia.
Qed.

Lemma reach_group h (ws : list loc) p0 l :
  (∀ i q, ws !! i = Some q →
     ∃ wq, h !! q = Some wq ∧
       Writer.link_older wq = match i with O => p0 | S _ => older_of ws i end) →
  reach h p0 l →
  ∀ d p, ws !! d = Some p → reach h (Some p) (rev (take (S d) ws) ++ l).
Proof.
  intros Hws Hl. induction d as [|d IH]; intros p Hp;
    rewrite (take_S_r _ _ _ Hp), rev_unit; cbn [app];
    destruct (Hws _ p Hp) as (wp & Hwp & Ho);
    (split; [done|]); exists wp; (split; [done|]); rewrite Ho.
  - by rewrite take_0.
  - cbn [older_of].
    destruct (lookup_lt_is_Some_2 ws d) as [p' Hp'].
    { apply lookup_lt_Some in Hp. lia. }
    rewrite Hp'. by apply IH.
Qed.

(** [LinkGroup] puts a group in front of a list, run without interleaving
    and with any number of spurious failures of the compare-exchange.  The
    members of the group lose their [link_newer] and their [write_group],
    the leader's [link_older] becomes the previous head, the last writer of
    the group becomes the head, and the list is the group, newest first,
    followed by the list as it was.  The result tells whether the list was
    empty.  No other writer and no group object changes. *)
Theorem LinkGroup_links (t : WriteThread) (g : loc)
    (wg : WriteGroup.t) (leader : loc) (fs : list loc) (a : Head)
    (l : list loc) (fuel spurious : nat) :
  groups t !! g = Some wg →
  group_of wg (leader :: fs) →
  dlinked (writers t) (leader :: fs) →
  reach (writers t) (head_of a t) l →
  (∀ p, p ∈ leader :: fs → p ∉ l) →
  (length fs < fuel)%nat → (spurious < fuel)%nat →
  ∃ t', LinkGroup fuel spurious g a t = Ok (bool_decide (l = []), t') ∧
    head_of a t' = last (leader :: fs) ∧
    reach (writers t') (head_of a t') (rev (leader :: fs) ++ l) ∧
    (∃ lr, writers t !! leader = Some lr ∧
       writers t' !! leader
       = Some (Writer.set_link_older (head_of a t) (unset lr))) ∧
    (∀ p, p ∈ fs → ∃ wp, writers t !! p = Some wp ∧
       writers t' !! p = Some (unset wp)) ∧
    (∀ p, p ∉ leader :: fs → writers t' !! p = writers t !! p) ∧
    groups t' = groups t.
Proof.
  intros Hg [Hgl Hglast Hgsz] Hd Hreach Hdis Hfuel Hsp.
  pose proof (dlinked_NoDup _ _ Hd) as Hnd.
  set (ws := leader :: fs) in *.
  destruct (lookup_lt_is_Some_2 ws (length fs)) as [lastw Hlastw]; [cbn; lia|].
  assert (last ws = Some lastw) as Hlast by (by rewrite last_lookup).
  destruct (LinkGroup_unset_spec ws leader eq_refl Hnd (length fs) lastw fuel t
              Hlastw) as (h1 & Hrun1 & Hdone & Hframe1); [|done|].
  { intros i q _ Hq. destruct (dlinked_nodes _ _ Hd i q Hq) as [wq Hwq].
    exists wq. split; [done|]. intros Hi. destruct i as [|i]; [done|].
    cbn [older_of].
    destruct (lookup_lt_is_Some_2 ws i) as [q' Hq'].
    { apply lookup_lt_Some in Hq. lia. }
    destruct (dlinked_pairs _ _ Hd i q' q Hq' Hq) as (_ & wq0 & _ & Hwq0 & _ & Ho).
    rewrite Hq'. congruence. }
  assert (∀ i q, ws !! i = Some q →
            ∃ wq, writers t !! q = Some wq ∧ h1 !! q = Some (unset wq)) as Hmem.
  { intros i q Hq. apply (Hdone i q); [|done].
    apply lookup_lt_Some in Hq. cbn in Hq. lia. }
  destruct (Hmem 0%nat leader eq_refl) as (lr & Hlr & Hlr1).
  set (t1 := with_writers h1 t).
  set (t' := pushed a leader (unset lr) (Some lastw) t1).
  assert (head_of a t1 = head_of a t) as Hh1 by apply head_of_with_writers.
  assert (writers t' = <[leader := Writer.set_link_older (head_of a t) (unset lr)]> h1)
    as Hwt'.
  { unfold t', pushed. rewrite Hh1. by destruct a. }
  assert (head_of a t' = Some lastw) as Hht'.
  { unfold t', pushed. by destruct a. }
  exists t'. split_and!.
  - unfold LinkGroup. rewrite bind_M, (deref_group_Some _ _ _ Hg).
    rewrite Hgl, Hglast, Hlast. cbn [head ws].
    rewrite bind_M, Hrun1. fold t1.
    rewrite bind_M. unfold load at 1.
    rewrite (LinkGroup_push_spec a leader (Some lastw) spurious fuel (unset lr) t1)
      by done.
    rewrite Hh1. f_equal. f_equal.
    destruct l as [|q l]; cbn in Hreach.
    + rewrite Hreach. by rewrite !bool_decide_eq_true_2.
    + destruct Hreach as [-> _]. by rewrite !bool_decide_eq_false_2.
  - by rewrite Hht', Hlast.
  - rewrite Hht', Hwt'.
    assert (rev ws = rev (take (S (length fs)) ws)) as ->.
    { by rewrite take_ge by (cbn; lia). }
    apply (reach_group _ ws (head_of a t)); [| |done].
    + intros i q Hq. destruct (Hmem i q Hq) as (wq & Hwq & Hwq1).
      destruct i as [|i].
      * assert (q = leader) as -> by (cbn in Hq; congruence).
        rewrite lookup_insert_eq. eexists. split; [done|]. done.
      * rewrite lookup_insert_ne.
        2:{ intros <-. assert (0 = S i)%nat; [|lia].
            by eapply (NoDup_lookup_inj ws). }
        exists (unset wq). split; [done|].
        cbn [unset Writer.link_older Writer.set_write_group Writer.set_link_newer
             older_of].
        destruct (lookup_lt_is_Some_2 ws i) as [q' Hq'].
        { apply lookup_lt_Some in Hq. lia. }
        destruct (dlinked_pairs _ _ Hd i q' q Hq' Hq)
          as (_ & wq0 & _ & Hwq0 & _ & Ho).
        rewrite Hq'. congruence.
    + apply (reach_frame (writers t)); [|done].
      intros q Hq.
      assert (q ∉ ws) as Hnin by (intros Hin; by apply (Hdis q)).
      rewrite lookup_insert_ne.
      * apply Hframe1. intros i _ Hi. apply Hnin.
        by eapply list_elem_of_lookup_2.
      * intros <-. apply Hnin. by left.
  - exists lr. split; [done|]. rewrite Hwt'. apply lookup_insert_eq.
  - intros p Hp. apply list_elem_of_lookup in Hp as [i Hp].
    destruct (Hmem (S i) p Hp) as (wp & Hwp & Hwp1).
    exists wp. split; [done|]. rewrite Hwt', lookup_insert_ne; [done|].
    intros <-. assert (0 = S i)%nat; [|lia].
    by eapply (NoDup_lookup_inj ws).
  - intros p Hp. rewrite Hwt', lookup_insert_ne.
    + apply Hframe1. intros i _ Hi. apply Hp. by eapply list_elem_of_lookup_2.
    + intros <-. apply Hp. by left.
  - unfold t', pushed. by destruct a.
Qed.

Lemma LinkGroup_links_witness :
  ∃ t', LinkGroup 3 1 9%positive NewestMemtableWriter group_of_three
        = Ok (true, t') ∧
    newest_memtable_writer_ t' = Some 4%positive ∧
    reach (writers t') (Some 4%positive) [4; 3; 2]%positive.
Proof.
  destruct (LinkGroup_links group_of_three 9%positive
              {| WriteGroup.leader := Some 2%positive;
                 WriteGroup.last_writer := Some 4%positive;
                 WriteGroup.last_sequence := 0;
                 WriteGroup.status := StatusOK;
                 WriteGroup.running := 0;
                 WriteGroup.size := 3 |}
              2%positive [3; 4]%positive NewestMemtableWriter [] 3 1)
    as (t' & Hrun & Hhead & Hreach & _).
  - reflexivity.
  - split; reflexivity.
  - exact group_of_three_dlinked.
  - reflexivity.
  - intros p _ Hp. by apply elem_of_nil in Hp.
  - cbn. lia.
  - lia.
  - exists t'. split; [exact Hrun|]. split; [exact Hhead|].
    rewrite Hhead in Hreach. exact Hreach.
Defined.
(** ** The end of a group of memtable writers *)

Section ExitMemTable.
Context `{Build}.

(** The loop of [ExitAsMemTableWriter], from the leader on to
    [last_writer]. *)
Fixpoint ExitAsMemTableWriter_complete (fuel : nat) (write_group : loc)
    (leader last_writer w : option loc) : M unit :=
  match fuel with
  | O => fail OutOfFuel
  | S fuel' =>
      wg ← deref_group write_group;
      _ ← (if negb (ok (WriteGroup.status wg))
           then update w (Writer.set_status (WriteGroup.status wg))
           else mret tt);
      wr ← deref w;
      let next := Writer.link_newer wr in
      _ ← (if bool_decide (w ≠ leader) then SetState w STATE_COMPLETED
           else mret tt);
      if bool_decide (w = last_writer) then mret tt
      else ExitAsMemTableWriter_complete fuel' write_group leader last_writer
             next
  end.

Definition ExitAsMemTableWriter (fuel : nat) (write_group : loc) : M unit :=
  wg ← deref_group write_group;
  let leader := WriteGroup.leader wg in
  let last_writer := WriteGroup.last_writer wg in
  '(exchanged, newest_writer) ←
    compare_exchange_strong NewestMemtableWriter last_writer None;
  _ ← (if (exchanged : bool) then mret tt
       else
         _ ← CreateMissingNewerLinks fuel newest_writer;
         lw ← deref last_writer;
         let next_leader := Writer.link_newer lw in
         _ ← lift (assert (bool_decide (next_leader ≠ None)));
         _ ← update next_leader (Writer.set_link_older None);
         SetState next_leader STATE_MEMTABLE_WRITER_LEADER);
  _ ← ExitAsMemTableWriter_complete fuel write_group leader last_writer leader;
  SetState leader STATE_COMPLETED.

End ExitMemTable.

(** The status a member of the group ends with: an error recorded in the
    group replaces the member's own. *)
Definition with_group_status (wg : WriteGroup.t) (w : Writer.t) : Writer.t :=
  if ok (WriteGroup.status wg) then w
  else Writer.set_status (WriteGroup.status wg) w.

Lemma ExitAsMemTableWriter_complete_spec `{Build} (chain : list loc) leader
    lastw k g wg :
  chain !! 0%nat = Some leader → chain !! k = Some lastw → NoDup chain →
  ∀ r d p fuel t,
  (d + r = k)%nat →
  chain !! d = Some p →
  groups t !! g = Some wg →
  (∀ i q, (d ≤ i ≤ k)%nat → chain !! i = Some q →
     ∃ wq, writers t !! q = Some wq ∧
       (i < k → Writer.link_newer wq = chain !! S i)%nat) →
  (r < fuel)%nat →
  ∃ h', ExitAsMemTableWriter_complete fuel g (Some leader) (Some lastw) (Some p) t
        = Ok (tt, with_writers h' t) ∧
    (∀ i q, (d ≤ i ≤ k)%nat → chain !! i = Some q →
       ∃ wq, writers t !! q = Some wq ∧
         h' !! q = Some ((if decide (i = 0)%nat then id
                          else Writer.set_state STATE_COMPLETED)
                           (with_group_status wg wq))) ∧
    (∀ q, (∀ i, (d ≤ i ≤ k)%nat → chain !! i ≠ Some q) →
       h' !! q = writers t !! q).
Proof.
  intros Hleader Hlastw Hnd.
  induction r as [|r IH]; intros d p fuel t Hdr Hp Hg Hnewer Hfuel;
    (destruct fuel as [|fuel]; [lia|]); cbn [ExitAsMemTableWriter_complete];
    rewrite bind_M, (deref_group_Some _ _ _ Hg);
    destruct (Hnewer d p ltac:(lia) Hp) as (wp & Hwp & Hn);
    rewrite bind_M;
    (assert ((if negb (ok (WriteGroup.status wg))
              then update (Some p) (Writer.set_status (WriteGroup.status wg))
              else mret tt) t
             = Ok (tt, with_writers (<[p := with_group_status wg wp]> (writers t)) t))
       as -> by (unfold with_group_status; destruct (ok (WriteGroup.status wg));
                 cbn [negb]; [|by apply update_Some];
                 cbn [mret M_ret]; f_equal; f_equal;
                 rewrite insert_id by done; by rewrite with_writers_id));
    set (t1 := with_writers _ t);
    (assert (writers t1 !! p = Some (with_group_status wg wp)) as Hwp1
       by (unfold t1; cbn; apply lookup_insert_eq));
    rewrite bind_M, (deref_Some _ _ _ Hwp1);
    (assert (Writer.link_newer (with_group_status wg wp) = Writer.link_newer wp)
       as Hln by (unfold with_group_status; by destruct (ok _)));
    rewrite Hln; rewrite bind_M;
    set (wp' := (if decide (d = 0)%nat then id
                 else Writer.set_state STATE_COMPLETED) (with_group_status wg wp));
    (assert ((if bool_decide (Some p ≠ Some leader)
              then SetState (Some p) STATE_COMPLETED else mret tt) t1
             = Ok (tt, with_writers (<[p := wp']> (writers t)) t)) as ->
       by (unfold wp'; destruct (decide (d = 0)%nat) as [->|Hd0];
           [assert (p = leader) as -> by congruence;
            rewrite (bool_decide_eq_false_2 (Some leader ≠ Some leader))
              by (intros Hne; by apply Hne);
            cbn [mret M_ret id]; reflexivity
           |rewrite (bool_decide_eq_true_2 (Some p ≠ Some leader))
              by (intros [= ->]; apply Hd0;
                  by eapply (NoDup_lookup_inj chain));
            rewrite (SetState_spec t1 p _ STATE_COMPLETED Hwp1) by done;
            unfold t1; cbn; by rewrite insert_insert_eq]));
    set (t2 := with_writers _ t).
  - assert (d = k) as -> by lia. assert (p = lastw) as -> by congruence.
    rewrite (bool_decide_eq_true_2 (Some lastw = Some lastw)) by done.
    exists (<[lastw := wp']> (writers t)). split_and!.
    + reflexivity.
    + intros i q Hi Hq. assert (i = k) as -> by lia.
      assert (q = lastw) as -> by congruence.
      exists wp. split; [done|]. apply lookup_insert_eq.
    + intros q Hq. apply lookup_insert_ne. intros <-. by apply (Hq k).
  - assert (p ≠ lastw) as Hpl.
    { intros ->. assert (d = k); [|lia]. by eapply (NoDup_lookup_inj chain). }
    rewrite (bool_decide_eq_false_2 (Some p = Some lastw)) by congruence.
    rewrite Hn by lia.
    destruct (lookup_lt_is_Some_2 chain (S d)) as [p' Hp'].
    { apply lookup_lt_Some in Hlastw. lia. }
    rewrite Hp'.
    destruct (IH (S d) p' fuel t2 ltac:(lia) Hp') as (h' & Hrun & Hdone & Hframe).
    { done. }
    { intros i q Hi Hq. destruct (Hnewer i q ltac:(lia) Hq) as (wq & Hwq & Hnq).
      exists wq. split; [|done]. unfold t2. cbn.
      rewrite lookup_insert_ne; [done|].
      intros <-. assert (d = i); [|lia]. by eapply (NoDup_lookup_inj chain). }
    { lia. }
    exists h'. split_and!.
    + rewrite Hrun. reflexivity.
    + intros i q Hi Hq. destruct (decide (i = d)) as [->|Hid].
      * assert (q = p) as -> by congruence. exists wp. split; [done|].
        rewrite Hframe; [unfold t2; cbn; apply lookup_insert_eq|].
        intros i Hi' Hq'. assert (i = d); [|lia].
        by eapply (NoDup_lookup_inj chain).
      * destruct (Hdone i q ltac:(lia) Hq) as (wq & Hwq & ->).
        exists wq. split; [|done]. unfold t2 in Hwq. cbn in Hwq.
        rewrite lookup_insert_ne in Hwq; [done|].
        intros <-. assert (d = i); [|lia]. by eapply (NoDup_lookup_inj chain).
    + intros q Hq. rewrite Hframe.
      * unfold t2. cbn. apply lookup_insert_ne. intros <-.
        by apply (Hq d ltac:(lia)).
      * intros i Hi. apply Hq. lia.
Qed.

(** A member of a group of memtable writers as the leader leaves it. *)
Definition memtable_written (wg : WriteGroup.t) (w : Writer.t) : Writer.t :=
  Writer.set_state STATE_COMPLETED (with_group_status wg w).

Lemma with_group_status_newer wg n w :
  with_group_status wg (Writer.set_link_newer n w)
  = Writer.set_link_newer n (with_group_status wg w).
Proof. unfold with_group_status. by destruct (ok _). Qed.

Lemma ExitAsMemTableWriter_spec `{Build} t g wg leader fs rest m fuel :
  groups t !! g = Some wg →
  WriteGroup.leader wg = Some leader →
  WriteGroup.last_writer wg = last (leader :: fs) →
  linked (writers t) (leader :: fs ++ rest) m (length (leader :: fs ++ rest)) →
  (length fs ≤ m)%nat →
  newest_memtable_writer_ t = last (leader :: fs ++ rest) →
  (length (leader :: fs ++ rest) < fuel)%nat →
  ∃ h', ExitAsMemTableWriter fuel g t
        = Ok (tt, with_writers h' (with_newest_memtable_writer (last rest) t)) ∧
    (∀ i p, (leader :: fs) !! i = Some p →
       ∃ wr n, writers t !! p = Some wr ∧
         h' !! p = Some (memtable_written wg (Writer.set_link_newer n wr))) ∧
    (∀ i p, rest !! i = Some p →
       ∃ wr, writers t !! p = Some wr ∧
         h' !! p = Some (Writer.set_link_newer (rest !! S i)
                           (if decide (i = 0)%nat
                            then Writer.set_state STATE_MEMTABLE_WRITER_LEADER
                                   (Writer.set_link_older None wr)
                            else wr))) ∧
    (∀ p, p ∉ leader :: fs ++ rest → h' !! p = writers t !! p).
Proof.
  intros Hg Hleader Hlastw Hlinked Hm Hnewest Hfuel.
  set (chain := leader :: fs ++ rest) in *.
  pose proof (linked_NoDup _ _ _ _ Hlinked) as Hnd.
  assert (chain !! 0%nat = Some leader) as Hc0 by done.
  destruct (lookup_lt_is_Some_2 chain (length fs)) as [lastw Hck].
  { unfold chain. cbn. rewrite length_app. lia. }
  assert (last (leader :: fs) = Some lastw) as Hlw.
  { rewrite last_lookup. cbn [length Nat.pred].
    unfold chain in Hck. rewrite app_comm_cons, lookup_app_l in Hck; [done|].
    cbn. lia. }
  rewrite Hlw in Hlastw.
  assert (∀ i p, (leader :: fs) !! i = Some p →
            chain !! i = Some p ∧ (i ≤ length fs)%nat) as Hgrp.
  { intros i p Hp. apply lookup_lt_Some in Hp as Hlt. cbn in Hlt.
    split; [|lia]. unfold chain. rewrite app_comm_cons.
    by apply lookup_app_l_Some. }
  assert (∀ i, chain !! (S (length fs) + i)%nat = rest !! i) as Hrest.
  { intros i.
    change (chain !! (S (length fs) + i)%nat)
      with ((fs ++ rest) !! (length fs + i)%nat).
    rewrite lookup_app_r by lia.
    by replace (length fs + i - length fs)%nat with i by lia. }
  unfold ExitAsMemTableWriter.
  rewrite bind_M. unfold deref_group at 1. rewrite Hg. cbv beta iota.
  rewrite Hleader, Hlastw.
  rewrite bind_M. unfold compare_exchange_strong at 1.
  rewrite bind_M. unfold load at 1. cbn [head_of]. rewrite Hnewest.
  destruct rest as [|r1 rest'].
  - assert (last chain = Some lastw) as Hlc.
    { unfold chain. by rewrite app_nil_r. }
    rewrite Hlc.
    rewrite (bool_decide_eq_true_2 (Some lastw = Some lastw)) by done.
    rewrite bind_M. unfold store at 1. cbn [mret M_ret].
    rewrite bind_M. cbn [mret M_ret].
    set (t0 := with_newest_memtable_writer None t).
    rewrite bind_M.
    destruct (ExitAsMemTableWriter_complete_spec chain leader lastw (length fs)
                g wg Hc0 Hck Hnd (length fs) 0%nat leader fuel t0)
      as (h' & Hrun & Hdone & Hframe); [done|done|done| |  |].
    { intros i q Hi Hq.
      destruct (linked_nodes _ _ _ _ Hlinked i q Hq) as (wq & Hwq & _ & Hn).
      exists wq. split; [done|]. intros Hlt.
      rewrite Hn. by rewrite bool_decide_eq_true_2 by lia. }
    { unfold chain in Hfuel. cbn in Hfuel. rewrite length_app in Hfuel. lia. }
    rewrite Hrun.
    destruct (Hdone 0%nat leader ltac:(lia) Hc0) as (lr & Hlr & Hlr').
    rewrite decide_True in Hlr' by done. cbn [id] in Hlr'.
    rewrite (SetState_spec (with_writers h' t0) leader _ STATE_COMPLETED Hlr')
      by done.
    exists (<[leader := Writer.set_state STATE_COMPLETED
                          (with_group_status wg lr)]> h').
    split; [reflexivity|]. split_and!.
    + intros i p Hp. destruct (Hgrp i p Hp) as [Hc Hi].
      destruct i as [|i].
      * assert (p = leader) as -> by congruence.
        exists lr, (Writer.link_newer lr). split; [done|].
        rewrite lookup_insert_eq. unfold memtable_written.
        by destruct lr.
      * destruct (Hdone (S i) p ltac:(lia) Hc) as (wq & Hwq & Hwq').
        rewrite decide_False in Hwq' by done.
        exists wq, (Writer.link_newer wq). split; [done|].
        rewrite lookup_insert_ne.
        2:{ intros <-. assert (0 = S i)%nat; [|lia].
            by eapply (NoDup_lookup_inj chain). }
        rewrite Hwq'. unfold memtable_written. by destruct wq.
    + intros i p Hp. done.
    + intros p Hp. rewrite lookup_insert_ne.
      * apply Hframe. intros i Hi Hq. apply Hp. by eapply list_elem_of_lookup_2.
      * intros <-. apply Hp. by left.
  - set (n := Nat.pred (length chain)).
    assert (n = S (length fs) + length rest')%nat as Hn.
    { unfold n, chain. cbn. rewrite length_app. cbn. lia. }
    destruct (lookup_lt_is_Some_2 chain n) as [newest Hcn]; [unfold n; cbn; lia|].
    assert (last chain = Some newest) as Hlc by (by rewrite last_lookup).
    assert (newest ≠ lastw) as Hnl.
    { intros ->. assert (n = length fs); [|lia].
      by eapply (NoDup_lookup_inj chain). }
    assert (chain !! S (length fs) = Some r1) as Hr1.
    { specialize (Hrest 0%nat). by rewrite Nat.add_0_r in Hrest. }
    assert (∀ i q, (i ≤ length fs)%nat → chain !! i = Some q → q ≠ r1) as Hnr1.
    { intros i q Hi Hq ->. assert (i = S (length fs)); [|lia].
      by eapply (NoDup_lookup_inj chain). }
    rewrite Hlc.
    rewrite (bool_decide_eq_false_2 (Some newest = Some lastw)) by congruence.
    cbn [mret M_ret]. rewrite bind_M. rewrite bind_M.
    destruct (CreateMissingNewerLinks_spec chain m n fuel newest t)
      as (h1 & Hcml & Hl1 & Hsame & Hframe1).
    { by apply linked_last. }
    { done. }
    { unfold n. lia. }
    rewrite Hcml. set (t1 := with_writers h1 t).
    destruct (linked_nodes _ _ _ _ Hl1 (length fs) lastw Hck)
      as (lw1 & Hlw1 & _ & Hlwn).
    rewrite bool_decide_eq_true_2, Hr1 in Hlwn by lia.
    destruct (linked_nodes _ _ _ _ Hl1 (S (length fs)) r1 Hr1)
      as (rr1 & Hrr1 & Hro & Hrn).
    rewrite bool_decide_eq_true_2 in Hrn by lia.
    rewrite bind_M, (deref_Some t1 lastw lw1) by done. rewrite Hlwn.
    rewrite (bool_decide_eq_true_2 (Some r1 ≠ None)) by done.
    rewrite bind_M, assert_true, lift_Ok.
    rewrite bind_M, (update_Some t1 r1 rr1) by done.
    set (t2 := with_writers _ t1).
    rewrite (SetState_spec t2 r1 (Writer.set_link_older None rr1)
               STATE_MEMTABLE_WRITER_LEADER);
      [|unfold t2; cbn; apply lookup_insert_eq|done].
    set (t3 := with_writers _ t2).
    assert (writers t3 = <[r1 := Writer.set_state STATE_MEMTABLE_WRITER_LEADER
                                   (Writer.set_link_older None rr1)]> h1) as Hh3.
    { unfold t3, t2, t1. cbn. by rewrite insert_insert_eq. }
    rewrite bind_M.
    destruct (ExitAsMemTableWriter_complete_spec chain leader lastw (length fs)
                g wg Hc0 Hck Hnd (length fs) 0%nat leader fuel t3)
      as (h' & Hrun & Hdone & Hframe); [done|done|done| |  |].
    { intros i q Hi Hq.
      destruct (linked_nodes _ _ _ _ Hl1 i q Hq) as (wq & Hwq & _ & Hnq).
      exists wq. split.
      - rewrite Hh3, lookup_insert_ne; [done|].
        intros <-. by apply (Hnr1 i r1 ltac:(lia)).
      - intros Hlt. rewrite Hnq. by rewrite bool_decide_eq_true_2 by lia. }
    { unfold n in Hn. lia. }
    rewrite Hrun.
    destruct (Hdone 0%nat leader ltac:(lia) Hc0) as (lr3 & Hlr3 & Hlr').
    rewrite decide_True in Hlr' by done. cbn [id] in Hlr'.
    rewrite (SetState_spec (with_writers h' t3) leader _ STATE_COMPLETED Hlr')
      by done.
    exists (<[leader := Writer.set_state STATE_COMPLETED
                          (with_group_status wg lr3)]> h').
    split.
    { f_equal. f_equal. apply WriteThread_eq; try reflexivity.
      cbn. rewrite Hnewest, Hlc. symmetry.
      rewrite last_lookup. cbn [length Nat.pred].
      specialize (Hrest (length rest')). rewrite <- Hrest.
      by rewrite <- Hn. }
    assert (∀ i p, (i ≤ length fs)%nat → chain !! i = Some p →
              ∃ wr w3, writers t !! p = Some wr ∧ writers t3 !! p = Some w3 ∧
                w3 = Writer.set_link_newer (Writer.link_newer w3) wr) as Hold.
    { intros i p Hi Hp.
      destruct (linked_nodes _ _ _ _ Hlinked i p Hp) as (wr & Hwr & _).
      destruct (linked_nodes _ _ _ _ Hl1 i p Hp) as (w1 & Hw1 & _).
      specialize (Hsame p). rewrite Hwr, Hw1 in Hsame. cbn in Hsame.
      exists wr, w1. split; [done|]. split; [|done].
      rewrite Hh3, lookup_insert_ne; [done|].
      intros <-. by apply (Hnr1 i r1). }
    split_and!.
    + intros i p Hp. destruct (Hgrp i p Hp) as [Hc Hi].
      destruct (Hold i p Hi Hc) as (wr & w3 & Hwr & Hw3 & Heq).
      exists wr, (Writer.link_newer w3). split; [done|].
      destruct i as [|i].
      * assert (p = leader) as -> by congruence.
        rewrite lookup_insert_eq. assert (lr3 = w3) as -> by congruence.
        unfold memtable_written. by rewrite <- Heq.
      * destruct (Hdone (S i) p ltac:(lia) Hc) as (wq & Hwq & Hwq').
        rewrite decide_False in Hwq' by done.
        assert (wq = w3) as -> by congruence.
        rewrite lookup_insert_ne.
        2:{ intros <-. assert (0 = S i)%nat; [|lia].
            by eapply (NoDup_lookup_inj chain). }
        rewrite Hwq'. unfold memtable_written. by rewrite <- Heq.
    + intros i p Hp.
      assert (chain !! (S (length fs) + i)%nat = Some p) as Hci
        by (by rewrite Hrest).
      destruct (linked_nodes _ _ _ _ Hlinked _ p Hci) as (wr & Hwr & _).
      destruct (linked_nodes _ _ _ _ Hl1 _ p Hci) as (w1 & Hw1 & _ & Hn1).
      rewrite bool_decide_eq_true_2 in Hn1 by lia.
      assert (chain !! S (S (length fs) + i) = (r1 :: rest') !! S i) as Hnext.
      { rewrite <- Hrest. f_equal. lia. }
      rewrite Hnext in Hn1.
      specialize (Hsame p). rewrite Hwr, Hw1 in Hsame. cbn in Hsame.
      exists wr. split; [done|].
      rewrite lookup_insert_ne.
      2:{ intros <-. assert (0 = S (length fs) + i)%nat; [|lia].
          by eapply (NoDup_lookup_inj chain). }
      rewrite Hframe.
      2:{ intros i' Hi' Hq. assert (i' = S (length fs) + i)%nat; [|lia].
          by eapply (NoDup_lookup_inj chain). }
      rewrite Hh3. destruct i as [|i].
      * rewrite Nat.add_0_r in Hci. assert (p = r1) as -> by congruence.
        rewrite lookup_insert_eq. assert (w1 = rr1) as -> by congruence.
        rewrite decide_True by done. rewrite Hsame at 1. by rewrite Hn1.
      * rewrite lookup_insert_ne.
        2:{ intros <-. assert (S (length fs) = S (length fs) + S i)%nat; [|lia].
            by eapply (NoDup_lookup_inj chain). }
        rewrite decide_False by done. rewrite Hw1, Hsame. by rewrite Hn1.
    + intros p Hp. rewrite lookup_insert_ne.
      2:{ intros <-. apply Hp. by left. }
      rewrite Hframe.
      2:{ intros i Hi Hq. apply Hp. by eapply list_elem_of_lookup_2. }
      rewrite Hh3, lookup_insert_ne.
      * by apply Hframe1.
      * intros <-. apply Hp. by eapply list_elem_of_lookup_2.
Qed.

(** [ExitAsMemTableWriter], called for the group [leader :: fs] at the old
    end of the list of memtable writers, with [rest] the writers behind
    the group.  Every member of the group, the leader last, gets the state
    [STATE_COMPLETED], and the status of the group when that is an error.
    With no writer behind the group the list becomes empty.  Otherwise its
    head stays, the first writer behind the group becomes the oldest and
    gets the state [STATE_MEMTABLE_WRITER_LEADER], and the writers behind
    the group form a queue with all its links.  The group object, the list
    of pending writers and the writers outside the list are not changed. *)
Theorem ExitAsMemTableWriter_completes_group (build : Build)
    (t : WriteThread) (g : loc) (wg : WriteGroup.t) (leader : loc)
    (fs rest : list loc) (m fuel : nat) :
  groups t !! g = Some wg →
  WriteGroup.leader wg = Some leader →
  WriteGroup.last_writer wg = last (leader :: fs) →
  linked (writers t) (leader :: fs ++ rest) m (length (leader :: fs ++ rest)) →
  (length fs ≤ m)%nat →
  newest_memtable_writer_ t = last (leader :: fs ++ rest) →
  (length (leader :: fs ++ rest) < fuel)%nat →
  ∃ t', ExitAsMemTableWriter fuel g t = Ok (tt, t') ∧
    groups t' = groups t ∧
    newest_writer_ t' = newest_writer_ t ∧
    newest_memtable_writer_ t' = last rest ∧
    linked (writers t') rest (length rest) 0 ∧
    (∀ p, p ∈ leader :: fs →
       ∃ wr n, writers t !! p = Some wr ∧
         writers t' !! p
         = Some (memtable_written wg (Writer.set_link_newer n wr))) ∧
    (∀ p, head rest = Some p →
       ∃ wr n, writers t !! p = Some wr ∧
         writers t' !! p
         = Some (Writer.set_link_newer n
                   (Writer.set_state STATE_MEMTABLE_WRITER_LEADER
                      (Writer.set_link_older None wr)))) ∧
    (∀ p, p ∉ leader :: fs ++ rest → writers t' !! p = writers t !! p).
Proof.
  intros Hg Hleader Hlastw Hlinked Hm Hnewest Hfuel.
  destruct (ExitAsMemTableWriter_spec t g wg leader fs rest m fuel
              Hg Hleader Hlastw Hlinked Hm Hnewest Hfuel)
    as (h' & Hrun & Hgrp & Hrest & Hframe).
  eexists. split; [exact Hrun|].
  cbn [groups newest_writer_ newest_memtable_writer_ writers with_writers
       with_newest_memtable_writer].
  pose proof (linked_NoDup _ _ _ _ Hlinked) as Hnd.
  split_and!; try done.
  - split.
    + apply NoDup_cons in Hnd as [_ Hnd]. by apply NoDup_app in Hnd as (_ & _ & ?).
    + intros i p Hp. destruct (Hrest i p Hp) as (wr & Hwr & ->).
      eexists. split; [done|].
      rewrite bool_decide_eq_true_2 by lia. split; [|done].
      assert (∀ i, (leader :: fs ++ rest) !! (S (length fs) + i)%nat
                   = rest !! i) as Hchain.
      { intros i'.
        change ((leader :: fs ++ rest) !! (S (length fs) + i')%nat)
          with ((fs ++ rest) !! (length fs + i')%nat).
        rewrite lookup_app_r by lia.
        by replace (length fs + i' - length fs)%nat with i' by lia. }
      assert ((leader :: fs ++ rest) !! (S (length fs) + i)%nat = Some p) as Hci
        by (by rewrite Hchain).
      destruct (linked_nodes _ _ _ _ Hlinked _ p Hci) as (wr0 & Hwr0 & Ho & _).
      assert (wr0 = wr) as -> by congruence.
      destruct i as [|i]; [done|].
      rewrite decide_False by done.
      cbn [Writer.link_older Writer.set_link_newer]. rewrite Ho.
      transitivity ((leader :: fs ++ rest) !! (S (length fs) + i)%nat);
        [|apply Hchain].
      replace (S (length fs) + S i)%nat with (S (S (length fs) + i)) by lia.
      reflexivity.
  - intros p Hp. apply list_elem_of_lookup in Hp as [i Hp]. by apply (Hgrp i).
  - intros p Hp. destruct rest as [|r1 rest']; [done|]. injection Hp as ->.
    destruct (Hrest 0%nat p eq_refl) as (wr & Hwr & ->).
    exists wr, ((p :: rest') !! 1%nat). done.
Qed.

(** The memtable writers at 2 and 3 are a group whose memtable writes
    failed; the writer at 4 waits behind them. *)
Definition memtable_group : WriteThread :=
  with_newest_memtable_writer (Some 4%positive)
    (with_groups
       (<[9%positive := {| WriteGroup.leader := Some 2%positive;
                           WriteGroup.last_writer := Some 3%positive;
                           WriteGroup.last_sequence := 0;
                           WriteGroup.status := IOError "disk full";
                           WriteGroup.running := 0;
                           WriteGroup.size := 2 |}]> ∅)
       (with_newest_writer None three_writers)).

Lemma ExitAsMemTableWriter_completes_group_witness :
  ∃ t', @ExitAsMemTableWriter debug 4 9%positive memtable_group = Ok (tt, t') ∧
    newest_memtable_writer_ t' = Some 4%positive ∧
    Writer.state <$> writers t' !! 2%positive = Some STATE_COMPLETED ∧
    Writer.status <$> writers t' !! 3%positive = Some (IOError "disk full") ∧
    Writer.state <$> writers t' !! 4%positive
      = Some STATE_MEMTABLE_WRITER_LEADER.
Proof.
  destruct (ExitAsMemTableWriter_completes_group debug memtable_group
              9%positive
              {| WriteGroup.leader := Some 2%positive;
                 WriteGroup.last_writer := Some 3%positive;
                 WriteGroup.last_sequence := 0;
                 WriteGroup.status := IOError "disk full";
                 WriteGroup.running := 0;
                 WriteGroup.size := 2 |}
              2%positive [3%positive] [4%positive] 1 4)
    as (t' & Hrun & _ & _ & Hnewest & _ & Hgrp & Hnext & _).
  - reflexivity.
  - reflexivity.
  - reflexivity.
  - apply linkedb_linked. vm_compute. reflexivity.
  - cbn. lia.
  - reflexivity.
  - cbn. lia.
  - exists t'. split; [exact Hrun|]. split; [exact Hnewest|].
    destruct (Hgrp 2%positive ltac:(by left)) as (wr2 & n2 & _ & ->).
    destruct (Hgrp 3%positive ltac:(by right; left)) as (wr3 & n3 & _ & ->).
    destruct (Hnext 4%positive eq_refl) as (wr4 & n4 & _ & ->).
    done.
Defined.

(** ** The group of memtable writers *)

Definition uint64_t (z : Z) : Z := z `mod` 2 ^ 64.

Definition with_last_sequence (n : Z) (wg : WriteGroup.t) : WriteGroup.t :=
  {| WriteGroup.leader := WriteGroup.leader wg;
     WriteGroup.last_writer := WriteGroup.last_writer wg;
     WriteGroup.last_sequence := n;
     WriteGroup.status := WriteGroup.status wg;
     WriteGroup.running := WriteGroup.running wg;
     WriteGroup.size := WriteGroup.size wg |}.

(** The tests of the loop of [EnterAsMemTableWriter] that end the group
    before the writer [w], in the order of the source; [size] is the byte
    size of the group so far. *)
Definition ends_memtable_group (allow_concurrent_memtable_write : bool)
    (w : Writer.t) (size max_size : Z) : bool :=
  match Writer.batch w with
  | None => true
  | Some b =>
      if HasMerge b then true
      else if negb allow_concurrent_memtable_write
      then bool_decide (max_size < size_t (size + ByteSize b))
      else false
  end.

Section EnterMemTable.
Context `{Build}.

(** The loop of [EnterAsMemTableWriter], from the writer [w] up to
    [newest_writer]; the result is [last_writer]. *)
Fixpoint EnterAsMemTableWriter_loop (fuel : nat) (write_group : loc)
    (newest_writer : option loc) (max_size : Z) (w last_writer : option loc)
    (size : Z) : M (option loc) :=
  if bool_decide (w = newest_writer) then mret last_writer
  else
    match fuel with
    | O => fail OutOfFuel
    | S fuel' =>
        wr ← deref w;
        let w := Writer.link_newer wr in
        wr ← deref w;
        allow ← (fun t => Ok (allow_concurrent_memtable_write_ t, t));
        if ends_memtable_group allow wr size max_size then mret last_writer
        else
          batch ← lift (match Writer.batch wr with
                        | Some b => Ok b
                        | None => Err InvalidDeref
                        end);
          let size :=
            if negb allow then size_t (size + ByteSize batch) else size in
          _ ← update w (Writer.set_write_group (Some write_group));
          let last_writer := w in
          _ ← update_group write_group (fun wg =>
                with_size (size_t (WriteGroup.size wg + 1)) wg);
          EnterAsMemTableWriter_loop fuel' write_group newest_writer max_size
            w last_writer size
    end.

Definition EnterAsMemTableWriter (fuel : nat) (leader : option loc)
    (write_group : loc) : M unit :=
  _ ← lift (assert (bool_decide (leader ≠ None)));
  _ ← assert_reading
        (lr ← deref leader; mret (bool_decide (Writer.link_older lr = None)));
  _ ← assert_reading
        (lr ← deref leader; mret (bool_decide (Writer.batch lr ≠ None)));
  lr ← deref leader;
  batch ← lift (match Writer.batch lr with
                | Some b => Ok b
                | None => Err InvalidDeref
                end);
  let size := ByteSize batch in
  let max_size := max_group_size size in
  _ ← update leader (Writer.set_write_group (Some write_group));
  _ ← update_group write_group (with_leader leader);
  _ ← update_group write_group (with_size 1);
  let last_writer := leader in
  allow ← (fun t => Ok (allow_concurrent_memtable_write_ t, t));
  last_writer ←
    (if negb allow
     then
       newest_writer ← load NewestMemtableWriter;
       _ ← CreateMissingNewerLinks fuel newest_writer;
       EnterAsMemTableWriter_loop fuel write_group newest_writer max_size
         leader last_writer size
     else
       lr ← deref leader;
       batch ← lift (match Writer.batch lr with
                     | Some b => Ok b
                     | None => Err InvalidDeref
                     end);
       if negb (HasMerge batch)
       then
         newest_writer ← load NewestMemtableWriter;
         _ ← CreateMissingNewerLinks fuel newest_writer;
         EnterAsMemTableWriter_loop fuel write_group newest_writer max_size
           leader last_writer size
       else mret last_writer);
  _ ← update_group write_group (with_last_writer last_writer);
  lw ← deref last_writer;
  batch ← lift (match Writer.batch lw with
                | Some b => Ok b
                | None => Err InvalidDeref
                end);
  update_group write_group
    (with_last_sequence (uint64_t (Writer.sequence lw + Count batch - 1))).

End EnterMemTable.

(** How many of the followers [ws] (oldest first) join the group of
    memtable writers: the longest prefix in which no follower ends the
    group. *)
Fixpoint select_memtable (allow : bool) (max_size size : Z)
    (ws : list Writer.t) : nat :=
  match ws with
  | [] => 0%nat
  | w :: ws' =>
      if ends_memtable_group allow w size max_size then 0%nat
      else
        S (select_memtable allow max_size
             (if negb allow then size_t (size + batch_size w) else size) ws')
  end.

(** The group after [k] followers joined. *)
Definition grown_by (k : nat) (wg : WriteGroup.t) : WriteGroup.t :=
  match k with
  | O => wg
  | S _ => with_size (size_t (WriteGroup.size wg + Z.of_nat k)) wg
  end.

Lemma select_memtable_le allow max_size : ∀ ws size,
  (select_memtable allow max_size size ws ≤ length ws)%nat.
Proof.
  induction ws as [|w ws IH]; intros size; cbn; [lia|].
  destruct (ends_memtable_group _ _ _ _); [lia|].
  specialize (IH (if negb allow then size_t (size + batch_size w) else size)).
  lia.
Qed.

Lemma EnterAsMemTableWriter_loop_spec `{Build} chain leader g newest max_size
    allow :
  chain !! 0%nat = Some leader →
  last chain = Some newest →
  ∀ ps ws i w t size wg fuel,
  linked (writers t) chain (length chain) 0 →
  chain !! i = Some w →
  drop (S i) chain = ps →
  Forall2 (fun p w => writers t !! p = Some w) ps ws →
  groups t !! g = Some wg →
  allow_concurrent_memtable_write_ t = allow →
  (length ps ≤ fuel)%nat →
  EnterAsMemTableWriter_loop fuel g (Some newest) max_size (Some w) (Some w)
    size t
  = Ok ((Some w :: (Some <$> ps)) !!! select_memtable allow max_size size ws,
        with_groups
          (<[g := grown_by (select_memtable allow max_size size ws) wg]>
             (groups t))
          (with_writers
             (join g (take (select_memtable allow max_size size ws) ps)
                (writers t)) t)).
Proof.
  intros Hleader Hnewest.
  induction ps as [|p ps IH];
    intros ws i w t size wg fuel Hlinked Hw Hdrop Hws Hg Hallow Hfuel.
  - apply Forall2_nil_inv_l in Hws as ->.
    cbn [select_memtable take join foldl grown_by].
    assert (newest = w) as ->.
    { rewrite last_lookup in Hnewest.
      apply (f_equal length) in Hdrop. rewrite length_drop in Hdrop. cbn in Hdrop.
      apply lookup_lt_Some in Hw as Hlt.
      replace (Nat.pred (length chain)) with i in Hnewest by lia. congruence. }
    destruct fuel; cbn [EnterAsMemTableWriter_loop];
      rewrite bool_decide_eq_true_2 by done; cbn;
      by rewrite insert_id, with_writers_id, with_groups_id.
  - apply Forall2_cons_inv_l in Hws as (pr & ws' & Hpr & Hws' & ->).
    destruct fuel as [|fuel]; [cbn in Hfuel; lia|].
    assert (chain !! S i = Some p) as Hp.
    { rewrite <- (Nat.add_0_r (S i)), <- lookup_drop, Hdrop. done. }
    assert (drop (S (S i)) chain = ps) as Hdrop'.
    { transitivity (drop 1 (drop (S i) chain)); [|by rewrite Hdrop].
      rewrite drop_drop. f_equal. lia. }
    pose proof (linked_NoDup _ _ _ _ Hlinked) as Hnd.
    assert (w ≠ newest) as Hwn.
    { intros ->. rewrite last_lookup in Hnewest.
      apply lookup_lt_Some in Hp.
      assert (i = Nat.pred (length chain)) by (by eapply NoDup_lookup_inj). lia. }
    cbn [EnterAsMemTableWriter_loop].
    rewrite bool_decide_eq_false_2 by congruence.
    destruct (linked_nodes _ _ _ _ Hlinked i w Hw) as (wr & Hwr & _ & Hnewer).
    rewrite bool_decide_eq_true_2 in Hnewer by lia. rewrite Hp in Hnewer.
    rewrite bind_M, (deref_Some _ _ _ Hwr), Hnewer.
    rewrite bind_M, (deref_Some _ _ _ Hpr).
    rewrite bind_M. cbv beta iota. rewrite Hallow.
    cbn [select_memtable].
    destruct (ends_memtable_group allow pr size max_size) eqn:Hends.
    + cbn. by rewrite insert_id, with_writers_id, with_groups_id.
    + assert (∃ b, Writer.batch pr = Some b) as [b Hb].
      { unfold ends_memtable_group in Hends.
        destruct (Writer.batch pr); [eauto|done]. }
      rewrite Hb, bind_M, lift_Ok.
      rewrite bind_M, (update_Some _ _ _ _ Hpr).
      rewrite bind_M. unfold update_group at 1. cbn [groups with_writers].
      rewrite Hg.
      rewrite (insert_alter_eq _ _ _ _ Hpr).
      set (t1 := with_groups _ (with_writers _ t)).
      assert (batch_size pr = ByteSize b) as Hbs
        by (unfold batch_size; by rewrite Hb).
      rewrite Hbs.
      assert (Forall2 (fun q qr => writers t1 !! q = Some qr) ps ws') as Hws1.
      { apply Forall2_same_length_lookup. split; [by eapply Forall2_length|].
        intros k q qr Hq Hqr. cbn. rewrite lookup_alter_ne.
        - exact (Forall2_lookup_lr (fun p w => writers t !! p = Some w)
                   ps ws' k q qr Hws' Hq Hqr).
        - intros ->. rewrite <- Hdrop', lookup_drop in Hq.
          assert (S (S i) + k = S i)%nat by (by eapply NoDup_lookup_inj). lia. }
      rewrite (IH ws' (S i) p t1
                 (if negb allow then size_t (size + ByteSize b) else size)
                 (with_size (size_t (WriteGroup.size wg + 1)) wg) fuel);
        try done.
      * set (k := select_memtable allow max_size _ ws').
        cbn [take]. rewrite join_cons. f_equal. f_equal.
        apply WriteThread_eq; try reflexivity.
        unfold t1. cbn [groups writers with_groups with_writers].
        rewrite insert_insert_eq. f_equal.
        unfold grown_by, with_size. cbn [WriteGroup.size WriteGroup.leader
          WriteGroup.last_writer WriteGroup.last_sequence WriteGroup.status
          WriteGroup.running].
        destruct k as [|k']; [done|].
        f_equal. unfold size_t. rewrite Zplus_mod_idemp_l. f_equal. lia.
      * by apply linked_alter_write_group.
      * cbn. apply lookup_insert_eq.
      * cbn in Hfuel. lia.
Qed.

Lemma select_memtable_proper allow max_size : ∀ ws ws' size,
  Forall2 (fun w w' => Writer.batch w' = Writer.batch w) ws ws' →
  select_memtable allow max_size size ws'
  = select_memtable allow max_size size ws.
Proof.
  induction ws as [|w ws IH]; intros ws' size Hws.
  - by apply Forall2_nil_inv_l in Hws as ->.
  - apply Forall2_cons_inv_l in Hws as (w' & ws'' & Hw & Hws & ->). cbn.
    unfold ends_memtable_group, batch_size. rewrite Hw.
    destruct (Writer.batch w) as [b|]; [|done].
    destruct (HasMerge b); [done|].
    destruct (negb allow); cbn [negb].
    + destruct (bool_decide _); [done|]. f_equal. by apply IH.
    + f_equal. by apply IH.
Qed.

(** The part of [EnterAsMemTableWriter] that lets the group grow. *)
Lemma EnterAsMemTableWriter_grow `{Build} t leader fs g wg ws m fuel
    max_size size :
  linked (writers t) (leader :: fs) m (S (length fs)) →
  newest_memtable_writer_ t = last (leader :: fs) →
  Forall2 (fun p w => writers t !! p = Some w) fs ws →
  groups t !! g = Some wg →
  (length fs < fuel)%nat →
  ∃ h',
    (newest_writer ← load NewestMemtableWriter;
     _ ← CreateMissingNewerLinks fuel newest_writer;
     EnterAsMemTableWriter_loop fuel g newest_writer max_size
       (Some leader) (Some leader) size) t
    = Ok ((leader :: fs) !!
            select_memtable (allow_concurrent_memtable_write_ t) max_size size ws,
          with_groups
            (<[g := grown_by
                      (select_memtable (allow_concurrent_memtable_write_ t)
                         max_size size ws) wg]> (groups t))
            (with_writers h' t)) ∧
    (∀ i p, (leader :: fs) !! i = Some p →
       ∃ w, writers t !! p = Some w ∧
         h' !! p
         = Some (Writer.set_link_newer ((leader :: fs) !! S i)
                   (if decide (1 ≤ i ≤ select_memtable
                                        (allow_concurrent_memtable_write_ t)
                                        max_size size ws)%nat
                    then Writer.set_write_group (Some g) w else w))) ∧
    (∀ p, p ∉ leader :: fs → h' !! p = writers t !! p).
Proof.
  intros Hlinked Hnewest Hfs Hg Hfuel.
  set (chain := leader :: fs) in *.
  set (allow := allow_concurrent_memtable_write_ t).
  pose proof (linked_NoDup _ _ _ _ Hlinked) as Hnd.
  assert (∃ newest, last chain = Some newest ∧ chain !! length fs = Some newest)
    as (newest & Hlast & Hnw).
  { destruct (chain !! length fs) as [nw|] eqn:Hnw.
    - exists nw. split; [|done]. rewrite last_lookup. done.
    - apply lookup_ge_None in Hnw. cbn in Hnw. lia. }
  rewrite bind_M. unfold load at 1. cbn [head_of]. rewrite Hnewest, Hlast.
  rewrite bind_M.
  destruct (CreateMissingNewerLinks_spec chain m (length fs) fuel newest t)
    as (h1 & Hcml & Hlinked' & Hsame & Hframe); [|done|lia|].
  { by apply (linked_last _ chain). }
  rewrite Hcml.
  set (t3 := with_writers h1 t).
  assert (∀ p w, writers t !! p = Some w →
            ∃ w', h1 !! p = Some w' ∧ Writer.batch w' = Writer.batch w ∧
                  w' = Writer.set_link_newer (Writer.link_newer w') w) as Hrec.
  { intros p w Hw. specialize (Hsame p). rewrite Hw in Hsame.
    destruct (h1 !! p) as [w'|]; [|done]. cbn in Hsame.
    exists w'. split; [done|]. split; [|done]. by rewrite Hsame. }
  assert (∃ ws', Forall2 (fun p w => writers t3 !! p = Some w) fs ws' ∧
                 Forall2 (fun w w' => Writer.batch w' = Writer.batch w) ws ws')
    as (ws' & Hws' & Hreq).
  { clear -Hfs Hrec. induction Hfs as [|p w fs ws Hp _ IH].
    - exists []. split; constructor.
    - destruct IH as (ws' & Hws' & Hreq).
      destruct (Hrec p w Hp) as (w' & Hw' & Hr & _).
      exists (w' :: ws'). split; by constructor. }
  rewrite (EnterAsMemTableWriter_loop_spec chain leader g newest max_size allow
             eq_refl Hlast fs ws' 0%nat leader t3 size wg fuel); try done;
    [|lia].
  rewrite (select_memtable_proper allow max_size ws ws') by done.
  set (k := select_memtable allow max_size size ws).
  assert (k ≤ length fs)%nat as Hk.
  { unfold k. etrans; [apply select_memtable_le|].
    by rewrite (Forall2_length _ _ _ Hfs). }
  exists (join g (take k fs) h1). split_and!.
  - f_equal. f_equal.
    destruct (lookup_lt_is_Some_2 chain k) as [l Hl]; [cbn; lia|].
    rewrite Hl. f_equal. apply list_lookup_total_correct.
    change (Some leader :: (Some <$> fs)) with (Some <$> chain).
    by rewrite list_lookup_fmap, Hl.
  - intros i p Hp. rewrite lookup_join.
    destruct (linked_nodes _ _ _ _ Hlinked i p Hp) as (w & Hw & _).
    exists w. split; [done|].
    destruct (linked_nodes _ _ _ _ Hlinked' i p Hp) as (w' & Hw' & _ & Hnewer).
    rewrite bool_decide_eq_true_2 in Hnewer by lia.
    rewrite Hw'.
    destruct (Hrec _ _ Hw) as (w'' & Hw'' & _ & Heq).
    assert (w'' = w') as -> by congruence.
    rewrite Heq, Hnewer. clear Heq Hw''.
    destruct (decide (p ∈ take k fs)) as [Hin|Hnin].
    + apply list_elem_of_lookup in Hin as [i' Hi'].
      apply lookup_take_Some in Hi' as [Hi' Hlt].
      assert (i = S i') as -> by (by eapply (NoDup_lookup_inj chain)).
      rewrite decide_True by lia. done.
    + rewrite decide_False; [done|].
      intros [Hi1 Hik]. apply Hnin. destruct i as [|i']; [lia|].
      apply list_elem_of_lookup. exists i'. apply lookup_take_Some.
      split; [done|lia].
  - intros p Hp. rewrite lookup_join.
    rewrite decide_False.
    + by apply Hframe.
    + intros Hin. apply Hp. right.
      apply elem_of_take in Hin as (i0 & Hi0 & _).
      by eapply list_elem_of_lookup_2.
Qed.

(** The follower [w] passes every test of the loop when the group has
    [size] bytes: it has a batch without merge operands and, unless
    concurrent memtable writes are allowed, the batch fits. *)
Definition admits_memtable (allow : bool) (w : Writer.t) (size max_size : Z)
    : Prop :=
  ∃ b, Writer.batch w = Some b ∧ HasMerge b = false ∧
       (allow = false → size_t (size + ByteSize b) ≤ max_size).

Lemma ends_memtable_group_admits allow w size max_size :
  ends_memtable_group allow w size max_size = false
  ↔ admits_memtable allow w size max_size.
Proof.
  unfold ends_memtable_group, admits_memtable.
  destruct (Writer.batch w) as [b|]; [|split; [done|by intros (? & ? & _)]].
  destruct (HasMerge b) eqn:Hmerge.
  { split; [done|]. intros (b' & [= <-] & ? & _). congruence. }
  destruct allow; cbn [negb].
  - split; [|done]. intros _. exists b. done.
  - rewrite bool_decide_eq_false. split.
    + intros Hle. exists b. split; [done|]. split; [done|]. lia.
    + intros (b' & [= <-] & _ & Hle). specialize (Hle eq_refl). lia.
Qed.

(** The bytes that the size test sees after the followers [ws] joined. *)
Definition memtable_bytes (allow : bool) (size : Z) (ws : list Writer.t) : Z :=
  if allow then size else group_bytes size ws.

Lemma select_memtable_spec allow max_size : ∀ ws size,
  (∀ i w, (i < select_memtable allow max_size size ws)%nat → ws !! i = Some w →
     admits_memtable allow w (memtable_bytes allow size (take i ws)) max_size) ∧
  (∀ w, ws !! select_memtable allow max_size size ws = Some w →
     ¬ admits_memtable allow w
         (memtable_bytes allow size
            (take (select_memtable allow max_size size ws) ws)) max_size).
Proof.
  induction ws as [|w0 ws IH]; intros size; cbn [select_memtable].
  - split; [intros i w Hi; cbn in Hi; lia|done].
  - destruct (ends_memtable_group allow w0 size max_size) eqn:Hends.
    + split; [intros i w Hi; lia|].
      intros w [= <-] Hadm%ends_memtable_group_admits.
      unfold memtable_bytes in Hadm. cbn in Hadm.
      destruct allow; congruence.
    + destruct (IH (if negb allow then size_t (size + batch_size w0) else size))
        as (Hin & Hout).
      assert (∀ l, memtable_bytes allow size (w0 :: l)
                   = memtable_bytes allow
                       (if negb allow then size_t (size + batch_size w0)
                        else size) l) as Hbytes.
      { intros l. unfold memtable_bytes. by destruct allow. }
      split.
      * intros [|i] w Hi Hw.
        -- injection Hw as <-. apply ends_memtable_group_admits.
           unfold memtable_bytes. cbn. by destruct allow.
        -- cbn [take]. rewrite Hbytes. apply Hin; [lia|done].
      * intros w Hw. cbn [take]. rewrite Hbytes. by apply Hout.
Qed.

(** A leader at the old end of the list of memtable writers, the writers
    [fs] behind it (oldest first), none of them in a group, and a group
    object. *)
Record memtable_request (t : WriteThread) (leader : loc) (fs : list loc)
    (g : loc) (lr : Writer.t) (b : WriteBatch) (ws : list Writer.t)
    (wg : WriteGroup.t) : Prop := {
  mrequest_linked : ∃ m, linked (writers t) (leader :: fs) m (S (length fs));
  mrequest_newest : newest_memtable_writer_ t = last (leader :: fs);
  mrequest_leader : writers t !! leader = Some lr;
  mrequest_batch : Writer.batch lr = Some b;
  mrequest_followers :
    Forall2 (fun p w => writers t !! p = Some w ∧ Writer.write_group w = None)
      fs ws;
  mrequest_group : groups t !! g = Some wg
}.

(** The number of followers that join. *)
Definition memtable_followers (allow : bool) (b : WriteBatch)
    (ws : list Writer.t) : nat :=
  if allow && HasMerge b then 0%nat
  else select_memtable allow (max_group_size (ByteSize b)) (ByteSize b) ws.

Lemma memtable_followers_le allow b ws :
  (memtable_followers allow b ws ≤ length ws)%nat.
Proof.
  unfold memtable_followers. destruct (allow && HasMerge b); [lia|].
  apply select_memtable_le.
Qed.

Lemma memtable_followers_last allow b lr ws :
  Writer.batch lr = Some b →
  ∃ lastw lastb, (lr :: ws) !! memtable_followers allow b ws = Some lastw ∧
    Writer.batch lastw = Some lastb.
Proof.
  intros Hb. pose proof (memtable_followers_le allow b ws) as Hle.
  destruct (memtable_followers allow b ws) as [|k] eqn:Hk.
  - exists lr, b. done.
  - destruct (lookup_lt_is_Some_2 ws k) as [w Hw]; [lia|].
    unfold memtable_followers in Hk.
    destruct (allow && HasMerge b); [done|].
    destruct (select_memtable_spec allow (max_group_size (ByteSize b)) ws
                (ByteSize b)) as [Hin _].
    destruct (Hin k w ltac:(lia) Hw) as (wb & Hwb & _).
    exists w, wb. done.
Qed.

(** The group object that [EnterAsMemTableWriter] leaves. *)
Definition memtable_group_of (leader : loc) (fs : list loc) (k : nat)
    (lastw : Writer.t) (lastb : WriteBatch) (wg : WriteGroup.t)
    : WriteGroup.t :=
  with_last_sequence (uint64_t (Writer.sequence lastw + Count lastb - 1))
    (with_last_writer ((leader :: fs) !! k)
       (grown_by k (with_size 1 (with_leader (Some leader) wg)))).

Lemma EnterAsMemTableWriter_spec `{Build} t leader fs g lr b ws wg fuel
    lastw lastb :
  memtable_request t leader fs g lr b ws wg →
  (length fs < fuel)%nat →
  (lr :: ws) !! memtable_followers (allow_concurrent_memtable_write_ t) b ws
    = Some lastw →
  Writer.batch lastw = Some lastb →
  ∃ h',
    EnterAsMemTableWriter fuel (Some leader) g t
    = Ok (tt, with_groups
                (<[g := memtable_group_of leader fs
                          (memtable_followers
                             (allow_concurrent_memtable_write_ t) b ws)
                          lastw lastb wg]> (groups t))
                (with_writers h' t)) ∧
    (∀ i p, (leader :: fs) !! i = Some p →
       ∃ w n, writers t !! p = Some w ∧
         h' !! p
         = Some (Writer.set_link_newer n
                   (if decide (i ≤ memtable_followers
                                     (allow_concurrent_memtable_write_ t) b ws)%nat
                    then Writer.set_write_group (Some g) w else w))) ∧
    (∀ p, p ∉ leader :: fs → h' !! p = writers t !! p).
Proof.
  intros [[m Hlinked] Hnewest Hlr Hb Hfs Hg] Hfuel Hlastw Hlastb.
  set (chain := leader :: fs) in *.
  set (allow := allow_concurrent_memtable_write_ t) in *.
  set (k := memtable_followers allow b ws) in *.
  pose proof (linked_NoDup _ _ _ _ Hlinked) as Hnd.
  pose proof (memtable_followers_le allow b ws) as Hk. fold k in Hk.
  assert (length ws = length fs) as Hlen
    by (symmetry; by eapply Forall2_length).
  destruct (linked_nodes _ _ _ _ Hlinked 0%nat leader eq_refl)
    as (lr0 & Hlr0 & Hold & _).
  assert (lr0 = lr) as -> by congruence. cbn in Hold.
  assert (∀ p, p ∈ fs → p ≠ leader) as Hne.
  { intros p Hp ->. apply NoDup_cons in Hnd as [Hnot _]. done. }
  unfold EnterAsMemTableWriter.
  rewrite (bool_decide_eq_true_2 (Some leader ≠ None)) by done.
  rewrite bind_M, assert_true, lift_Ok.
  rewrite bind_M, assert_reading_true;
    [|by rewrite bind_M, (deref_Some _ _ _ Hlr), Hold].
  rewrite bind_M, assert_reading_true;
    [|by rewrite bind_M, (deref_Some _ _ _ Hlr), Hb].
  rewrite bind_M, (deref_Some _ _ _ Hlr), Hb.
  rewrite bind_M, lift_Ok.
  rewrite bind_M, (update_Some _ _ _ _ Hlr).
  rewrite (insert_alter_eq _ _ _ _ Hlr).
  set (t1 := with_writers _ t).
  rewrite bind_M, (update_group_Some t1 g wg) by done.
  set (t1' := with_groups _ t1).
  rewrite bind_M, (update_group_Some t1' g (with_leader (Some leader) wg))
    by (unfold t1'; cbn; apply lookup_insert_eq).
  set (wg1 := with_size 1 (with_leader (Some leader) wg)).
  set (t2 := with_groups _ t1').
  assert (groups t2 = <[g := wg1]> (groups t)) as Hg2.
  { unfold t2, t1', t1. cbn. by rewrite insert_insert_eq. }
  assert (writers t2 = alter (Writer.set_write_group (Some g)) leader (writers t))
    as Hw2 by reflexivity.
  assert (writers t2 !! leader = Some (Writer.set_write_group (Some g) lr))
    as Hlr2.
  { rewrite Hw2. by rewrite lookup_alter_eq, Hlr. }
  assert (∀ i p, chain !! i = Some p →
            ∃ w, writers t !! p = Some w ∧
              writers t2 !! p
              = Some (if decide (i = 0)%nat
                      then Writer.set_write_group (Some g) w else w)) as Hrec2.
  { intros i p Hp.
    destruct (linked_nodes _ _ _ _ Hlinked i p Hp) as (w & Hw & _).
    exists w. split; [done|]. rewrite Hw2.
    destruct (decide (i = 0%nat)) as [->|Hi].
    - assert (p = leader) as -> by (cbn in Hp; congruence).
      by rewrite lookup_alter_eq, Hw.
    - rewrite lookup_alter_ne; [done|]. intros <-.
      apply Hi. by eapply (NoDup_lookup_inj chain). }
  rewrite bind_M. cbv beta iota.
  change (allow_concurrent_memtable_write_ t2) with allow.
  rewrite bind_M.
  (* the part that selects the followers *)
  assert (∃ h',
    (if negb allow
     then
       newest_writer ← load NewestMemtableWriter;
       _ ← CreateMissingNewerLinks fuel newest_writer;
       EnterAsMemTableWriter_loop fuel g newest_writer
         (max_group_size (ByteSize b)) (Some leader) (Some leader) (ByteSize b)
     else
       lr ← deref (Some leader);
       batch ← lift (match Writer.batch lr with
                     | Some b => Ok b
                     | None => Err InvalidDeref
                     end);
       if negb (HasMerge batch)
       then
         newest_writer ← load NewestMemtableWriter;
         _ ← CreateMissingNewerLinks fuel newest_writer;
         EnterAsMemTableWriter_loop fuel g newest_writer
           (max_group_size (ByteSize b)) (Some leader) (Some leader) (ByteSize b)
       else mret (Some leader)) t2
    = Ok (chain !! k,
          with_groups (<[g := grown_by k wg1]> (groups t2)) (with_writers h' t2)) ∧
    (∀ i p, chain !! i = Some p →
       ∃ w n, writers t !! p = Some w ∧
         h' !! p = Some (Writer.set_link_newer n
                           (if decide (i ≤ k)%nat
                            then Writer.set_write_group (Some g) w else w))) ∧
    (∀ p, p ∉ chain → h' !! p = writers t !! p))
    as (h' & Hrun & Hmembers & Hframe).
  { assert (allow && HasMerge b = false →
      ∃ h',
        (newest_writer ← load NewestMemtableWriter;
         _ ← CreateMissingNewerLinks fuel newest_writer;
         EnterAsMemTableWriter_loop fuel g newest_writer
           (max_group_size (ByteSize b)) (Some leader) (Some leader)
           (ByteSize b)) t2
        = Ok (chain !! k,
              with_groups (<[g := grown_by k wg1]> (groups t2))
                (with_writers h' t2)) ∧
        (∀ i p, chain !! i = Some p →
           ∃ w n, writers t !! p = Some w ∧
             h' !! p = Some (Writer.set_link_newer n
                               (if decide (i ≤ k)%nat
                                then Writer.set_write_group (Some g) w else w))) ∧
        (∀ p, p ∉ chain → h' !! p = writers t !! p)) as Hgrow.
    { intros Hloop.
      assert (Forall2 (fun p w => writers t2 !! p = Some w) fs ws) as Hfs2.
      { apply Forall2_same_length_lookup. split; [done|].
        intros i p w Hp Hw. rewrite Hw2, lookup_alter_ne.
        - destruct (Forall2_lookup_l _ _ _ _ _ Hfs Hp) as (w0 & Hw0 & Hpw & _).
          congruence.
        - intros <-. apply (Hne leader); [|done].
          by eapply list_elem_of_lookup_2. }
      destruct (EnterAsMemTableWriter_grow t2 leader fs g wg1 ws m fuel
                  (max_group_size (ByteSize b)) (ByteSize b))
        as (h' & Hrun & Hmem & Hfr); try done.
      { rewrite Hw2. by apply linked_alter_write_group. }
      { rewrite Hg2. apply lookup_insert_eq. }
      change (allow_concurrent_memtable_write_ t2) with allow in Hrun, Hmem.
      assert (select_memtable allow (max_group_size (ByteSize b)) (ByteSize b) ws
              = k) as Hsel.
      { unfold k, memtable_followers. by rewrite Hloop. }
      rewrite Hsel in Hrun, Hmem.
      exists h'. split; [exact Hrun|]. split.
      - intros i p Hp. destruct (Hmem i p Hp) as (w2 & Hw2' & ->).
        destruct (Hrec2 i p Hp) as (w & Hw & Hw2'').
        assert (w2 = if decide (i = 0)%nat
                     then Writer.set_write_group (Some g) w else w) as ->
          by congruence.
        exists w, (chain !! S i). split; [done|]. f_equal. f_equal.
        destruct i as [|i].
        + rewrite decide_False by lia. rewrite decide_True by done.
          by rewrite decide_True by lia.
        + rewrite (decide_False (P := (S i = 0)%nat)) by lia.
          destruct (decide (S i ≤ k)%nat).
          * by rewrite decide_True by lia.
          * by rewrite decide_False by lia.
      - intros p Hp. rewrite Hfr by done. rewrite Hw2.
        apply lookup_alter_ne. intros <-. apply Hp. by left. }
    destruct allow eqn:Hallow; cbn [negb].
    - rewrite bind_M, (deref_Some _ _ _ Hlr2).
      cbn [Writer.batch Writer.set_write_group]. rewrite Hb.
      rewrite bind_M, lift_Ok.
      destruct (HasMerge b) eqn:Hmerge; cbn [negb].
      + assert (k = 0)%nat as Hk0.
        { unfold k, memtable_followers. by rewrite Hmerge. }
        exists (writers t2). split_and!.
        * rewrite Hk0. cbn [mret M_ret grown_by]. f_equal. f_equal.
          rewrite insert_id by (rewrite Hg2; apply lookup_insert_eq).
          by rewrite with_writers_id, with_groups_id.
        * intros i p Hp. destruct (Hrec2 i p Hp) as (w & Hw & ->).
          exists w, (Writer.link_newer w). split; [done|]. f_equal.
          rewrite Hk0. destruct i as [|i].
          -- rewrite !decide_True by lia. by destruct w.
          -- rewrite !decide_False by lia. by destruct w.
        * intros p Hp. rewrite Hw2. apply lookup_alter_ne.
          intros <-. apply Hp. by left.
      + by apply Hgrow.
    - by apply Hgrow. }
  rewrite Hrun.
  destruct (lookup_lt_is_Some_2 chain k) as [pk Hpk]; [cbn; lia|].
  rewrite Hpk.
  set (t4 := with_groups _ (with_writers h' t2)).
  rewrite bind_M, (update_group_Some t4 g (grown_by k wg1))
    by (unfold t4; cbn; apply lookup_insert_eq).
  set (t5 := with_groups _ t4).
  destruct (Hmembers k pk Hpk) as (wk & nk & Hwk & Hwk').
  assert (wk = lastw) as ->.
  { pose proof Hlastw as Hl. pose proof Hpk as Hp.
    destruct (Nat.eq_dec k 0%nat) as [Hk0|Hk0].
    - rewrite Hk0 in Hl, Hp. cbn in Hl, Hp. congruence.
    - assert (∃ k', k = S k') as [k' Hk'] by (exists (Nat.pred k); lia).
      rewrite Hk' in Hl, Hp.
      change (ws !! k' = Some lastw) in Hl.
      change (fs !! k' = Some pk) in Hp.
      destruct (Forall2_lookup_l _ _ _ _ _ Hfs Hp) as (w0 & Hw0 & Hpw & _).
      congruence. }
  rewrite (decide_True (P := (k ≤ k)%nat)) in Hwk' by lia.
  rewrite bind_M, (deref_Some t5 pk _ Hwk').
  cbn [Writer.batch Writer.sequence Writer.set_link_newer Writer.set_write_group].
  rewrite Hlastb. rewrite bind_M, lift_Ok.
  rewrite (update_group_Some t5 g (with_last_writer (Some pk) (grown_by k wg1)))
    by (unfold t5; cbn; apply lookup_insert_eq).
  exists h'. split; [|split; [exact Hmembers|exact Hframe]].
  f_equal. f_equal. apply WriteThread_eq; try reflexivity.
  unfold t5, t4. cbn [groups writers with_groups with_writers].
  rewrite Hg2, !insert_insert_eq. unfold memtable_group_of.
  change (leader :: fs) with chain. by rewrite Hpk.
Qed.

(** [EnterAsMemTableWriter], called by the leader at the old end of the
    list of memtable writers with more steps than followers, returns.  The
    group is the leader and the first [k] writers behind it.  A leader
    whose batch has merge operands stays alone when concurrent memtable
    writes are allowed.  Otherwise the [k] followers are the longest run
    right behind the leader of writers that have a batch without merge
    operands which, unless concurrent memtable writes are allowed, still
    fits the byte limit of the group; the writer after them, if any, fails
    one of these tests.  The members point to the group, which records the
    leader, the last member, [1 + k] as its size, and as its last sequence
    number the sequence of the last member plus the count of its batch
    minus one; the writers behind the cut stay outside. *)
Theorem EnterAsMemTableWriter_group (build : Build)
    (t : WriteThread) (leader : loc) (fs : list loc) (g : loc)
    (lr : Writer.t) (b : WriteBatch) (ws : list Writer.t) (wg : WriteGroup.t)
    (fuel : nat) :
  memtable_request t leader fs g lr b ws wg →
  (length fs < fuel)%nat →
  ∃ t' k wg' lastw lastb,
    EnterAsMemTableWriter fuel (Some leader) g t = Ok (tt, t') ∧
    (k ≤ length fs)%nat ∧
    (allow_concurrent_memtable_write_ t = true → HasMerge b = true →
     k = 0%nat) ∧
    (allow_concurrent_memtable_write_ t && HasMerge b = false →
     (∀ i w, (i < k)%nat → ws !! i = Some w →
        admits_memtable (allow_concurrent_memtable_write_ t) w
          (memtable_bytes (allow_concurrent_memtable_write_ t) (ByteSize b)
             (take i ws))
          (max_group_size (ByteSize b))) ∧
     (∀ w, ws !! k = Some w →
        ¬ admits_memtable (allow_concurrent_memtable_write_ t) w
            (memtable_bytes (allow_concurrent_memtable_write_ t) (ByteSize b)
               (take k ws))
            (max_group_size (ByteSize b)))) ∧
    groups t' !! g = Some wg' ∧
    WriteGroup.leader wg' = Some leader ∧
    WriteGroup.last_writer wg' = (leader :: fs) !! k ∧
    WriteGroup.size wg' = size_t (1 + Z.of_nat k) ∧
    (lr :: ws) !! k = Some lastw ∧
    Writer.batch lastw = Some lastb ∧
    WriteGroup.last_sequence wg'
      = uint64_t (Writer.sequence lastw + Count lastb - 1) ∧
    WriteGroup.status wg' = WriteGroup.status wg ∧
    (∃ lr', writers t' !! leader = Some lr' ∧
       Writer.write_group lr' = Some g) ∧
    (∀ i p, fs !! i = Some p →
       ∃ w', writers t' !! p = Some w' ∧
         (Writer.write_group w' = Some g ↔ (i < k)%nat)) ∧
    (∀ p, p ∉ leader :: fs → writers t' !! p = writers t !! p) ∧
    newest_memtable_writer_ t' = newest_memtable_writer_ t.
Proof.
  intros Hreq Hfuel.
  set (allow := allow_concurrent_memtable_write_ t).
  set (k := memtable_followers allow b ws).
  destruct (memtable_followers_last allow b lr ws (mrequest_batch _ _ _ _ _ _ _ _ Hreq))
    as (lastw & lastb & Hlastw & Hlastb).
  destruct (EnterAsMemTableWriter_spec t leader fs g lr b ws wg fuel lastw lastb
              Hreq Hfuel Hlastw Hlastb) as (h' & Hrun & Hmembers & Hframe).
  fold allow in Hrun, Hmembers. fold k in Hrun, Hmembers, Hlastw.
  pose proof (memtable_followers_le allow b ws) as Hk. fold k in Hk.
  pose proof (Forall2_length _ _ _ (mrequest_followers _ _ _ _ _ _ _ _ Hreq))
    as Hlen.
  eexists. exists k. eexists. exists lastw, lastb.
  split; [exact Hrun|].
  cbn [groups writers newest_memtable_writer_ with_groups with_writers].
  split_and!.
  - lia.
  - intros Ha Hm. unfold k, memtable_followers. by rewrite Ha, Hm.
  - intros Hloop.
    assert (k = select_memtable allow (max_group_size (ByteSize b)) (ByteSize b) ws)
      as Hsel by (unfold k, memtable_followers; by rewrite Hloop).
    rewrite Hsel. apply select_memtable_spec.
  - apply lookup_insert_eq.
  - unfold memtable_group_of. cbn. by destruct k.
  - reflexivity.
  - unfold memtable_group_of. cbn. destruct k as [|k'] eqn:Hk'; [done|].
    cbn. f_equal.
  - exact Hlastw.
  - exact Hlastb.
  - reflexivity.
  - unfold memtable_group_of. cbn. by destruct k.
  - destruct (Hmembers 0%nat leader eq_refl) as (w & n & Hw & ->).
    eexists. split; [done|]. by rewrite decide_True by lia.
  - intros i p Hp.
    destruct (Hmembers (S i) p Hp) as (w & n & Hw & ->).
    eexists. split; [done|].
    destruct (Forall2_lookup_l _ _ _ _ _ (mrequest_followers _ _ _ _ _ _ _ _ Hreq) Hp)
      as (w0 & _ & Hw0 & Hnone).
    assert (w0 = w) as -> by congruence.
    destruct (decide (S i ≤ k)%nat); cbn; [split; [lia|done]|].
    rewrite Hnone. split; [done|lia].
  - exact Hframe.
  - reflexivity.
Qed.

(** The three writers of 500, 600 and 700 bytes as memtable writers, with
    a group object at location 9. *)
Definition three_memtable_writers : WriteThread :=
  with_newest_memtable_writer (Some 4%positive)
    (with_newest_writer None three_writers_and_group).

Lemma EnterAsMemTableWriter_group_witness :
  ∃ t' wg',
    @EnterAsMemTableWriter debug 3 (Some 2%positive) 9%positive
      three_memtable_writers = Ok (tt, t') ∧
    groups t' !! 9%positive = Some wg' ∧
    WriteGroup.last_writer wg' = Some 4%positive ∧
    WriteGroup.size wg' = 3.
Proof.
  destruct (EnterAsMemTableWriter_group debug three_memtable_writers
              2%positive [3; 4]%positive 9%positive
              (put 500 true false None (Some 3%positive))
              {| ByteSize := 500; Count := 1; HasMerge := false |}
              [put 600 true false (Some 2%positive) None;
               put 700 true false (Some 3%positive) None]
              WriteGroup.empty 3)
    as (t' & k & wg' & lastw & lastb & Hrun & Hk & _ & _ & Hg & _ & Hlast
        & Hsize & _).
  - split.
    + exists 1%nat. apply linkedb_linked. vm_compute. reflexivity.
    + reflexivity.
    + reflexivity.
    + reflexivity.
    + repeat constructor.
    + reflexivity.
  - cbn. lia.
  - assert (k = 2)%nat as ->.
    { vm_compute in Hrun. injection Hrun as <-.
      vm_compute in Hg. injection Hg as <-.
      cbn in Hlast. cbn in Hk.
      destruct k as [|[|[|k]]]; [discriminate Hlast|discriminate Hlast|done|lia]. }
    exists t', wg'. split; [exact Hrun|]. split; [exact Hg|].
    split; [exact Hlast|exact Hsize].
Defined.

(** ** The yield credit *)

(** The update of [yield_credit] at the end of [AwaitState], executed when
    [update_ctx] is set:
    [v = v - (v / 1024) + (would_spin_again ? 1 : -1) * 131072]
    on [int32_t], with the truncating division of C++.  The spinning and
    blocking before it depend on clocks and on other threads and are not
    modelled. *)
Definition yield_credit_update (v : Z) (would_spin_again : bool) : Z :=
  int32_t (int32_t (v - Z.quot v 1024)
           + int32_t ((if would_spin_again then 1 else -1) * 131072)).

(** The credit after a sequence of sampled waits. *)
Definition yield_credit_after (v : Z) (samples : list bool) : Z :=
  foldl yield_credit_update v samples.

Lemma yield_credit_update_exact v b :
  - 2 ^ 27 ≤ v ≤ 2 ^ 27 →
  yield_credit_update v b
  = v - Z.quot v 1024 + (if b then 131072 else - 131072) ∧
  - 2 ^ 27 ≤ yield_credit_update v b ≤ 2 ^ 27.
Proof.
  intros Hv.
  pose proof (Z.quot_rem' v 1024) as Hqr.
  assert (- 1024 < Z.rem v 1024 < 1024 ∧ (0 ≤ v → 0 ≤ Z.rem v 1024) ∧
          (v ≤ 0 → Z.rem v 1024 ≤ 0)) as (Hr & Hrp & Hrn).
  { destruct (Z.le_ge_cases 0 v) as [Hp|Hn].
    - pose proof (Z.rem_bound_pos v 1024 Hp ltac:(lia)). lia.
    - pose proof (Z.rem_bound_pos_neg v 1024 ltac:(lia) Hn). lia. }
  assert (yield_credit_update v b
          = v - Z.quot v 1024 + (if b then 131072 else - 131072)) as Heq.
  { unfold yield_credit_update.
    rewrite (int32_t_id (v - _)) by (unfold is_int32; lia).
    rewrite (int32_t_id (_ * 131072)) by (unfold is_int32; destruct b; lia).
    rewrite int32_t_id by (unfold is_int32; destruct b; lia).
    destruct b; lia. }
  split; [exact Heq|]. rewrite Heq. destruct b; lia.
Qed.

(** The yield credit never leaves the range of [int32_t]: a credit between
    -2^27 and 2^27 stays there under every update, so no step of the
    update overflows and the stored value is the exact one; the two bounds
    are the fixed points of a run of successful, respectively unsuccessful,
    samples. *)
Theorem yield_credit_stays_bounded (v : Z) (samples : list bool) :
  - 2 ^ 27 ≤ v ≤ 2 ^ 27 →
  - 2 ^ 27 ≤ yield_credit_after v samples ≤ 2 ^ 27 ∧
  (∀ b, yield_credit_update v b
        = v - Z.quot v 1024 + (if b then 131072 else - 131072)) ∧
  yield_credit_update (2 ^ 27) true = 2 ^ 27 ∧
  yield_credit_update (- 2 ^ 27) false = - 2 ^ 27.
Proof.
  intros Hv. split; [|split; [|split]].
  - revert v Hv. induction samples as [|b samples IH]; intros v Hv; [exact Hv|].
    change (yield_credit_after v (b :: samples))
      with (yield_credit_after (yield_credit_update v b) samples). apply IH.
    by apply yield_credit_update_exact.
  - intros b. by apply yield_credit_update_exact.
  - reflexivity.
  - reflexivity.
Qed.

Lemma yield_credit_stays_bounded_witness :
  - 2 ^ 27 ≤ yield_credit_after 0 [true; true; false] ≤ 2 ^ 27 ∧
  yield_credit_after 0 [true; true; false] = 130689.
Proof.
  destruct (yield_credit_stays_bounded 0 [true; true; false]) as (Hb & _);
    [lia|].
  split; [exact Hb|]. reflexivity.
Defined.

(** ** The exit of the last parallel memtable writer *)

Section ExitFollower.
Context `{Build}.
Variable pipelined_exit : loc → Status → M unit.


End ExitFollower.




End WriteThread.
